(** * collection-js: List and Iterable over a store of JavaScript objects

    A shallow embedding of [List] (the array-backed ordered sequence) and of
    [Iterable] (the read-only traversal methods every collection inherits),
    followed by the properties of the specification that concern them.

    Arrays and collection instances live in a store, so that in-place
    mutation ([splice], index assignment) and aliasing of a backing array
    are visible.  Methods are computations in a state-and-exception monad
    over that store; the functions a caller passes are computations too.
    What the host provides and the library only uses (the operator [<],
    case conversion, locale comparison, string conversion) is an interface,
    [Host], with an instance for the examples.

    The file has two parts: the embedding, then the lemmas and theorems. *)

From stdpp Require Import base option list gmap strings pretty.
From Stdlib Require Import ZArith Lia Ascii Sorted.

Open Scope Z_scope.

(** ** JavaScript values *)

Module JS.

Definition loc := positive.

(** Numbers are restricted to the integers and NaN. *)
Inductive value :=
  | VUndefined
  | VNull
  | VBool (b : bool)
  | VNum (n : Z)
  | VNaN
  | VStr (s : string)
  | VRef (l : loc).

#[global] Instance value_eq_dec : EqDecision value.
Proof. solve_decision. Defined.

#[global] Instance value_inhabited : Inhabited value := populate VUndefined.

(** ToBoolean *)
Definition truthy (v : value) : bool :=
  match v with
  | VUndefined | VNull | VNaN => false
  | VBool b => b
  | VNum n => negb (n =? 0)
  | VStr s => negb (String.eqb s "")
  | VRef _ => true
  end.

(** [x === y]: same type and same value, objects by reference, and
    [NaN] different from itself. *)
Definition strict_eq (x y : value) : bool :=
  match x, y with
  | VNaN, _ | _, VNaN => false
  | _, _ => bool_decide (x = y)
  end.

(** [Object.prototype.toString] of a plain object. *)
Definition object_Object : string := "[object Object]".

(** [x == o] where [o] is a reference to a plain object, one that
    inherits [valueOf] and [toString] from [Object.prototype].  Against
    another object the comparison is by reference; a string or a number is
    compared with the primitive of [o], the string ["[object Object]"],
    which as a number is [NaN]; a boolean is first turned into a number;
    [null] and [undefined] are equal to no object. *)
Definition loose_eq_plain_object (x : value) (o : loc) : bool :=
  match x with
  | VRef l => bool_decide (l = o)
  | VStr s => String.eqb s object_Object
  | VNum _ | VNaN | VBool _ => false
  | VUndefined | VNull => false
  end.

(** *** Array primitives, on the sequence of elements *)

(** [xs[i]]: [undefined] outside the array. *)
Definition Array_get (xs : list value) (i : Z) : value :=
  if decide (0 ≤ i) then default VUndefined (xs !! Z.to_nat i) else VUndefined.

(** [xs[i] = x] for an integer [i ≥ 0]: replaces inside the array, and
    extends it when [i] is at or past the end, the skipped positions being
    holes that read as [undefined]. *)
Definition Array_set (xs : list value) (i : nat) (x : value) : list value :=
  if decide (i < length xs)%nat then <[i:=x]> xs
  else xs ++ replicate (i - length xs) VUndefined ++ [x].

(** Resolution of a relative index against a length (ES5 15.4.4.10,
    15.4.4.12): negative indices count from the end, and the result is
    clamped to [0, len]. *)
Definition relative_index (k : Z) (len : nat) : nat :=
  if decide (k < 0) then Z.to_nat (Z.max (Z.of_nat len + k) 0)
  else Z.to_nat (Z.min k (Z.of_nat len)).

(** [xs.slice(start, end)]; an omitted [end] is the length. *)
Definition Array_slice (xs : list value) (start : Z) (end_ : option Z) : list value :=
  let len := length xs in
  let k := relative_index start len in
  let final := match end_ with None => len | Some e => relative_index e len end in
  take (final - k) (drop k xs).

(** [xs.splice(start, deleteCount, ...ins)]: the removed elements and the
    new contents. *)
Definition Array_splice (xs : list value) (start deleteCount : Z) (ins : list value)
  : list value * list value :=
  let len := length xs in
  let k := relative_index start len in
  let dc := Z.to_nat (Z.min (Z.max deleteCount 0) (Z.of_nat len - Z.of_nat k)) in
  (take dc (drop k xs), take k xs ++ ins ++ drop (k + dc) xs).

(** [xs.join(sep)]: [undefined] and [null] elements give the empty string,
    the others their string conversion. *)
Definition Array_join (to_string : value → string) (sep : string) (xs : list value) : string :=
  String.concat sep
    ((λ x, match x with VUndefined | VNull => "" | _ => to_string x end) <$> xs).

(** [Array.prototype.sort] with a comparison function that may throw.
    ES5 15.4.4.11 leaves open in which order the elements are compared;
    this is the stable insertion sort, an element going before the first
    element of the sorted rest that it does not exceed. *)
Section Array_sort.
Context {E A : Type} (comparefn : A → A → E + Z).

Fixpoint sort_insert (x : A) (l : list A) : E + list A :=
  match l with
  | [] => inr [x]
  | y :: l' =>
      match comparefn x y with
      | inl e => inl e
      | inr c =>
          if decide (c ≤ 0) then inr (x :: y :: l')
          else match sort_insert x l' with
               | inl e => inl e
               | inr r => inr (y :: r)
               end
      end
  end.

Fixpoint Array_sort (l : list A) : E + list A :=
  match l with
  | [] => inr []
  | x :: l' =>
      match Array_sort l' with
      | inl e => inl e
      | inr s => sort_insert x s
      end
  end.
End Array_sort.

(** [s.split('.')] *)
Fixpoint split_dot (s : string) : list string :=
  match s with
  | EmptyString => [EmptyString]
  | String c rest =>
      if Ascii.eqb c "."%char then EmptyString :: split_dot rest
      else match split_dot rest with
           | x :: xs => String c x :: xs
           | [] => [String c EmptyString]
           end
  end.

(** [x == null] *)
Definition loose_eq_null (x : value) : bool :=
  match x with VUndefined | VNull => true | _ => false end.

(** [(low + high) >> 1] works on the 32-bit signed integer its left
    operand wraps to. *)
Definition to_int32 (z : Z) : Z :=
  let m := z mod 2 ^ 32 in
  if decide (m < 2 ^ 31) then m else m - 2 ^ 32.

(** What the library takes from the host: the relational operator [<]
    (ES5 11.8.5, which on two numbers is the numeric order), case
    conversion, locale-aware comparison of a string with a value, and
    string conversion. *)
Class Host := {
  host_lt : value → value → bool;
  host_lt_num : ∀ m n : Z, host_lt (VNum m) (VNum n) = (m <? n);
  host_toUpperCase : string → string;
  host_localeCompare : string → value → Z;
  host_ToString : value → string
}.

End JS.

Import JS.

(** ** The store and the monad of methods *)

(** Constructors whose prototype chain contains [Iterable]: [List], and
    the [SimpleIterable] of the test-suite, which keeps the array it is
    given. *)
Inductive constructor := List_ctor | SimpleIterable_ctor.

#[global] Instance constructor_eq_dec : EqDecision constructor.
Proof. solve_decision. Defined.

(** A [Map] holds its entries in insertion order; a plain object its
    properties. *)
Inductive object :=
  | OArray (elems : list value)
  | OInstance (c : constructor) (items : value)
  | OMap (entries : list (value * value))
  | OPlain (props : list (string * value)).

#[global] Instance object_eq_dec : EqDecision object.
Proof. solve_decision. Defined.

Abbreviation heap := (gmap loc object).

Inductive error :=
  | Error (message : string)
  | TypeError (message : string).

(** The third outcome marks a loop cut off by its step budget; only loops
    whose termination is not structural take a budget. *)
Inductive outcome (A : Type) :=
  | Ok (a : A)
  | Throw (e : error)
  | OutOfFuel.
Arguments Ok {A} a.
Arguments Throw {A} e.
Arguments OutOfFuel {A}.

Definition M (A : Type) : Type := heap → outcome A * heap.

#[global] Instance M_ret : MRet M := λ A a h, (Ok a, h).
#[global] Instance M_bind : MBind M := λ A B f m h,
  match m h with
  | (Ok a, h') => f a h'
  | (Throw e, h') => (Throw e, h')
  | (OutOfFuel, h') => (OutOfFuel, h')
  end.

Definition throw {A} (e : error) : M A := λ h, (Throw e, h).
Definition out_of_fuel {A} : M A := λ h, (OutOfFuel, h).

(** A new object, at an address the store does not use. *)
Definition alloc (o : object) : M value :=
  λ h, let l := fresh (dom h) in (Ok (VRef l), <[l:=o]> h).

(** The elements of the array a value refers to; reading [length] or an
    index of [null] or [undefined] is a [TypeError], and a value that is
    not an array has no elements. *)
Definition array_of (v : value) : M (list value) :=
  λ h, match v with
       | VRef l => match h !! l with
                   | Some (OArray xs) => (Ok xs, h)
                   | _ => (Ok [], h)
                   end
       | VUndefined | VNull => (Throw (TypeError "Cannot read property of null or undefined"), h)
       | _ => (Ok [], h)
       end.

(** In-place replacement of the contents of an array. *)
Definition set_array (v : value) (xs : list value) : M unit :=
  λ h, match v with
       | VRef l => match h !! l with
                   | Some (OArray _) => (Ok (), <[l:=OArray xs]> h)
                   | _ => (Throw (TypeError "not an array"), h)
                   end
       | _ => (Throw (TypeError "not an array"), h)
       end.

(** [this.items]; the prototypes hold [items = null]. *)
Definition this_items (this : value) : M value :=
  λ h, match this with
       | VRef l => match h !! l with
                   | Some (OInstance _ a) => (Ok a, h)
                   | Some _ => (Ok VUndefined, h)
                   | None => (Ok VUndefined, h)
                   end
       | VUndefined | VNull => (Throw (TypeError "Cannot read property 'items'"), h)
       | _ => (Ok VUndefined, h)
       end.

(** Functions passed to the methods: called with an item and, for some
    methods, a second argument; they may read and change the store. *)
Definition func := value → value → M value.

Definition lift {A} (r : error + A) : M A :=
  match r with inl e => throw e | inr a => mret a end.

(** [this] is a collection built by [c] whose backing array is at [a] and
    holds [l]. *)
Definition holds (h : heap) (this : loc) (c : constructor) (a : loc) (l : list value) : Prop :=
  h !! this = Some (OInstance c (VRef a)) ∧ h !! a = Some (OArray l).

(** *** Loops

    [for (i = i0; i < i0 + n; i++) body]: [for_acc] runs every iteration,
    [for_loop] may leave early, by [break] or by [return]. *)

Fixpoint for_acc {A} (body : nat → A → M A) (i n : nat) (acc : A) : M A :=
  match n with
  | O => mret acc
  | S n' => acc' ← body i acc; for_acc body (S i) n' acc'
  end.

Inductive step (A R : Type) :=
  | Next (acc : A)
  | Return (r : R).
Arguments Next {A R} acc.
Arguments Return {A R} r.

Fixpoint for_loop {A R} (body : nat → A → M (step A R)) (i n : nat) (acc : A)
  : M (step A R) :=
  match n with
  | O => mret (Next acc)
  | S n' =>
      s ← body i acc;
      match s with
      | Next acc' => for_loop body (S i) n' acc'
      | Return r => mret (Return r)
      end
  end.

(** *** Construction *)

(** Modelled from the spec: [cloneArray], which is not among the sources;
    the specification has [toArray] and the factories materialize an
    independent ordered snapshot, so it is a new array with the same
    elements. *)
Definition cloneArray (array : value) : M value :=
  xs ← array_of array;
  alloc (OArray xs).

(** Modelled from the spec: [createType], which is not among the sources;
    calling the type it returns makes a new instance and runs [_init] on
    the arguments.  For [List], [_init] is
    [this.items = cloneArray(arguments)]. *)
Definition List_new (arguments : list value) : M value :=
  args ← alloc (OArray arguments);
  items ← cloneArray args;
  alloc (OInstance List_ctor items).

(** [List.fromArray(array)] is [List.apply(null, array)]. *)
Definition List_fromArray (array : value) : M value :=
  xs ← array_of array;
  List_new xs.

(** [new SimpleIterable(items)] is [this.items = items]. *)
Definition SimpleIterable_new (items : value) : M value :=
  alloc (OInstance SimpleIterable_ctor items).

(** [this.constructor] *)
Definition constructor_of (this : value) : M constructor :=
  λ h, match this with
       | VRef l => match h !! l with
                   | Some (OInstance c _) => (Ok c, h)
                   | _ => (Throw (TypeError "fromArray is not a function"), h)
                   end
       | _ => (Throw (TypeError "fromArray is not a function"), h)
       end.

(** [item[name]] for the properties that hold data: those of a plain
    object, [items] of a collection, [length] and the indices of an array,
    [length] and the characters of a string.  Reading a property of
    [null] or [undefined] throws.  The methods and the other properties
    that a value inherits are functions, which are not values here: such
    a name reads as [undefined], and the statements about [pluck] and
    [findBy] say when a read returns or throws, not what it returns. *)
Definition get_prop (item : value) (name : string) : M value :=
  λ h, match item with
       | VUndefined | VNull => (Throw (TypeError "Cannot read property of null or undefined"), h)
       | VRef l =>
           match h !! l with
           | Some (OPlain props) =>
               (Ok (match list_find (λ p, p.1 = name) props with
                    | Some (_, (_, v)) => v
                    | None => VUndefined
                    end), h)
           | Some (OInstance _ a) =>
               (Ok (if String.eqb name "items" then a else VUndefined), h)
           | Some (OArray xs) =>
               (Ok (if String.eqb name "length" then VNum (Z.of_nat (length xs))
                    else match list_find (λ i, pretty i = name) (seq 0 (length xs)) with
                         | Some (i, _) => default VUndefined (xs !! i)
                         | None => VUndefined
                         end), h)
           | _ => (Ok VUndefined, h)
           end
       | VStr s =>
           (Ok (if String.eqb name "length" then VNum (Z.of_nat (String.length s))
                else match list_find (λ i, pretty i = name) (seq 0 (String.length s)) with
                     | Some (i, _) =>
                         match String.get i s with
                         | Some ch => VStr (String ch EmptyString)
                         | None => VUndefined
                         end
                     | None => VUndefined
                     end), h)
       | _ => (Ok VUndefined, h)
       end.

(** The loop of [getPluckFunction] over a chain of two names or more. *)
Fixpoint pluck_chain (propertyChain : list string) (currentContext : value) : M value :=
  match propertyChain with
  | [] => mret currentContext
  | name :: rest =>
      if loose_eq_null currentContext then mret VUndefined
      else
        next ← get_prop currentContext name;
        pluck_chain rest next
  end.

Definition getPluckFunction (property : string) : func :=
  let propertyChain := split_dot property in
  if decide (length propertyChain = 1%nat) then
    λ item _, get_prop item (default EmptyString (head propertyChain))
  else
    λ item _, pluck_chain propertyChain item.

(** ** Iterable *)

(** The options of [sorted]; a property that is not given is
    [undefined].  [by] is a function, a property path, or absent. *)
Inductive by_option :=
  | ByUndefined
  | ByFunction (f : func)
  | ByString (path : string).

Record sort_options := {
  o_by : by_option;
  o_localeCompare : value;
  o_ignoreCase : value;
  o_reverse : value
}.

(** [by] once [if (isString(by)) by = getPluckFunction(by)] has run:
    a function, or [null]. *)
Definition by_function (by_ : by_option) : option func :=
  match by_ with
  | ByUndefined => None
  | ByFunction f => Some f
  | ByString path => Some (getPluckFunction path)
  end.

(** The object [{}] *)
Definition no_options : sort_options :=
  {| o_by := ByUndefined; o_localeCompare := VUndefined;
     o_ignoreCase := VUndefined; o_reverse := VUndefined |}.

(** The elements [{index: i, value: item}] of [mapped] *)
Record entry := { index : nat; value_ : value }.

#[global] Instance entry_eq_dec : EqDecision entry.
Proof. solve_decision. Defined.

(** [Collection.NOT_MAPPED = {}], made when the library is loaded. *)
Definition NOT_MAPPED : loc := 1%positive.

Module Iterable.

Definition size (this : value) : M nat :=
  a ← this_items this;
  xs ← array_of a;
  mret (length xs).

Definition isEmpty (this : value) : M value :=
  n ← size this;
  mret (VBool (bool_decide (n = 0%nat))).

(** [this.items[index]] *)
Definition items_at (index : Z) (this : value) : M value :=
  a ← this_items this;
  xs ← array_of a;
  mret (Array_get xs index).

Definition itemAt (index : Z) (this : value) : M value :=
  items_at index this.

Definition first (this : value) : M value :=
  items_at 0 this.

Definition last (this : value) : M value :=
  a ← this_items this;
  xs ← array_of a;
  mret (Array_get xs (Z.of_nat (length xs) - 1)).

Definition _invoke (func : func) (forIndex : nat) (extraParam : value) (this : value)
  : M value :=
  x ← items_at (Z.of_nat forIndex) this;
  func x extraParam.

Definition _createNew (array : value) (this : value) : M value :=
  c ← constructor_of this;
  match c with
  | List_ctor => List_fromArray array
  | SimpleIterable_ctor => SimpleIterable_new array
  end.

(** An array built by a method is unknown to the functions the method
    calls until it is handed over; it is kept as a sequence and enters
    the store at that point. *)
Definition _createNew_from (result : list value) (this : value) : M value :=
  array ← alloc (OArray result);
  _createNew array this.

Definition each (callback : func) (this : value) : M value :=
  length ← size this;
  for_acc (λ i _, _invoke callback i (VNum (Z.of_nat i)) this;; mret ()) 0 length ();;
  mret VUndefined.

Definition map (callback : func) (this : value) : M value :=
  length ← size this;
  result ← for_acc (λ i result,
              mapped ← _invoke callback i VUndefined this;
              mret (if negb (loose_eq_plain_object mapped NOT_MAPPED)
                    then result ++ [mapped] else result))
            0 length [];
  _createNew_from result this.

Definition pluck (property : string) (this : value) : M value :=
  let doPluck := getPluckFunction property in
  length ← size this;
  result ← for_acc (λ i result,
              x ← items_at (Z.of_nat i) this;
              y ← doPluck x VUndefined;
              mret (result ++ [y]))
            0 length [];
  array ← alloc (OArray result);
  List_fromArray array.

Definition filter (predicate : func) (this : value) : M value :=
  length ← size this;
  result ← for_acc (λ i result,
              b ← _invoke predicate i VUndefined this;
              if truthy b then x ← items_at (Z.of_nat i) this; mret (result ++ [x])
              else mret result)
            0 length [];
  _createNew_from result this.

Definition count (predicate : func) (this : value) : M value :=
  length ← size this;
  count ← for_acc (λ i count,
             b ← _invoke predicate i VUndefined this;
             mret (if truthy b then count + 1 else count))
           0 length 0;
  mret (VNum count).

Definition find (predicate : func) (this : value) : M value :=
  length ← size this;
  s ← for_loop (λ i _,
         b ← _invoke predicate i VUndefined this;
         if truthy b then x ← items_at (Z.of_nat i) this; mret (Return x)
         else mret (Next ()))
       0 length ();
  match s with
  | Return x => mret x
  | Next _ => mret VUndefined
  end.

Definition findBy (property : string) (value this : JS.value) : M JS.value :=
  let doPluck := getPluckFunction property in
  length ← size this;
  s ← for_loop (λ i _,
         x ← items_at (Z.of_nat i) this;
         y ← doPluck x VUndefined;
         if strict_eq y value then x' ← items_at (Z.of_nat i) this; mret (Return x')
         else mret (Next ()))
       0 length ();
  match s with
  | Return x => mret x
  | Next _ => mret VUndefined
  end.

Definition some (predicate : func) (this : value) : M value :=
  length ← size this;
  s ← for_loop (λ i _,
         b ← _invoke predicate i VUndefined this;
         mret (if truthy b then Return (VBool true) else Next ()))
       0 length ();
  match s with
  | Return x => mret x
  | Next _ => mret (VBool false)
  end.

Definition every (predicate : func) (this : value) : M value :=
  length ← size this;
  s ← for_loop (λ i _,
         b ← _invoke predicate i VUndefined this;
         mret (if negb (truthy b) then Return (VBool false) else Next ()))
       0 length ();
  match s with
  | Return x => mret x
  | Next _ => mret (VBool true)
  end.

(** [groups] and [current] are sequences until the end; the groups
    themselves are made by [_createNew] as the loop goes. *)
Definition grouped (size_ : value) (this : value) : M value :=
  length ← size this;
  '(groups, _) ← for_acc (λ i '(groups, current),
              x ← items_at (Z.of_nat i) this;
              let current := current ++ [x] in
              if strict_eq (VNum (Z.of_nat (Datatypes.length current))) size_
                 || bool_decide (Z.of_nat i = Z.of_nat length - 1)
              then g ← _createNew_from current this; mret (groups ++ [g], [])
              else mret (groups, current))
            0 length ([], []);
  array ← alloc (OArray groups);
  List_fromArray array.

(** Modelled from the spec: [Map], which is not among the sources, with
    the default (identity) key function: an entry per key, in insertion
    order; [put] replaces the value of an existing key and appends a new
    one otherwise; [get] gives the value of the key, if any. *)
Definition Map_get {V} (entries : list (value * V)) (key : value) : option V :=
  snd <$> (snd <$> list_find (λ e, e.1 = key) entries).

Definition Map_put {V} (entries : list (value * V)) (key : value) (v : V)
  : list (value * V) :=
  match list_find (λ e, e.1 = key) entries with
  | Some (i, _) => <[i:=(key, v)]> entries
  | None => entries ++ [(key, v)]
  end.

(** The map and the lists in it are the method's own until it returns:
    [groups] pairs each key with the items of its List, and the Lists and
    the Map enter the store at the end. *)
Definition groupBy (discriminator : func) (this : value) : M value :=
  length ← size this;
  groups ← for_acc (λ i groups,
              item ← items_at (Z.of_nat i) this;
              itemGroup ← _invoke discriminator i VUndefined this;
              let group := Map_get groups itemGroup in
              let groups := if group is None then Map_put groups itemGroup [] else groups in
              match Map_get groups itemGroup with
              | Some items => mret (Map_put groups itemGroup (items ++ [item]))
              | None => throw (TypeError "Cannot read property 'add' of undefined")
              end)
            0 length [];
  entries ← mapM (λ e, l ← List_new e.2; mret (e.1, l)) groups;
  alloc (OMap entries).

Definition fold (initialValue : value) (operator : func) (this : value) : M value :=
  length ← size this;
  for_acc (λ i result, _invoke operator i result this) 0 length initialValue.

Definition partition (predicate : func) (this : value) : M value :=
  length ← size this;
  '(yes, no) ← for_acc (λ i '(yes, no),
              b ← _invoke predicate i VUndefined this;
              x ← items_at (Z.of_nat i) this;
              mret (if truthy b then (yes ++ [x], no) else (yes, no ++ [x])))
            0 length ([], []);
  y ← _createNew_from yes this;
  n ← _createNew_from no this;
  alloc (OArray [y; n]).

Definition drop (n : Z) (this : value) : M value :=
  a ← this_items this;
  xs ← array_of a;
  let n := Z.min n (Z.of_nat (length xs)) in
  _createNew_from (Array_slice xs n None) this.

Definition dropRight (n : Z) (this : value) : M value :=
  a ← this_items this;
  xs ← array_of a;
  let n := Z.min n (Z.of_nat (length xs)) in
  _createNew_from (Array_slice xs 0 (Some (Z.of_nat (length xs) - n))) this.

(** [while (result.length && this._invoke(predicate, index))]: [result]
    loses its first element at each turn. *)
Fixpoint dropWhile_loop (predicate : func) (this : value) (result : list value)
    (index : nat) : M (list value) :=
  match result with
  | [] => mret []
  | _ :: rest =>
      b ← _invoke predicate index VUndefined this;
      if truthy b then dropWhile_loop predicate this rest (S index)
      else mret result
  end.

Definition dropWhile (predicate : func) (this : value) : M value :=
  a ← this_items this;
  xs ← array_of a;
  result ← dropWhile_loop predicate this (Array_slice xs 0 None) 0;
  _createNew_from result this.

Definition take (n : Z) (this : value) : M value :=
  a ← this_items this;
  xs ← array_of a;
  let n := Z.min n (Z.of_nat (length xs)) in
  _createNew_from (Array_slice xs 0 (Some n)) this.

Definition takeRight (n : Z) (this : value) : M value :=
  a ← this_items this;
  xs ← array_of a;
  let n := Z.min n (Z.of_nat (length xs)) in
  _createNew_from (Array_slice xs (- n) None) this.

Definition takeWhile (predicate : func) (this : value) : M value :=
  length ← size this;
  s ← for_loop (λ i result,
         b ← _invoke predicate i VUndefined this;
         if truthy b then x ← items_at (Z.of_nat i) this; mret (Next (result ++ [x]))
         else mret (Return result))
       0 length [];
  match s with
  | Return result | Next result => _createNew_from result this
  end.

Definition reverse (this : value) : M value :=
  a ← this_items this;
  xs ← array_of a;
  _createNew_from (rev (Array_slice xs 0 None)) this.

Definition slice (start : Z) (end_ : option Z) (this : value) : M value :=
  a ← this_items this;
  xs ← array_of a;
  _createNew_from (Array_slice xs start end_) this.

Section Sorted.
Context {host : Host}.

(** A sort value that is [null], [undefined] or the empty string *)
Definition is_missing (item : value) : bool :=
  strict_eq item VNull || strict_eq item VUndefined || strict_eq item (VStr "").

(** [item.toUpperCase()]: only strings have the method. *)
Definition toUpperCase (item : value) : M value :=
  match item with
  | VStr s => mret (VStr (host_toUpperCase s))
  | _ => throw (TypeError "item.toUpperCase is not a function")
  end.

(** The two comparison functions of [sorted], chosen by [localeCompare];
    only strings have the method [localeCompare]. *)
Definition sortFunction (localeCompare : value) (a b : entry) : error + Z :=
  if truthy localeCompare then
    if negb (strict_eq (value_ a) (value_ b)) then
      match value_ a with
      | VStr s => inr (host_localeCompare s (value_ b))
      | _ => inl (TypeError "a.value.localeCompare is not a function")
      end
    else inr (if decide (index a < index b)%nat then -1 else 1)
  else
    if negb (strict_eq (value_ a) (value_ b)) then
      inr (if host_lt (value_ a) (value_ b) then -1 else 1)
    else inr (if decide (index a < index b)%nat then -1 else 1).

(** An option that is [undefined] takes its default. *)
Definition option_or (v default : value) : value :=
  if negb (strict_eq v VUndefined) then v else default.

Definition sorted (options : option sort_options) (this : value) : M value :=
  let o := default no_options options in
  let by_ := by_function (o_by o) in
  let localeCompare := option_or (o_localeCompare o) (VBool false) in
  let ignoreCase := option_or (o_ignoreCase o) (VBool false) in
  let reverse := option_or (o_reverse o) (VBool false) in
  length ← size this;
  '(mapped, missingData) ← for_acc (λ i '(mapped, missingData),
              item ← items_at (Z.of_nat i) this;
              item ← match by_ with
                     | Some by_ => if truthy item then by_ item VUndefined else mret item
                     | None => mret item
                     end;
              if is_missing item then mret (mapped, missingData ++ [item])
              else
                item ← (if truthy ignoreCase then toUpperCase item else mret item);
                mret (mapped ++ [{| index := i; value_ := item |}], missingData))
            0 length ([], []);
  mapped ← lift (Array_sort (sortFunction localeCompare) mapped);
  result ← mapM (λ e, items_at (Z.of_nat (index e)) this) mapped;
  let result := if decide (missingData ≠ []) then result ++ missingData else result in
  let result := if truthy reverse then rev result else result in
  _createNew_from result this.

Definition mkString (start sep end_ : string) (this : value) : M value :=
  a ← this_items this;
  xs ← array_of a;
  mret (VStr (start +:+ Array_join host_ToString sep xs +:+ end_)).

(** Modelled from the spec: [typeName], set by [createType], which is not
    among the sources: the name the type was created with.
    [SimpleIterable] was not created this way and has none. *)
Definition typeName (c : constructor) : value :=
  match c with
  | List_ctor => VStr "List"
  | SimpleIterable_ctor => VUndefined
  end.

Definition toString (this : value) : M value :=
  c ← constructor_of this;
  a ← this_items this;
  xs ← array_of a;
  mret (VStr (host_ToString (typeName c) +:+ "(" +:+ Array_join host_ToString ", " xs +:+ ")")).

End Sorted.

Definition toList (this : value) : M value :=
  a ← this_items this;
  List_fromArray a.

Definition toArray (this : value) : M value :=
  a ← this_items this;
  cloneArray a.

Definition clone (this : value) : M value :=
  a ← this_items this;
  xs ← array_of a;
  _createNew_from (Array_slice xs 0 None) this.

End Iterable.

(** ** List *)

Module List.

Definition fromArray (array : value) : M value := List_fromArray array.

Definition add (item : value) (this : value) : M value :=
  a ← this_items this;
  xs ← array_of a;
  set_array a (xs ++ [item]);;
  mret this.

Definition _assertRange (index : Z) (this : value) : M unit :=
  size ← Iterable.size this;
  if decide (index < 0 ∨ index > Z.of_nat size) then
    throw (Error ("Illegal insertion at index " +:+ pretty index +:+
                  " in List with size " +:+ pretty (Z.of_nat size - 1)))
  else mret ().

Definition addAt (item : value) (index : Z) (this : value) : M value :=
  _assertRange index this;;
  a ← this_items this;
  xs ← array_of a;
  set_array a (Array_splice xs index 0 [item]).2;;
  mret this.

Definition update (index : Z) (item : value) (this : value) : M value :=
  _assertRange index this;;
  a ← this_items this;
  xs ← array_of a;
  let previousItem := Array_get xs index in
  (if negb (strict_eq previousItem item)
   then set_array a (Array_set xs (Z.to_nat index) item)
   else mret ());;
  mret this.

Section Insert.
Context {host : Host}.

Definition _defaultSortFunction : func :=
  λ a b, mret (if host_lt a b then VNum (-1) else if host_lt b a then VNum 1 else VNum 0).

(** [while (low < high)], cut off after [fuel] turns. *)
Fixpoint insert_loop (fuel : nat) (sortFunction : func) (item this : value)
    (low high : Z) : M Z :=
  if decide (low < high) then
    match fuel with
    | O => out_of_fuel
    | S fuel' =>
        let mid := Z.shiftr (to_int32 (low + high)) 1 in
        x ← Iterable.items_at mid this;
        r ← sortFunction item x;
        if host_lt (VNum 0) r
        then insert_loop fuel' sortFunction item this (mid + 1) high
        else insert_loop fuel' sortFunction item this low mid
    end
  else mret low.

Definition insert (fuel : nat) (item : value) (sortFunction : option func) (this : value)
  : M value :=
  let sortFunction := default _defaultSortFunction sortFunction in
  size ← Iterable.size this;
  low ← insert_loop fuel sortFunction item this 0 (Z.of_nat size);
  addAt item low this;;
  mret this.

End Insert.

Definition removeAt (index : Z) (this : value) : M value :=
  a ← this_items this;
  xs ← array_of a;
  let '(removed, rest) := Array_splice xs index 1 [] in
  set_array a rest;;
  mret (Array_get removed 0).

Definition removeAll (this : value) : M value :=
  size ← Iterable.size this;
  (if decide (0 < size)%nat then
     a ← this_items this;
     xs ← array_of a;
     set_array a (Array_splice xs 0 (Z.of_nat size) []).2
   else mret ());;
  mret this.

(** [for (var i = 0, length = this.items.length; i < length; i++)] with
    [i--] in its body, cut off after [fuel] turns. *)
Fixpoint removeIf_loop (fuel : nat) (predicate : func) (this : value)
    (i length : Z) (removed : list value) : M (list value) :=
  if decide (i < length) then
    match fuel with
    | O => out_of_fuel
    | S fuel' =>
        x ← Iterable.items_at i this;
        b ← predicate x VUndefined;
        if truthy b then
          y ← Iterable.items_at i this;
          a ← this_items this;
          xs ← array_of a;
          set_array a (Array_splice xs i 1 []).2;;
          removeIf_loop fuel' predicate this (i - 1 + 1) length (removed ++ [y])
        else removeIf_loop fuel' predicate this (i + 1) length removed
    end
  else mret removed.

Definition removeIf (fuel : nat) (predicate : func) (this : value) : M value :=
  length ← Iterable.size this;
  removed ← removeIf_loop fuel predicate this 0 (Z.of_nat length) [];
  array ← alloc (OArray removed);
  fromArray array.

End List.

(** ** The traversal methods as data *)

Inductive traversal :=
  | T_size
  | T_isEmpty
  | T_itemAt (index : Z)
  | T_first
  | T_last
  | T_each (callback : func)
  | T_map (callback : func)
  | T_pluck (property : string)
  | T_filter (predicate : func)
  | T_count (predicate : func)
  | T_find (predicate : func)
  | T_findBy (property : string) (v : value)
  | T_some (predicate : func)
  | T_every (predicate : func)
  | T_grouped (size : value)
  | T_groupBy (discriminator : func)
  | T_fold (initialValue : value) (operator : func)
  | T_partition (predicate : func)
  | T_drop (n : Z)
  | T_dropRight (n : Z)
  | T_dropWhile (predicate : func)
  | T_take (n : Z)
  | T_takeRight (n : Z)
  | T_takeWhile (predicate : func)
  | T_reverse
  | T_slice (start : Z) (end_ : option Z)
  | T_sorted (options : option sort_options)
  | T_mkString (start sep end_ : string)
  | T_toList
  | T_toArray
  | T_clone
  | T_toString.

Definition perform {host : Host} (t : traversal) (this : value) : M value :=
  match t with
  | T_size => n ← Iterable.size this; mret (VNum (Z.of_nat n))
  | T_isEmpty => Iterable.isEmpty this
  | T_itemAt index => Iterable.itemAt index this
  | T_first => Iterable.first this
  | T_last => Iterable.last this
  | T_each callback => Iterable.each callback this
  | T_map callback => Iterable.map callback this
  | T_pluck property => Iterable.pluck property this
  | T_filter predicate => Iterable.filter predicate this
  | T_count predicate => Iterable.count predicate this
  | T_find predicate => Iterable.find predicate this
  | T_findBy property v => Iterable.findBy property v this
  | T_some predicate => Iterable.some predicate this
  | T_every predicate => Iterable.every predicate this
  | T_grouped size => Iterable.grouped size this
  | T_groupBy discriminator => Iterable.groupBy discriminator this
  | T_fold initialValue operator => Iterable.fold initialValue operator this
  | T_partition predicate => Iterable.partition predicate this
  | T_drop n => Iterable.drop n this
  | T_dropRight n => Iterable.dropRight n this
  | T_dropWhile predicate => Iterable.dropWhile predicate this
  | T_take n => Iterable.take n this
  | T_takeRight n => Iterable.takeRight n this
  | T_takeWhile predicate => Iterable.takeWhile predicate this
  | T_reverse => Iterable.reverse this
  | T_slice start end_ => Iterable.slice start end_ this
  | T_sorted options => Iterable.sorted options this
  | T_mkString start sep end_ => Iterable.mkString start sep end_ this
  | T_toList => Iterable.toList this
  | T_toArray => Iterable.toArray this
  | T_clone => Iterable.clone this
  | T_toString => Iterable.toString this
  end.

(** The functions a call receives from its caller. *)
Definition callbacks (t : traversal) : list func :=
  match t with
  | T_each f | T_map f | T_filter f | T_count f | T_find f | T_some f | T_every f
  | T_groupBy f | T_fold _ f | T_partition f | T_dropWhile f | T_takeWhile f => [f]
  | T_sorted (Some o) => match o_by o with ByFunction f => [f] | _ => [] end
  | _ => []
  end.

(** A function without effect on the store. *)
Definition pure1 (f : value → value) : func := λ x _, mret (f x).
Definition pure2 (f : value → value → value) : func := λ x y, mret (f x y).

(** ** A host for the examples

    Exact on integers and on strings of 8-bit code units compared with
    their own kind.  Operands of other types follow ES5 11.8.5 and 9.3
    with two simplifications: a string is a number only when it is an
    integer literal, and an object converts as a plain object does. *)

Module ExampleHost.

Definition digit (c : ascii) : option Z :=
  let n := Z.of_nat (nat_of_ascii c) in
  if decide (48 ≤ n ≤ 57) then Some (n - 48) else None.

Fixpoint digits (s : string) (acc : Z) : option Z :=
  match s with
  | EmptyString => Some acc
  | String c rest =>
      match digit c with
      | Some d => digits rest (10 * acc + d)
      | None => None
      end
  end.

Definition string_to_number (s : string) : option Z :=
  match s with
  | EmptyString => Some 0
  | String "-" (String _ _ as rest) => Z.opp <$> digits rest 0
  | String "+" (String _ _ as rest) => digits rest 0
  | _ => digits s 0
  end.

Definition to_primitive (v : value) : value :=
  match v with
  | VRef _ => VStr object_Object
  | _ => v
  end.

(** ToNumber; [None] is NaN. *)
Definition to_number (v : value) : option Z :=
  match v with
  | VUndefined | VNaN | VRef _ => None
  | VNull => Some 0
  | VBool b => Some (if b then 1 else 0)
  | VNum n => Some n
  | VStr s => string_to_number s
  end.

Definition lt (x y : value) : bool :=
  match to_primitive x, to_primitive y with
  | VStr s, VStr t => String.ltb s t
  | px, py =>
      match to_number px, to_number py with
      | Some m, Some n => m <? n
      | _, _ => false
      end
  end.

Definition upper (c : ascii) : ascii :=
  let n := nat_of_ascii c in
  if decide (97 ≤ n ≤ 122)%nat then ascii_of_nat (n - 32) else c.

Fixpoint toUpperCase (s : string) : string :=
  match s with
  | EmptyString => EmptyString
  | String c rest => String (upper c) (toUpperCase rest)
  end.

Definition ToString (v : value) : string :=
  match v with
  | VUndefined => "undefined"
  | VNull => "null"
  | VBool true => "true"
  | VBool false => "false"
  | VNum n => pretty n
  | VNaN => "NaN"
  | VStr s => s
  | VRef _ => object_Object
  end.

(** Without locale data, the order of the code units. *)
Definition localeCompare (s : string) (v : value) : Z :=
  match String.compare s (ToString v) with
  | Lt => -1
  | Eq => 0
  | Gt => 1
  end.

#[export] Instance host : Host := {|
  host_lt := lt;
  host_lt_num := λ m n, eq_refl;
  host_toUpperCase := toUpperCase;
  host_localeCompare := localeCompare;
  host_ToString := ToString
|}.

End ExampleHost.

(** ** Stores for the examples *)

(** The store once the library is loaded. *)
Definition library : heap := {[ NOT_MAPPED := OPlain [] ]}.

Definition items0 : loc := 2%positive.
Definition this0 : loc := 3%positive.

(** One collection beside the library: the instance [this0] with backing
    array [items0]. *)
Definition single (c : constructor) (l : list value) : heap :=
  <[this0 := OInstance c (VRef items0)]> (<[items0 := OArray l]> library).

(** The items of the collection a value refers to, if it is one. *)
Definition items_of (h : heap) (v : value) : option (list value) :=
  match v with
  | VRef r =>
      match h !! r with
      | Some (OInstance _ (VRef a)) =>
          match h !! a with
          | Some (OArray l) => Some l
          | _ => None
          end
      | _ => None
      end
  | _ => None
  end.

(** The outcome of a call and, when it returned a collection, its items. *)
Definition observe (m : M value) (h : heap) : outcome (option (list value)) :=
  match m h with
  | (Ok v, h') => Ok (items_of h' v)
  | (Throw e, _) => Throw e
  | (OutOfFuel, _) => OutOfFuel
  end.

(** ** Vocabulary of the statements *)

(** A call returns a new collection of the receiver's kind with items
    [xs], on a new backing array, and leaves every object that was in the
    store as it was. *)
Definition returns (m : M value) (h : heap) (c : constructor) (xs : list value) : Prop :=
  ∃ r a' h', m h = (Ok (VRef r), h') ∧ holds h' r c a' xs
             ∧ h ⊆ h' ∧ h !! r = None ∧ h !! a' = None.

(** A computation keeps a property of the store, however it ends. *)
Definition preserves {A} (P : heap → Prop) (m : M A) : Prop :=
  ∀ h, P h → P (m h).2.

(** [n] clamped to [0, s], as the specification words it. *)
Definition clamp (n : Z) (s : nat) : nat := Z.to_nat (Z.min (Z.max n 0) (Z.of_nat s)).

(** The numbers 1 to 6, the fixture of the test-suite. *)
Definition one_to_six : list value := VNum <$> [1; 2; 3; 4; 5; 6].

(** The accumulation of a loop over the items from index [k] on. *)
Fixpoint fold_items {A} (g : nat → value → A → A) (k : nat) (l : list value) (acc : A) : A :=
  match l with
  | [] => acc
  | x :: l' => fold_items g (S k) l' (g k x acc)
  end.

(** What [map] keeps: the values that [!=] tells apart from the
    sentinel. *)
Definition kept (mapped : value) : bool :=
  negb (loose_eq_plain_object mapped NOT_MAPPED).

(** *** Sorting *)

Section Order.
Context {E A : Type} `{EqDecision A} (comparefn : A → A → E + Z).

(** [a] may come before [b]: the comparison returns a number that is not
    positive. *)
Definition cmp_le (a b : A) : bool :=
  match comparefn a b with
  | inr z => bool_decide (z ≤ 0)
  | inl _ => false
  end.

Definition cmp_defined (a b : A) : bool :=
  match comparefn a b with inr _ => true | inl _ => false end.

(** A comparison function is consistent on the elements of [u] when, for
    distinct elements, it returns a number, orders any two of them one
    way or the other, and is transitive. *)
Definition consistent (u : list A) : bool :=
  forallb (λ a, forallb (λ b,
    bool_decide (a = b)
    || (cmp_defined a b && (cmp_le a b || cmp_le b a)
        && forallb (λ c,
             bool_decide (b = c) || bool_decide (a = c)
             || implb (cmp_le a b && cmp_le b c) (cmp_le a c)) u)) u) u.

(** No two distinct elements of [u] each come before the other. *)
Definition antisymmetric (u : list A) : bool :=
  forallb (λ a, forallb (λ b,
    bool_decide (a = b) || negb (cmp_le a b && cmp_le b a)) u) u.

End Order.



Section SortedVocabulary.
Context {host : Host}.

(** The sort value of an item, [g] being what [by] computes: [by] is
    consulted for a truthy item only. *)
Definition sort_value (g : option (value → value)) (item : value) : value :=
  match g with
  | Some g => if truthy item then g item else item
  | None => item
  end.

(** The function [by], called on a truthy item of [l] in the store [h],
    returns what [g] says and leaves the store as it is. *)
Definition computes (h : heap) (l : list value) (f : option func)
    (g : option (value → value)) : Prop :=
  match f, g with
  | None, None => True
  | Some f, Some g => ∀ x, x ∈ l → truthy x = true → f x VUndefined h = (Ok (g x), h)
  | _, _ => False
  end.

Definition is_string (v : value) : bool :=
  match v with VStr _ => true | _ => false end.

(** The value compared: the sort value, in upper case under
    [ignoreCase]. *)
Definition sort_key (ignoreCase : value) (v : value) : value :=
  if truthy ignoreCase then
    match v with VStr s => VStr (host_toUpperCase s) | _ => v end
  else v.

(** The array [mapped] for the sort values [svs] of the items from index
    [k] on, and the array [missingData]. *)
Fixpoint mapped_from (ignoreCase : value) (k : nat) (svs : list value) : list entry :=
  match svs with
  | [] => []
  | v :: rest =>
      if Iterable.is_missing v then mapped_from ignoreCase (S k) rest
      else {| index := k; value_ := sort_key ignoreCase v |}
             :: mapped_from ignoreCase (S k) rest
  end.

Definition missing_of (svs : list value) : list value :=
  filter (λ v, Iterable.is_missing v = true) svs.

(** Under [ignoreCase], every sort value that is not missing must be a
    string for [toUpperCase] not to throw. *)
Definition upper_case_ready (ignoreCase : value) (svs : list value) : bool :=
  negb (truthy ignoreCase)
  || forallb (λ v, Iterable.is_missing v || is_string v) svs.

(** The items at the indices of the sorted entries. *)
Definition items_at_entries (l : list value) (es : list entry) : list value :=
  (λ e, Array_get l (Z.of_nat (index e))) <$> es.



End SortedVocabulary.



(** *** Sorted insertion *)

(** A comparison function that returns the number [C a b] and has no
    effect. *)
Definition computes_order (sortFunction : func) (C : value → value → Z) : Prop :=
  ∀ x y h, sortFunction x y h = (Ok (VNum (C x y)), h).

(** The same for the values of [u] in the store [h] only: what a call on
    a list of these values asks of its comparison function.  A function
    that reads a property of its arguments, or gives no number for values
    that are not in the list, computes an order in this sense. *)
Definition computes_order_on (sortFunction : func) (C : value → value → Z) (h : heap)
    (u : list value) : Prop :=
  ∀ x y, x ∈ u → y ∈ u → sortFunction x y h = (Ok (VNum (C x y)), h).

(** The leftmost position of [l] whose element [e] has [C item e <= 0];
    the length of [l] when there is none. *)
Definition leftmost (C : value → value → Z) (item : value) (l : list value) : nat :=
  match list_find (λ e, C item e ≤ 0) l with
  | Some (i, _) => i
  | None => length l
  end.

(** The order of the default comparison function. *)
Definition ordinal {host : Host} (a b : value) : Z :=
  if host_lt a b then -1 else if host_lt b a then 1 else 0.

(** [l] is non-decreasing under [C]. *)
Definition non_decreasing (C : value → value → Z) (l : list value) : Prop :=
  StronglySorted (λ x y, C x y ≤ 0) l.

(** What the binary search knows between two turns: the items before
    [low] are exceeded by [item], those from [high] on are not. *)
Definition search_inv (C : value → value → Z) (item : value) (l : list value)
    (low high : Z) : Prop :=
  0 ≤ low ≤ high ∧ high ≤ Z.of_nat (length l)
  ∧ (∀ i e, l !! i = Some e → Z.of_nat i < low → C item e > 0)
  ∧ (∀ i e, l !! i = Some e → high ≤ Z.of_nat i → C item e ≤ 0).

(** The predicate [function (x) { return x !== 2; }] *)
Definition is_not_two : func := pure1 (λ x, VBool (negb (strict_eq x (VNum 2)))).


(** *** A comparison function that reads a property

    [function (a, b) { return a.rank < b.rank ? -1 : a.rank > b.rank ? 1 : 0; }];
    on [null] or [undefined] the read throws. *)
Definition by_rank {host : Host} : func :=
  λ a b,
    x ← get_prop a "rank";
    y ← get_prop b "rank";
    mret (VNum (if host_lt x y then -1 else if host_lt y x then 1 else 0)).

(** Three objects [{rank: 1}], [{rank: 2}] and [{rank: 3}], and a List of
    the first and the third. *)
Definition rank1 : loc := 11%positive.
Definition rank2 : loc := 12%positive.
Definition rank3 : loc := 13%positive.

Definition ranked_store : heap :=
  <[rank1 := OPlain [("rank"%string, VNum 1)]]>
    (<[rank2 := OPlain [("rank"%string, VNum 2)]]>
       (<[rank3 := OPlain [("rank"%string, VNum 3)]]>
          (single List_ctor [VRef rank1; VRef rank3]))).

(** The rank of the three objects, and the order of the ranks. *)
Definition rank_of (v : value) : Z :=
  match v with
  | VRef p => if decide (p = rank1) then 1
              else if decide (p = rank2) then 2
              else if decide (p = rank3) then 3 else 0
  | _ => 0
  end.

Definition by_rank_order (x y : value) : Z :=
  if rank_of x <? rank_of y then -1 else if rank_of y <? rank_of x then 1 else 0.
(** ** Further vocabulary *)

(** The list [l] without the item at position [i]. *)
Definition without (i : nat) (l : list value) : list value := take i l ++ drop (S i) l.

(** [insert] called for each of the items [xs] in turn, without a
    comparison function. *)
Fixpoint insert_each {host : Host} (fuel : nat) (xs : list value) (this : value) : M value :=
  match xs with
  | [] => mret this
  | x :: rest => List.insert fuel x None this;; insert_each fuel rest this
  end.

Definition is_number (v : value) : Prop := ∃ n, v = VNum n.

(** The outcome of a loop over the items from index [k] on that may
    leave early. *)
Fixpoint scan_items {A R} (g : nat → value → A → step A R) (k : nat) (l : list value)
    (acc : A) : step A R :=
  match l with
  | [] => Next acc
  | x :: l' =>
      match g k x acc with
      | Next acc' => scan_items g (S k) l' acc'
      | Return r => Return r
      end
  end.

(** The longest prefix of [l] whose items satisfy [P], and what follows
    it. *)
Fixpoint take_while (P : value → bool) (l : list value) : list value :=
  match l with
  | [] => []
  | x :: l' => if P x then x :: take_while P l' else []
  end.

Fixpoint drop_while (P : value → bool) (l : list value) : list value :=
  match l with
  | [] => []
  | x :: l' => if P x then drop_while P l' else l
  end.

(** A predicate called on [x] in the store [h] answers [b], without
    effect. *)
Definition answers (p : func) (h : heap) (b : bool) (x : value) : Prop :=
  ∃ v, p x VUndefined h = (Ok v, h) ∧ truthy v = b.

(** A call returns [v] and leaves the store as it is. *)
Definition reads (m : M value) (h : heap) (v : value) : Prop := m h = (Ok v, h).

(** A function that records its two arguments at the end of the array at
    [log] and returns [undefined]. *)
Definition logger (log : loc) : func :=
  λ x y,
    xs ← array_of (VRef log);
    set_array (VRef log) (xs ++ [x; y]);;
    mret VUndefined.

(** The arguments [each] passes, item and index, for the items from
    index [k] on. *)
Fixpoint each_arguments (k : nat) (l : list value) : list value :=
  match l with
  | [] => []
  | x :: l' => x :: VNum (Z.of_nat k) :: each_arguments (S k) l'
  end.


(** What the function made by [getPluckFunction] returns for an item in
    the store [h]; [undefined] stands for a call that throws. *)
Definition plucked (property : string) (h : heap) (item : value) : value :=
  match (getPluckFunction property item VUndefined h).1 with
  | Ok v => v
  | _ => VUndefined
  end.

(** Two numbers in non-decreasing order. *)
Definition num_le (x y : value) : Prop := ∃ m n, x = VNum m ∧ y = VNum n ∧ m ≤ n.

(** The groups that [grouped] closes over the items [l], [current]
    holding the items of the group that is open. *)
Fixpoint chunks_from (size_ : value) (current l : list value) : list (list value) :=
  match l with
  | [] => []
  | x :: rest =>
      let current := current ++ [x] in
      if strict_eq (VNum (Z.of_nat (length current))) size_ || bool_decide (rest = [])
      then current :: chunks_from size_ [] rest
      else chunks_from size_ current rest
  end.

(** ** List.sortBy *)

(** [Array.prototype.sort] on values, with a comparison function that may
    read and change the store.  As in [Array_sort] the algorithm is the
    stable insertion sort.  [SortCompare] (ES5 15.4.4.11) puts the
    [undefined] elements last without calling the comparison function. *)
Section Array_sortM.
Context (comparefn : value → value → M Z).

Definition SortCompare (x y : value) : M Z :=
  match x, y with
  | VUndefined, VUndefined => mret 0
  | VUndefined, _ => mret 1
  | _, VUndefined => mret (-1)
  | _, _ => comparefn x y
  end.

Fixpoint sort_insertM (x : value) (l : list value) : M (list value) :=
  match l with
  | [] => mret [x]
  | y :: l' =>
      c ← SortCompare x y;
      if decide (c ≤ 0) then mret (x :: y :: l')
      else r ← sort_insertM x l'; mret (y :: r)
  end.

Fixpoint Array_sortM (l : list value) : M (list value) :=
  match l with
  | [] => mret []
  | x :: l' => s ← Array_sortM l'; sort_insertM x s
  end.

End Array_sortM.

(** [List.prototype.sortBy]; the array is sorted in place, and is the
    sorted one when [sort] returns. *)
Definition List_sortBy {host : Host} (extractor : func) (this : value) : M value :=
  a ← this_items this;
  xs ← array_of a;
  sorted ← Array_sortM (λ a b,
              A ← extractor a VUndefined;
              B ← extractor b VUndefined;
              mret (if host_lt A B then -1 else if host_lt B A then 1 else 0)) xs;
  set_array a sorted;;
  mret this.

(** The comparison function
    [function (a, b) { return a > b ? -1 : a < b ? 1 : 0; }], and the
    order it computes: the ordinal order, reversed. *)
Definition descending {host : Host} : func :=
  λ a b, mret (VNum (if host_lt b a then -1 else if host_lt a b then 1 else 0)).

Definition descending_order {host : Host} (x y : value) : Z := ordinal y x.
(** * Properties

    ** Running computations *)

Section Run.
Context {A B : Type}.
Implicit Types (m : M A) (f : A → M B) (h : heap).

Lemma bind_run m f h :
  (m ≫= f) h = match m h with
               | (Ok a, h') => f a h'
               | (Throw e, h') => (Throw e, h')
               | (OutOfFuel, h') => (OutOfFuel, h')
               end.
Proof. reflexivity. Qed.

Lemma bind_ok m f h a h' : m h = (Ok a, h') → (m ≫= f) h = f a h'.
Proof. intros E. by rewrite bind_run, E. Qed.

Lemma bind_throw m f h e h' : m h = (Throw e, h') → (m ≫= f) h = (Throw e, h').
Proof. intros E. by rewrite bind_run, E. Qed.

Lemma bind_out_of_fuel m f h h' : m h = (OutOfFuel, h') → (m ≫= f) h = (OutOfFuel, h').
Proof. intros E. by rewrite bind_run, E. Qed.
End Run.

Lemma ret_run {A} (a : A) (h : heap) : (mret a : M A) h = (Ok a, h).
Proof. reflexivity. Qed.

Lemma bind_assoc_run {A B C} (m : M A) (f : A → M B) (g : B → M C) h :
  ((m ≫= f) ≫= g) h = (m ≫= (λ x, f x ≫= g)) h.
Proof. rewrite !bind_run. by destruct (m h) as [[]]. Qed.

(** One step of a computation whose first action is known. *)
Ltac step E := rewrite ?bind_assoc_run; rewrite (bind_ok _ _ _ _ _ E); cbv beta.

Lemma this_items_holds h this c a l :
  holds h this c a l → this_items (VRef this) h = (Ok (VRef a), h).
Proof. intros [E _]. unfold this_items. by rewrite E. Qed.

Lemma constructor_of_holds h this c a l :
  holds h this c a l → constructor_of (VRef this) h = (Ok c, h).
Proof. intros [E _]. unfold constructor_of. by rewrite E. Qed.

Lemma array_of_lookup h a l :
  h !! a = Some (OArray l) → array_of (VRef a) h = (Ok l, h).
Proof. intros E. unfold array_of. by rewrite E. Qed.

Lemma set_array_lookup h a l xs :
  h !! a = Some (OArray l) → set_array (VRef a) xs h = (Ok (), <[a:=OArray xs]> h).
Proof. intros E. unfold set_array. by rewrite E. Qed.

Lemma size_holds h this c a l :
  holds h this c a l → Iterable.size (VRef this) h = (Ok (length l), h).
Proof.
  intros H. unfold Iterable.size.
  rewrite (bind_ok _ _ _ _ _ (this_items_holds _ _ _ _ _ H)).
  by rewrite (bind_ok _ _ _ _ _ (array_of_lookup _ _ _ (proj2 H))).
Qed.

Lemma items_at_holds h this c a l i :
  holds h this c a l → Iterable.items_at i (VRef this) h = (Ok (Array_get l i), h).
Proof.
  intros H. unfold Iterable.items_at.
  rewrite (bind_ok _ _ _ _ _ (this_items_holds _ _ _ _ _ H)).
  by rewrite (bind_ok _ _ _ _ _ (array_of_lookup _ _ _ (proj2 H))).
Qed.

Lemma holds_distinct h this c a l : holds h this c a l → this ≠ a.
Proof. intros [E1 E2] ->. congruence. Qed.

Lemma holds_set_items h this c a l xs :
  holds h this c a l → holds (<[a:=OArray xs]> h) this c a xs.
Proof.
  intros H. pose proof (holds_distinct _ _ _ _ _ H) as Hne. destruct H as [E1 E2].
  split; [by rewrite lookup_insert_ne | by rewrite lookup_insert_eq].
Qed.

Lemma holds_mono h h' this c a l : holds h this c a l → h ⊆ h' → holds h' this c a l.
Proof. intros [E1 E2] Hsub. split; by eapply lookup_weaken. Qed.

Lemma single_holds c l : holds (single c l) this0 c items0 l.
Proof. split; reflexivity. Qed.

Lemma Array_get_lookup (l : list value) (i : nat) x :
  l !! i = Some x → Array_get l (Z.of_nat i) = x.
Proof.
  intros E. unfold Array_get. case_decide; [| lia]. by rewrite Nat2Z.id, E.
Qed.

Lemma Array_get_ge (l : list value) (i : Z) :
  Z.of_nat (length l) ≤ i → Array_get l i = VUndefined.
Proof.
  intros Hi. unfold Array_get. case_decide; [| done].
  rewrite lookup_ge_None_2; [done | lia].
Qed.

(** ** List.addAt and List.update *)

Lemma assertRange_in h this c a l index :
  holds h this c a l → 0 ≤ index ≤ Z.of_nat (length l) →
  List._assertRange index (VRef this) h = (Ok (), h).
Proof.
  intros H Hi. unfold List._assertRange.
  rewrite (bind_ok _ _ _ _ _ (size_holds _ _ _ _ _ H)).
  case_decide; [lia | done].
Qed.

Lemma assertRange_out h this c a l index :
  holds h this c a l → index < 0 ∨ index > Z.of_nat (length l) →
  List._assertRange index (VRef this) h =
    (Throw (Error ("Illegal insertion at index " +:+ pretty index +:+
                   " in List with size " +:+ pretty (Z.of_nat (length l) - 1))), h).
Proof.
  intros H Hi. unfold List._assertRange.
  rewrite (bind_ok _ _ _ _ _ (size_holds _ _ _ _ _ H)).
  case_decide; [done | tauto].
Qed.

Lemma splice_insert (xs : list value) (i : nat) (item : value) :
  (i ≤ length xs)%nat →
  (Array_splice xs (Z.of_nat i) 0 [item]).2 = take i xs ++ item :: drop i xs.
Proof.
  intros Hi. unfold Array_splice, relative_index. simpl.
  case_decide; [lia |].
  replace (Z.to_nat (Z.min (Z.of_nat i) (Z.of_nat (length xs)))) with i by lia.
  replace (Z.to_nat _) with 0%nat by lia.
  by rewrite Nat.add_0_r.
Qed.

Lemma addAt_in h this c a l item index :
  holds h this c a l → 0 ≤ index ≤ Z.of_nat (length l) →
  List.addAt item index (VRef this) h =
    (Ok (VRef this),
     <[a:=OArray (take (Z.to_nat index) l ++ item :: drop (Z.to_nat index) l)]> h).
Proof.
  intros H Hi. unfold List.addAt.
  rewrite (bind_ok _ _ _ _ _ (assertRange_in _ _ _ _ _ _ H Hi)).
  rewrite (bind_ok _ _ _ _ _ (this_items_holds _ _ _ _ _ H)).
  rewrite (bind_ok _ _ _ _ _ (array_of_lookup _ _ _ (proj2 H))).
  rewrite (bind_ok _ _ _ _ _ (set_array_lookup _ _ _ _ (proj2 H))).
  rewrite ret_run. do 3 f_equal.
  rewrite <- (Z2Nat.id index) at 1 by lia. apply splice_insert. lia.
Qed.

(** C8. [addAt(item, index)] with [0 <= index <= size()] inserts [item] at
    position [index], the later items moving one place right and the size
    growing by one ([index = size()] appends); with [index < 0] or
    [index > size()] it throws and the store, hence the list, is exactly as
    it was before the call. *)
Theorem addAt_range h this c a l item index :
  holds h this c a l →
  (0 ≤ index ≤ Z.of_nat (length l) →
     let l' := take (Z.to_nat index) l ++ item :: drop (Z.to_nat index) l in
     List.addAt item index (VRef this) h = (Ok (VRef this), <[a:=OArray l']> h)
     ∧ holds (<[a:=OArray l']> h) this c a l'
     ∧ l' !! Z.to_nat index = Some item
     ∧ length l' = S (length l)
     ∧ (index = Z.of_nat (length l) → l' = l ++ [item]))
  ∧ (index < 0 ∨ index > Z.of_nat (length l) →
     ∃ e, List.addAt item index (VRef this) h = (Throw e, h)).
Proof.
  intros H. split.
  - intros Hi l'.
    assert (Hn : (Z.to_nat index ≤ length l)%nat) by lia.
    split; [| split; [| split; [| split]]].
    + by eapply addAt_in.
    + by eapply holds_set_items.
    + subst l'. rewrite lookup_app_r; rewrite length_take; [| lia].
      by replace (_ - _)%nat with 0%nat by lia.
    + subst l'. rewrite length_app. simpl. rewrite length_take, length_drop. lia.
    + intros ->. subst l'. rewrite Nat2Z.id, take_ge, drop_all by lia. done.
  - intros Hi. eexists. unfold List.addAt.
    by rewrite (bind_throw _ _ _ _ _ (assertRange_out _ _ _ _ _ _ H Hi)).
Qed.

Lemma addAt_range_witness :
  let h := single List_ctor [VNum 1; VNum 2; VNum 3] in
  List.addAt (VNum 9) 1 (VRef this0) h
    = (Ok (VRef this0), <[items0:=OArray [VNum 1; VNum 9; VNum 2; VNum 3]]> h)
  ∧ ∃ e, List.addAt (VNum 9) 4 (VRef this0) h = (Throw e, h).
Proof.
  intros h.
  destruct (addAt_range h this0 List_ctor items0 [VNum 1; VNum 2; VNum 3] (VNum 9) 1
              (single_holds _ _)) as [Hin _].
  destruct (addAt_range h this0 List_ctor items0 [VNum 1; VNum 2; VNum 3] (VNum 9) 4
              (single_holds _ _)) as [_ Hout].
  split.
  - apply Hin. simpl. lia.
  - apply Hout. simpl. lia.
Defined.

(** [update] at [index = size()]: the range check lets the index through
    and the assignment extends the array, unless the item is [undefined],
    which equals what is read there. *)
Lemma update_at_size h this c a l item :
  holds h this c a l →
  List.update (Z.of_nat (length l)) item (VRef this) h =
    (Ok (VRef this),
     if strict_eq VUndefined item then h else <[a:=OArray (l ++ [item])]> h).
Proof.
  intros H. unfold List.update.
  assert (Hr : 0 ≤ Z.of_nat (length l) ≤ Z.of_nat (length l)) by lia.
  rewrite (bind_ok _ _ _ _ _ (assertRange_in _ _ _ _ _ _ H Hr)).
  rewrite (bind_ok _ _ _ _ _ (this_items_holds _ _ _ _ _ H)).
  rewrite (bind_ok _ _ _ _ _ (array_of_lookup _ _ _ (proj2 H))).
  rewrite Array_get_ge by lia.
  destruct (strict_eq VUndefined item); simpl.
  - done.
  - rewrite (bind_ok _ _ _ _ _ (set_array_lookup _ _ _ _ (proj2 H))).
    rewrite ret_run. do 3 f_equal.
    unfold Array_set. case_decide; [lia |].
    by rewrite Nat2Z.id, Nat.sub_diag.
Qed.

(** Inside the list, [update] replaces the item at the index, unless the
    new item is the one already there. *)
Lemma update_in_range h this c a l index item :
  holds h this c a l → 0 ≤ index < Z.of_nat (length l) →
  List.update index item (VRef this) h =
    (Ok (VRef this),
     if strict_eq (Array_get l index) item then h
     else <[a:=OArray (<[Z.to_nat index:=item]> l)]> h).
Proof.
  intros H Hi. unfold List.update.
  assert (Hr : 0 ≤ index ≤ Z.of_nat (length l)) by lia.
  step (assertRange_in _ _ _ _ _ _ H Hr).
  step (this_items_holds _ _ _ _ _ H).
  step (array_of_lookup _ _ _ (proj2 H)).
  destruct (strict_eq (Array_get l index) item); simpl; [done |].
  step (set_array_lookup _ _ _ (Array_set l (Z.to_nat index) item) (proj2 H)).
  rewrite ret_run. do 3 f_equal.
  unfold Array_set. case_decide; [done | lia].
Qed.

(** C1. On the list [1, 2], [update(2, 9)], whose index is [size()],
    throws nothing: it returns the list, which now holds [1, 2, 9]. *)
Theorem update_at_size_appends :
  let h := single List_ctor [VNum 1; VNum 2] in
  List.update 2 (VNum 9) (VRef this0) h
    = (Ok (VRef this0), <[items0:=OArray [VNum 1; VNum 2; VNum 9]]> h).
Proof.
  intros h. exact (update_at_size h this0 List_ctor items0 [VNum 1; VNum 2] (VNum 9)
                     (single_holds _ _)).
Qed.

(** ** Allocation and construction *)

Lemma alloc_spec o h : ∃ r, alloc o h = (Ok (VRef r), <[r:=o]> h) ∧ h !! r = None.
Proof.
  exists (fresh (dom h)). split; [done |].
  apply not_elem_of_dom, is_fresh.
Qed.

Lemma List_new_spec xs h :
  ∃ r a' h', List_new xs h = (Ok (VRef r), h') ∧ h ⊆ h'
             ∧ h' !! r = Some (OInstance List_ctor (VRef a')) ∧ h' !! a' = Some (OArray xs)
             ∧ h !! r = None ∧ h !! a' = None.
Proof.
  unfold List_new.
  destruct (alloc_spec (OArray xs) h) as (r1 & E1 & F1).
  step E1. unfold cloneArray.
  step (array_of_lookup _ r1 xs (lookup_insert_eq h r1 (OArray xs))).
  destruct (alloc_spec (OArray xs) (<[r1:=OArray xs]> h)) as (r2 & E2 & F2).
  step E2.
  destruct (alloc_spec (OInstance List_ctor (VRef r2)) (<[r2:=OArray xs]> (<[r1:=OArray xs]> h)))
    as (r3 & E3 & F3).
  rewrite E3.
  exists r3, r2,
    (<[r3:=OInstance List_ctor (VRef r2)]> (<[r2:=OArray xs]> (<[r1:=OArray xs]> h))).
  assert (r2 ≠ r1) by (intros ->; by rewrite lookup_insert_eq in F2).
  assert (r3 ≠ r2) by (intros ->; by rewrite lookup_insert_eq in F3).
  assert (r3 ≠ r1) by (intros ->; by rewrite lookup_insert_ne, lookup_insert_eq in F3).
  rewrite lookup_insert_ne in F2 by done.
  rewrite !lookup_insert_ne in F3 by done.
  split_and!; try done.
  - etrans; [by apply (insert_subseteq h r1) |].
    etrans; [apply (insert_subseteq _ r2); by rewrite lookup_insert_ne |].
    apply insert_subseteq. by rewrite !lookup_insert_ne.
  - by rewrite lookup_insert_eq.
  - rewrite lookup_insert_ne by done. by rewrite lookup_insert_eq.
Qed.

Lemma List_fromArray_spec h r xs :
  h !! r = Some (OArray xs) →
  ∃ r' a' h', List_fromArray (VRef r) h = (Ok (VRef r'), h') ∧ h ⊆ h'
             ∧ holds h' r' List_ctor a' xs ∧ h !! r' = None ∧ h !! a' = None.
Proof.
  intros E. unfold List_fromArray.
  step (array_of_lookup _ _ _ E).
  destruct (List_new_spec xs h) as (r' & a' & h' & E' & ? & ? & ? & ? & ?).
  exists r', a', h'. by split_and!.
Qed.

Lemma createNew_from_returns h this c a l xs :
  holds h this c a l → returns (Iterable._createNew_from xs (VRef this)) h c xs.
Proof.
  intros H. unfold returns, Iterable._createNew_from, Iterable._createNew.
  destruct (alloc_spec (OArray xs) h) as (r1 & E1 & F1).
  step E1.
  assert (Hsub : h ⊆ <[r1:=OArray xs]> h) by by apply insert_subseteq.
  step (constructor_of_holds _ _ _ _ _ (holds_mono _ _ _ _ _ _ H Hsub)).
  destruct c.
  - destruct (List_fromArray_spec (<[r1:=OArray xs]> h) r1 xs (lookup_insert_eq h r1 (OArray xs)))
      as (r' & a' & h' & E' & Hsub' & Hh & F2 & F3).
    exists r', a', h'. split_and!; try done.
    + by etrans.
    + by eapply lookup_weaken_None.
    + by eapply lookup_weaken_None.
  - destruct (alloc_spec (OInstance SimpleIterable_ctor (VRef r1)) (<[r1:=OArray xs]> h))
      as (r2 & E2 & F2).
    assert (r2 ≠ r1) by (intros ->; by rewrite lookup_insert_eq in F2).
    exists r2, r1, (<[r2:=OInstance SimpleIterable_ctor (VRef r1)]> (<[r1:=OArray xs]> h)).
    rewrite lookup_insert_ne in F2 by done.
    split_and!; try done.
    + split; [by rewrite lookup_insert_eq |].
      rewrite lookup_insert_ne by done. by rewrite lookup_insert_eq.
    + etrans; [done |]. apply insert_subseteq. by rewrite lookup_insert_ne.
Qed.

(** What a call on a receiver with items [l] returns when it reads the
    items once and builds its result from them. *)
Lemma read_then_create h this c a l (f : list value → list value) (m : M value) :
  holds h this c a l →
  (∀ h, holds h this c a l →
        m h = Iterable._createNew_from (f l) (VRef this) h) →
  returns m h c (f l).
Proof.
  intros H E. unfold returns. rewrite (E h H). by eapply createNew_from_returns.
Qed.

(** ** drop, dropRight, take, takeRight *)

Lemma slice_from (l : list value) (k : Z) :
  Array_slice l k None = drop (relative_index k (length l)) l.
Proof.
  unfold Array_slice. apply take_ge. rewrite length_drop. lia.
Qed.

Lemma slice_to (l : list value) (e : Z) :
  Array_slice l 0 (Some e) = take (relative_index e (length l)) l.
Proof.
  unfold Array_slice. replace (relative_index 0 (length l)) with 0%nat.
  - by rewrite Nat.sub_0_r.
  - unfold relative_index. case_decide; lia.
Qed.

Lemma slice_all (l : list value) : Array_slice l 0 None = l.
Proof.
  rewrite slice_from. unfold relative_index. case_decide; [lia |].
  by replace (Z.to_nat _) with 0%nat by lia.
Qed.

Section Slices.
Context (h : heap) (this : loc) (c : constructor) (a : loc) (l : list value).
Context (H : holds h this c a l).

Let len := Z.of_nat (length l).

Lemma drop_returns n :
  returns (Iterable.drop n (VRef this)) h c (Array_slice l (Z.min n len) None).
Proof.
  apply (read_then_create h this c a l (λ l, Array_slice l (Z.min n (Z.of_nat (length l))) None));
    [done |].
  intros h' H'. unfold Iterable.drop.
  step (this_items_holds _ _ _ _ _ H'). by step (array_of_lookup _ _ _ (proj2 H')).
Qed.

Lemma dropRight_returns n :
  returns (Iterable.dropRight n (VRef this)) h c
    (Array_slice l 0 (Some (len - Z.min n len))).
Proof.
  apply (read_then_create h this c a l
           (λ l, Array_slice l 0
                   (Some (Z.of_nat (length l) - Z.min n (Z.of_nat (length l))))));
    [done |].
  intros h' H'. unfold Iterable.dropRight.
  step (this_items_holds _ _ _ _ _ H'). by step (array_of_lookup _ _ _ (proj2 H')).
Qed.

Lemma take_returns n :
  returns (Iterable.take n (VRef this)) h c (Array_slice l 0 (Some (Z.min n len))).
Proof.
  apply (read_then_create h this c a l
           (λ l, Array_slice l 0 (Some (Z.min n (Z.of_nat (length l))))));
    [done |].
  intros h' H'. unfold Iterable.take.
  step (this_items_holds _ _ _ _ _ H'). by step (array_of_lookup _ _ _ (proj2 H')).
Qed.

Lemma takeRight_returns n :
  returns (Iterable.takeRight n (VRef this)) h c (Array_slice l (- Z.min n len) None).
Proof.
  apply (read_then_create h this c a l
           (λ l, Array_slice l (- Z.min n (Z.of_nat (length l))) None));
    [done |].
  intros h' H'. unfold Iterable.takeRight.
  step (this_items_holds _ _ _ _ _ H'). by step (array_of_lookup _ _ _ (proj2 H')).
Qed.

(** C6, as the code has it.  None of the four methods throws, whatever
    the integer [n]: each returns a collection.  [dropRight(n)] behaves as
    if [n] were clamped to [0, size] for every [n]; [drop(n)] and
    [take(n)] do for [n >= 0], and [takeRight(n)] for [n >= 1].  A
    negative [n] reaches [slice] as it is: [drop(n)] keeps the last
    [min(-n, size)] items, [take(n)] leaves them out, [takeRight(n)]
    leaves out the first [min(-n, size)]. *)
Theorem drop_take_clamped n :
  let s := length l in
  (0 ≤ n → returns (Iterable.drop n (VRef this)) h c (drop (clamp n s) l))
  ∧ (0 ≤ n → returns (Iterable.take n (VRef this)) h c (take (clamp n s) l))
  ∧ returns (Iterable.dropRight n (VRef this)) h c (take (s - clamp n s) l)
  ∧ (1 ≤ n → returns (Iterable.takeRight n (VRef this)) h c (drop (s - clamp n s) l))
  ∧ (∃ xs, returns (Iterable.takeRight n (VRef this)) h c xs)
  ∧ (n < 0 → returns (Iterable.drop n (VRef this)) h c (drop (s - clamp (- n) s) l))
  ∧ (n < 0 → returns (Iterable.take n (VRef this)) h c (take (s - clamp (- n) s) l))
  ∧ (n < 0 → returns (Iterable.takeRight n (VRef this)) h c (drop (clamp (- n) s) l)).
Proof.
  intros s. unfold clamp. split_and!.
  - intros Hn. pose proof (drop_returns n) as R. rewrite slice_from in R.
    replace (relative_index _ _) with (Z.to_nat (Z.min (Z.max n 0) (Z.of_nat s))) in R;
      [done |].
    unfold relative_index, len, s. case_decide; lia.
  - intros Hn. pose proof (take_returns n) as R. rewrite slice_to in R.
    replace (relative_index _ _) with (Z.to_nat (Z.min (Z.max n 0) (Z.of_nat s))) in R;
      [done |].
    unfold relative_index, len, s. case_decide; lia.
  - pose proof (dropRight_returns n) as R. rewrite slice_to in R.
    replace (relative_index _ _)
      with (s - Z.to_nat (Z.min (Z.max n 0) (Z.of_nat s)))%nat in R; [done |].
    unfold relative_index, len, s. case_decide; lia.
  - intros Hn. pose proof (takeRight_returns n) as R. rewrite slice_from in R.
    replace (relative_index _ _)
      with (s - Z.to_nat (Z.min (Z.max n 0) (Z.of_nat s)))%nat in R; [done |].
    unfold relative_index, len, s. case_decide; lia.
  - eexists. apply takeRight_returns.
  - intros Hn. pose proof (drop_returns n) as R. rewrite slice_from in R.
    replace (relative_index _ _)
      with (s - Z.to_nat (Z.min (Z.max (- n) 0) (Z.of_nat s)))%nat in R; [done |].
    unfold relative_index, len, s. case_decide; lia.
  - intros Hn. pose proof (take_returns n) as R. rewrite slice_to in R.
    replace (relative_index _ _)
      with (s - Z.to_nat (Z.min (Z.max (- n) 0) (Z.of_nat s)))%nat in R; [done |].
    unfold relative_index, len, s. case_decide; lia.
  - intros Hn. pose proof (takeRight_returns n) as R. rewrite slice_from in R.
    replace (relative_index _ _)
      with (Z.to_nat (Z.min (Z.max (- n) 0) (Z.of_nat s))) in R; [done |].
    unfold relative_index, len, s. case_decide; lia.
Qed.

End Slices.

Lemma drop_take_clamped_witness :
  let h := single SimpleIterable_ctor one_to_six in
  returns (Iterable.drop 2 (VRef this0)) h SimpleIterable_ctor (VNum <$> [3; 4; 5; 6])
  ∧ returns (Iterable.take 2 (VRef this0)) h SimpleIterable_ctor (VNum <$> [1; 2])
  ∧ returns (Iterable.dropRight 2 (VRef this0)) h SimpleIterable_ctor (VNum <$> [1; 2; 3; 4])
  ∧ returns (Iterable.takeRight 2 (VRef this0)) h SimpleIterable_ctor (VNum <$> [5; 6]).
Proof.
  intros h.
  destruct (drop_take_clamped h this0 SimpleIterable_ctor items0 one_to_six
              (single_holds _ _) 2) as (Hd & Ht & Hdr & Htr & _).
  split_and!.
  - apply Hd. lia.
  - apply Ht. lia.
  - apply Hdr.
  - apply Htr. lia.
Defined.

(** C6 as it is worded fails twice on [1, 2, 3]: [drop(-1)] returns [3]
    where clamping [-1] to [0] would return the three items, and
    [takeRight(0)] returns the three items where it would return none. *)
Lemma drop_take_clamp_counterexample :
  let l := VNum <$> [1; 2; 3] in
  let h := single List_ctor l in
  observe (Iterable.drop (-1) (VRef this0)) h = Ok (Some [VNum 3])
  ∧ observe (Iterable.drop (-1) (VRef this0)) h ≠ Ok (Some (drop (clamp (-1) 3) l))
  ∧ observe (Iterable.takeRight 0 (VRef this0)) h = Ok (Some l)
  ∧ observe (Iterable.takeRight 0 (VRef this0)) h ≠ Ok (Some (drop (3 - clamp 0 3) l)).
Proof. vm_compute. split_and!; congruence. Qed.

(** ** Loops over the items, with functions that leave the store alone *)

Lemma for_acc_items {A} (body : nat → A → M A) (g : nat → value → A → A) h l :
  ∀ k acc,
    (∀ i x acc, l !! i = Some x → body (k + i)%nat acc h = (Ok (g (k + i)%nat x acc), h)) →
    for_acc body k (length l) acc h = (Ok (fold_items g k l acc), h).
Proof.
  induction l as [| x l IH]; intros k acc Hb; [done |].
  simpl. rewrite <- (Nat.add_0_r k) at 1.
  step (Hb 0%nat x acc eq_refl). rewrite Nat.add_0_r.
  apply IH. intros i y acc' E.
  replace (S k + i)%nat with (k + S i)%nat by lia. by apply Hb.
Qed.

Lemma invoke_pure1 h this c a l f i x e :
  holds h this c a l → l !! i = Some x →
  Iterable._invoke (pure1 f) i e (VRef this) h = (Ok (f x), h).
Proof.
  intros H E. unfold Iterable._invoke.
  step (items_at_holds _ _ _ _ _ (Z.of_nat i) H).
  by rewrite (Array_get_lookup _ _ _ E).
Qed.

Lemma items_at_lookup h this c a l i x :
  holds h this c a l → l !! i = Some x →
  Iterable.items_at (Z.of_nat i) (VRef this) h = (Ok x, h).
Proof.
  intros H E. rewrite (items_at_holds _ _ _ _ _ _ H).
  by rewrite (Array_get_lookup _ _ _ E).
Qed.

(** ** map and the omit sentinel *)

Lemma fold_items_map (f : value → value) l :
  ∀ k acc,
    fold_items (λ _ x result, if kept (f x) then result ++ [f x] else result) k l acc
    = acc ++ filter (λ v, kept v = true) (f <$> l).
Proof.
  induction l as [| x l IH]; intros k acc; simpl.
  - by rewrite app_nil_r.
  - rewrite IH. rewrite filter_cons. destruct (kept (f x)) eqn:E.
    + rewrite decide_True by done. by rewrite <- app_assoc.
    + by rewrite decide_False by done.
Qed.

(** [map] with a function [f] that has no effect: the values of [f], in
    order, without those that [!=] does not tell apart from the
    sentinel. *)
Lemma map_returns h this c a l f :
  holds h this c a l →
  returns (Iterable.map (pure1 f) (VRef this)) h c
    (filter (λ v, kept v = true) (f <$> l)).
Proof.
  intros H. unfold returns, Iterable.map.
  step (size_holds _ _ _ _ _ H).
  erewrite bind_ok; last first.
  { apply (for_acc_items _ (λ _ x result, if kept (f x) then result ++ [f x] else result)).
    intros i x acc E. simpl. by step (invoke_pure1 _ _ _ _ _ f i x VUndefined H E). }
  rewrite fold_items_map. simpl. by eapply createNew_from_returns.
Qed.

(** The values [map] leaves out: the sentinel, and the string that the
    sentinel converts to. *)
Lemma kept_false v :
  kept v = false ↔ v = VRef NOT_MAPPED ∨ v = VStr "[object Object]".
Proof.
  unfold kept. destruct v; simpl; split; intros Hv;
    try discriminate; try (destruct Hv; discriminate).
  - apply negb_false_iff, String.eqb_eq in Hv. right. by f_equal.
  - destruct Hv as [|Hv]; [done |]. injection Hv as ->. done.
  - apply negb_false_iff, bool_decide_eq_true in Hv. left. by f_equal.
  - destruct Hv as [Hv|]; [| done]. injection Hv as ->.
    apply negb_false_iff. by apply bool_decide_eq_true.
Qed.

(** C4. On the list [1, 2], [map] with a function that returns the string
    "[object Object]" for 1 and the string "two" for 2 returns a list with
    "two" alone: the first value, a string and not the sentinel, is left
    out. *)
Theorem map_drops_object_Object_string :
  let f := λ v, if decide (v = VNum 1) then VStr "[object Object]" else VStr "two" in
  let h := single List_ctor [VNum 1; VNum 2] in
  returns (Iterable.map (pure1 f) (VRef this0)) h List_ctor [VStr "two"]
  ∧ f (VNum 1) ≠ VRef NOT_MAPPED.
Proof.
  intros f h. split; [| done].
  exact (map_returns h this0 List_ctor items0 [VNum 1; VNum 2] f (single_holds _ _)).
Qed.

(** ** What the traversal methods leave in place *)

Section Frame.
Context (P : heap → Prop).
Context (P_mono : ∀ h h', P h → h ⊆ h' → P h').

Lemma preserves_ret {A} (a : A) : preserves P (mret a : M A).
Proof. by intros h HP. Qed.

Lemma preserves_throw {A} e : preserves P (throw e : M A).
Proof. by intros h HP. Qed.

Lemma preserves_bind {A B} (m : M A) (f : A → M B) :
  preserves P m → (∀ a, preserves P (f a)) → preserves P (m ≫= f).
Proof.
  intros Hm Hf h HP. rewrite bind_run.
  specialize (Hm h HP). destruct (m h) as [[x | e |] h']; simpl in *; try done.
  by apply Hf.
Qed.

Lemma preserves_alloc o : preserves P (alloc o).
Proof.
  intros h HP. destruct (alloc_spec o h) as (r & -> & F). simpl.
  eapply P_mono; [done |]. by apply insert_subseteq.
Qed.

Lemma preserves_this_items v : preserves P (this_items v).
Proof. intros h HP. unfold this_items. by repeat case_match. Qed.

Lemma preserves_array_of v : preserves P (array_of v).
Proof. intros h HP. unfold array_of. by repeat case_match. Qed.

Lemma preserves_constructor_of v : preserves P (constructor_of v).
Proof. intros h HP. unfold constructor_of. by repeat case_match. Qed.

Lemma preserves_get_prop v name : preserves P (get_prop v name).
Proof. intros h HP. unfold get_prop. by repeat case_match. Qed.

Lemma preserves_lift {A} (r : error + A) : preserves P (lift r).
Proof. destruct r; [apply preserves_throw | apply preserves_ret]. Qed.

Lemma preserves_for_acc {A} (body : nat → A → M A) n :
  (∀ i acc, preserves P (body i acc)) → ∀ i acc, preserves P (for_acc body i n acc).
Proof.
  intros Hb. induction n as [| n IH]; intros i acc; simpl.
  - apply preserves_ret.
  - apply preserves_bind; [apply Hb | intros acc'; apply IH].
Qed.

Lemma preserves_for_loop {A R} (body : nat → A → M (step A R)) n :
  (∀ i acc, preserves P (body i acc)) → ∀ i acc, preserves P (for_loop body i n acc).
Proof.
  intros Hb. induction n as [| n IH]; intros i acc; simpl.
  - apply preserves_ret.
  - apply preserves_bind; [apply Hb |]. intros [acc' | r]; [apply IH | apply preserves_ret].
Qed.

Lemma preserves_mapM {A B} (f : A → M B) l :
  (∀ x, preserves P (f x)) → preserves P (mapM f l).
Proof.
  intros Hf. induction l as [| x l IH]; simpl.
  - apply preserves_ret.
  - apply preserves_bind; [apply Hf | intros y].
    apply preserves_bind; [apply IH | intros k; apply preserves_ret].
Qed.

Lemma preserves_pluck_chain chain : ∀ v, preserves P (pluck_chain chain v).
Proof.
  induction chain as [| name rest IH]; intros v; simpl.
  - apply preserves_ret.
  - destruct (loose_eq_null v); [apply preserves_ret |].
    apply preserves_bind; [apply preserves_get_prop | apply IH].
Qed.

Lemma preserves_getPluckFunction property x y :
  preserves P (getPluckFunction property x y).
Proof.
  unfold getPluckFunction. case_decide.
  - apply preserves_get_prop.
  - apply preserves_pluck_chain.
Qed.

(** The steps common to the methods; what is left is about the functions
    the caller passed. *)
Ltac frame_step :=
  first
    [ apply preserves_ret
    | apply preserves_throw
    | apply preserves_alloc
    | apply preserves_this_items
    | apply preserves_array_of
    | apply preserves_constructor_of
    | apply preserves_get_prop
    | apply preserves_getPluckFunction
    | apply preserves_lift
    | apply preserves_bind; [| intros ?; cbv beta]
    | apply preserves_for_acc; intros ? ?; cbv beta
    | apply preserves_for_loop; intros ? ?; cbv beta
    | apply preserves_mapM; intros ?; cbv beta
    | match goal with
      | Hf : ∀ x y, preserves P (?f x y) |- preserves P (?f _ _) => apply Hf
      | |- preserves P (let '(_, _) := ?p in _) => destruct p
      | |- preserves P (if ?b then _ else _) => destruct b
      | |- preserves P (match ?x with _ => _ end) => destruct x
      end ].

Ltac frame := repeat frame_step.

Lemma preserves_size v : preserves P (Iterable.size v).
Proof. unfold Iterable.size. frame. Qed.

Lemma preserves_items_at i v : preserves P (Iterable.items_at i v).
Proof. unfold Iterable.items_at. frame. Qed.

Lemma preserves_invoke f i e v :
  (∀ x y, preserves P (f x y)) → preserves P (Iterable._invoke f i e v).
Proof. intros Hf. unfold Iterable._invoke. frame. Qed.

Lemma preserves_List_new xs : preserves P (List_new xs).
Proof. unfold List_new, cloneArray. frame. Qed.

Lemma preserves_List_fromArray v : preserves P (List_fromArray v).
Proof. unfold List_fromArray. frame. Qed.

Lemma preserves_createNew_from xs v : preserves P (Iterable._createNew_from xs v).
Proof.
  unfold Iterable._createNew_from, Iterable._createNew, SimpleIterable_new. frame.
Qed.

Lemma preserves_dropWhile_loop f v result :
  (∀ x y, preserves P (f x y)) → ∀ i, preserves P (Iterable.dropWhile_loop f v result i).
Proof.
  intros Hf. induction result as [| x rest IH]; intros i; simpl.
  - apply preserves_ret.
  - apply preserves_bind; [by apply preserves_invoke |].
    intros b. destruct (truthy b); [apply IH | apply preserves_ret].
Qed.

Ltac frame_method :=
  repeat first
    [ frame_step
    | apply preserves_size
    | apply preserves_items_at
    | apply preserves_invoke; [assumption]
    | apply preserves_createNew_from
    | apply preserves_List_fromArray
    | apply preserves_List_new
    | apply preserves_dropWhile_loop; [assumption] ].

Lemma preserves_perform {host : Host} t v :
  Forall (λ f : func, ∀ x y, preserves P (f x y)) (callbacks t) →
  preserves P (perform t v).
Proof.
  intros Hcb. destruct t; simpl in *;
    try (apply Forall_cons_1 in Hcb as [Hf _]);
    try unfold Iterable.isEmpty, Iterable.itemAt, Iterable.first, Iterable.last,
      Iterable.each, Iterable.map, Iterable.pluck, Iterable.filter, Iterable.count,
      Iterable.find, Iterable.findBy, Iterable.some, Iterable.every, Iterable.grouped,
      Iterable.groupBy, Iterable.fold, Iterable.partition, Iterable.drop,
      Iterable.dropRight, Iterable.dropWhile, Iterable.take, Iterable.takeRight,
      Iterable.takeWhile, Iterable.reverse, Iterable.slice, Iterable.mkString,
      Iterable.toList, Iterable.toArray, Iterable.clone, Iterable.toString, cloneArray;
    try (frame_method; fail).
  (* sorted *)
  unfold Iterable.sorted.
  destruct options as [o |]; simpl in *.
  - destruct (o_by o) as [| f | path] eqn:Eby; simpl in *.
    + frame_method. all: unfold Iterable.toUpperCase; frame_method.
    + apply Forall_cons_1 in Hcb as [Hf _]. frame_method.
      all: unfold Iterable.toUpperCase; frame_method.
    + frame_method. all: unfold Iterable.toUpperCase; frame_method.
  - frame_method. all: unfold Iterable.toUpperCase; frame_method.
Qed.

End Frame.

Lemma reverse_returns h this c a l :
  holds h this c a l → returns (Iterable.reverse (VRef this)) h c (rev l).
Proof.
  intros H. replace (rev l) with (rev (Array_slice l 0 None)) by by rewrite slice_all.
  apply (read_then_create h this c a l (λ l, rev (Array_slice l 0 None))); [done |].
  intros h' H'. unfold Iterable.reverse.
  step (this_items_holds _ _ _ _ _ H'). by step (array_of_lookup _ _ _ (proj2 H')).
Qed.

Lemma clone_returns h this c a l :
  holds h this c a l → returns (Iterable.clone (VRef this)) h c l.
Proof.
  intros H.
  assert (R : returns (Iterable.clone (VRef this)) h c (Array_slice l 0 None)).
  { apply (read_then_create h this c a l (λ l, Array_slice l 0 None)); [done |].
    intros h' H'. unfold Iterable.clone.
    step (this_items_holds _ _ _ _ _ H'). by step (array_of_lookup _ _ _ (proj2 H')). }
  by rewrite slice_all in R.
Qed.

(** C9. Whatever traversal method is called, and however the call ends,
    the receiver is the same collection with the same items on the same
    backing array, provided the functions the caller passes leave it so.
    [reverse] and [clone] return a collection, with the items reversed
    and the same items, which is another object than the receiver and
    whose backing array is another array than the receiver's. *)
Theorem traversal_frame {host : Host} t h this c a l :
  holds h this c a l →
  Forall (λ f : func, ∀ x y, preserves (λ h, holds h this c a l) (f x y)) (callbacks t) →
  holds (perform t (VRef this) h).2 this c a l
  ∧ (t = T_reverse ∨ t = T_clone →
     ∃ r a' h', perform t (VRef this) h = (Ok (VRef r), h')
                ∧ holds h' r c a' (match t with T_reverse => rev l | _ => l end)
                ∧ a' ≠ a ∧ r ≠ this).
Proof.
  intros H Hcb. split.
  - apply (preserves_perform (λ h, holds h this c a l)); [| done | done].
    intros h1 h2 H1 Hsub. by eapply holds_mono.
  - intros Ht.
    assert (R : returns (perform t (VRef this)) h c
                  (match t with T_reverse => rev l | _ => l end)).
    { destruct Ht as [-> | ->]; simpl.
      - by eapply reverse_returns.
      - by eapply clone_returns. }
    destruct R as (r & a' & h' & E & Hh & _ & Fr & Fa).
    exists r, a', h'. split_and!; try done.
    + intros ->. destruct H as [_ Ea]. congruence.
    + intros ->. destruct H as [Et _]. congruence.
Qed.

Lemma traversal_frame_witness :
  let h := single SimpleIterable_ctor one_to_six in
  let double := pure1 (λ v, match v with VNum n => VNum (2 * n) | _ => v end) in
  holds (Iterable.map double (VRef this0) h).2 this0 SimpleIterable_ctor items0 one_to_six
  ∧ ∃ r a' h', Iterable.reverse (VRef this0) h = (Ok (VRef r), h')
               ∧ holds h' r SimpleIterable_ctor a' (rev one_to_six)
               ∧ a' ≠ items0 ∧ r ≠ this0.
Proof.
  intros h double.
  destruct (traversal_frame (host := ExampleHost.host) T_reverse h this0
              SimpleIterable_ctor items0 one_to_six (single_holds _ _) (Forall_nil_2 _))
    as [_ Hr].
  destruct (traversal_frame (host := ExampleHost.host) (T_map double) h this0
              SimpleIterable_ctor items0 one_to_six (single_holds _ _)) as [Hf _].
  { apply Forall_cons_2; [| apply Forall_nil_2]. intros x y h' Hh'. exact Hh'. }
  split; [exact Hf |]. apply Hr. by left.
Defined.

(** ** Array.sort with a consistent comparison function *)

Section SortCorrect.
Context {E A : Type} `{EqDecision A} (comparefn : A → A → E + Z) (u : list A).
Context (Hc : consistent comparefn u = true).

Let le (a b : A) : Prop := cmp_le comparefn a b = true.

Lemma consistent_defined a b :
  a ∈ u → b ∈ u → a ≠ b → ∃ z, comparefn a b = inr z.
Proof.
  intros Ha Hb Hab. unfold consistent in Hc.
  rewrite forallb_forall in Hc. apply list_elem_of_In, Hc in Ha.
  rewrite forallb_forall in Ha. apply list_elem_of_In, Ha in Hb.
  rewrite orb_true_iff, bool_decide_eq_true in Hb. destruct Hb as [| Hb]; [done |].
  rewrite !andb_true_iff in Hb. destruct Hb as [[Hd _] _].
  unfold cmp_defined in Hd. destruct (comparefn a b); [done | eauto].
Qed.

Lemma consistent_total a b : a ∈ u → b ∈ u → a ≠ b → le a b ∨ le b a.
Proof.
  intros Ha Hb Hab. unfold consistent in Hc.
  rewrite forallb_forall in Hc. apply list_elem_of_In, Hc in Ha.
  rewrite forallb_forall in Ha. apply list_elem_of_In, Ha in Hb.
  rewrite orb_true_iff, bool_decide_eq_true in Hb. destruct Hb as [| Hb]; [done |].
  rewrite !andb_true_iff in Hb. destruct Hb as [[_ Ht] _].
  by apply orb_true_iff in Ht.
Qed.

Lemma consistent_trans a b c :
  a ∈ u → b ∈ u → c ∈ u → b ≠ c → a ≠ c → le a b → le b c → le a c.
Proof.
  intros Ha Hb Hc' Hbc Hac Hab Hbc'. unfold consistent in Hc.
  destruct (decide (a = b)) as [-> | Hne]; [done |].
  rewrite forallb_forall in Hc. apply list_elem_of_In, Hc in Ha.
  rewrite forallb_forall in Ha. apply list_elem_of_In, Ha in Hb.
  rewrite orb_true_iff, bool_decide_eq_true in Hb. destruct Hb as [| Hb]; [done |].
  rewrite !andb_true_iff in Hb. destruct Hb as [_ Ht].
  rewrite forallb_forall in Ht. apply list_elem_of_In, Ht in Hc'.
  rewrite !orb_true_iff, !bool_decide_eq_true in Hc'.
  destruct Hc' as [[|] | Hi]; [done | done |].
  unfold le in *. rewrite Hab, Hbc' in Hi. by destruct (cmp_le comparefn a c).
Qed.

Lemma sort_insert_spec x l :
  x ∈ u → l ⊆ u → x ∉ l → NoDup l → StronglySorted le l →
  ∃ r, sort_insert comparefn x l = inr r ∧ r ≡ₚ x :: l ∧ StronglySorted le r.
Proof.
  intros Hx. induction l as [| y l IH]; intros Hsub Hnin Hnd Hs.
  - exists [x]. split_and!; [done | done |]. repeat constructor.
  - assert (Hy : y ∈ u) by (apply Hsub; left).
    assert (Hxy : x ≠ y) by (intros ->; apply Hnin; left).
    apply NoDup_cons in Hnd as [Hyl Hnd].
    apply StronglySorted_inv in Hs as [Hs Hall].
    destruct (consistent_defined x y Hx Hy Hxy) as [z Ez].
    simpl. rewrite Ez. case_decide as Hz.
    + exists (x :: y :: l). split_and!; [done | done |].
      assert (Hle : le x y) by (unfold le, cmp_le; rewrite Ez; by apply bool_decide_eq_true).
      constructor; [by constructor |].
      constructor; [done |].
      rewrite Forall_forall in Hall |- *. intros w Hw.
      apply (consistent_trans x y w); try done.
      * apply Hsub. by right.
      * intros ->. done.
      * intros ->. apply Hnin. by right.
      * by apply Hall.
    + destruct IH as (r & Er & Hp & Hsr).
      * intros w Hw. apply Hsub. by right.
      * intros Hin. apply Hnin. by right.
      * done.
      * done.
      * rewrite Er. exists (y :: r). split_and!; [done | |].
        -- rewrite Hp. apply perm_swap.
        -- constructor; [done |].
           rewrite Hp. constructor; [| done].
           destruct (consistent_total x y Hx Hy Hxy) as [Hle | Hle]; [| done].
           unfold le, cmp_le in Hle. rewrite Ez in Hle.
           by apply bool_decide_eq_true in Hle.
Qed.

Lemma Array_sort_spec l :
  l ⊆ u → NoDup l →
  ∃ r, Array_sort comparefn l = inr r ∧ r ≡ₚ l ∧ StronglySorted le r.
Proof.
  induction l as [| x l IH]; intros Hsub Hnd.
  - exists []. split_and!; [done | done | constructor].
  - apply NoDup_cons in Hnd as [Hx Hnd].
    destruct IH as (s & Es & Hp & Hs); [| done |].
    { intros w Hw. apply Hsub. by right. }
    simpl. rewrite Es.
    destruct (sort_insert_spec x s) as (r & Er & Hpr & Hsr); try done.
    + apply Hsub. left.
    + intros w Hw. apply Hsub. right. by rewrite <- Hp.
    + by rewrite Hp.
    + by rewrite Hp.
    + exists r. split_and!; [done | | done]. by rewrite Hpr, Hp.
Qed.

End SortCorrect.

(** The arrangement is the only one in order: whatever algorithm the
    host's [sort] runs, with a comparison function that is consistent and
    never lets two distinct elements each precede the other, the result is
    the one of [Array_sort]. *)
Section SortUnique.
Context {E A : Type} `{EqDecision A} (comparefn : A → A → E + Z) (u : list A).
Context (Ha : antisymmetric comparefn u = true).

Let le (a b : A) : Prop := cmp_le comparefn a b = true.

Lemma antisymmetric_eq a b : a ∈ u → b ∈ u → le a b → le b a → a = b.
Proof.
  intros Hau Hbu Hab Hba. unfold antisymmetric in Ha.
  rewrite forallb_forall in Ha. apply list_elem_of_In, Ha in Hau.
  rewrite forallb_forall in Hau. apply list_elem_of_In, Hau in Hbu.
  rewrite orb_true_iff, bool_decide_eq_true in Hbu. destruct Hbu as [| Hn]; [done |].
  unfold le in *. by rewrite Hab, Hba in Hn.
Qed.

Lemma sorted_unique r1 : ∀ r2,
  r1 ⊆ u → r1 ≡ₚ r2 → StronglySorted le r1 → StronglySorted le r2 → r1 = r2.
Proof.
  induction r1 as [| x r1 IH]; intros r2 Hsub Hp Hs1 Hs2.
  - by apply Permutation_nil in Hp.
  - destruct r2 as [| y r2]; [symmetry in Hp; by apply Permutation_nil_cons in Hp |].
    apply StronglySorted_inv in Hs1 as [Hs1 Hall1].
    apply StronglySorted_inv in Hs2 as [Hs2 Hall2].
    rewrite Forall_forall in Hall1, Hall2.
    assert (Hxy : x = y).
    { assert (Hx : x ∈ y :: r2) by (rewrite <- Hp; left).
      assert (Hy : y ∈ x :: r1) by (rewrite Hp; left).
      apply elem_of_cons in Hx as [| Hx]; [done |].
      apply elem_of_cons in Hy as [| Hy]; [done |].
      apply antisymmetric_eq.
      - apply Hsub. left.
      - apply Hsub. by right.
      - by apply Hall1.
      - by apply Hall2. }
    subst y. f_equal. apply IH; [| by apply Permutation_cons_inv in Hp | done | done].
    intros w Hw. apply Hsub. by right.
Qed.

End SortUnique.

Lemma Array_sort_unique {E A} `{EqDecision A} (comparefn : A → A → E + Z) (u l r : list A) :
  consistent comparefn u = true → antisymmetric comparefn u = true →
  l ⊆ u → NoDup l →
  r ≡ₚ l → StronglySorted (λ a b, cmp_le comparefn a b = true) r →
  Array_sort comparefn l = inr r.
Proof.
  intros Hc Ha Hsub Hnd Hp Hs.
  destruct (Array_sort_spec comparefn u Hc l Hsub Hnd) as (r' & Er & Hp' & Hs').
  rewrite Er. f_equal. apply (sorted_unique comparefn u Ha); try done.
  - intros w Hw. apply Hsub. by rewrite <- Hp'.
  - by rewrite Hp', Hp.
Qed.



(** ** sorted *)

Lemma sort_insert_ext {E A} (f g : A → A → E + Z) x l :
  (∀ a b, f a b = g a b) → sort_insert f x l = sort_insert g x l.
Proof.
  intros Hfg. induction l as [| y l IH]; simpl; [done |].
  by rewrite Hfg, IH.
Qed.

Lemma Array_sort_ext {E A} (f g : A → A → E + Z) l :
  (∀ a b, f a b = g a b) → Array_sort f l = Array_sort g l.
Proof.
  intros Hfg. induction l as [| x l IH]; simpl; [done |].
  rewrite IH. destruct (Array_sort g l); [done |]. by apply sort_insert_ext.
Qed.

Lemma truthy_option_or v : truthy (Iterable.option_or v (VBool false)) = truthy v.
Proof. by destruct v. Qed.

Section SortedRun.
Context {host : Host}.
Context (o : sort_options) (g : option (value → value)).
Context (h : heap) (this : loc) (c : constructor) (a : loc) (l : list value).
Context (H : holds h this c a l).
Context (Hby : computes h l (by_function (o_by o)) g).

Let ic := o_ignoreCase o.
Let fill (i : nat) (x : value) (acc : list entry * list value) : list entry * list value :=
  let v := sort_value g x in
  if Iterable.is_missing v then (acc.1, acc.2 ++ [v])
  else (acc.1 ++ [{| index := i; value_ := sort_key ic v |}], acc.2).

Lemma fill_fold xs : ∀ k acc,
  fold_items fill k xs acc
  = (acc.1 ++ mapped_from ic k (sort_value g <$> xs),
     acc.2 ++ missing_of (sort_value g <$> xs)).
Proof.
  induction xs as [| x xs IH]; intros k [m mi]; simpl.
  - by rewrite !app_nil_r.
  - rewrite IH. unfold fill, missing_of. rewrite filter_cons. simpl.
    destruct (Iterable.is_missing (sort_value g x)) eqn:Em; simpl.
    + by rewrite <- app_assoc.
    + by rewrite <- app_assoc.
Qed.

Lemma by_step x :
  x ∈ l →
  (match by_function (o_by o) with
   | Some by_ => if truthy x then by_ x VUndefined else mret x
   | None => mret x
   end) h = (Ok (sort_value g x), h).
Proof.
  intros Hx. unfold computes in Hby.
  destruct (by_function (o_by o)) as [f |], g as [g' |]; try done; simpl.
  destruct (truthy x) eqn:Et; [by apply Hby | done].
Qed.

Lemma upper_case_ready_lookup i v :
  upper_case_ready ic (sort_value g <$> l) = true →
  (sort_value g <$> l) !! i = Some v → Iterable.is_missing v = false →
  truthy ic = true → is_string v = true.
Proof.
  intros Hr Ev Em Ht. unfold upper_case_ready in Hr. rewrite Ht in Hr. simpl in Hr.
  rewrite forallb_forall in Hr.
  assert (Hin : In v (sort_value g <$> l)).
  { apply list_elem_of_In, list_elem_of_lookup. eauto. }
  apply Hr in Hin. by rewrite Em in Hin.
Qed.

Lemma mapM_items_at es :
  mapM (λ e, Iterable.items_at (Z.of_nat (index e)) (VRef this)) es h
  = (Ok (items_at_entries l es), h).
Proof.
  induction es as [| e es IH]; simpl; [done |].
  step (items_at_holds _ _ _ _ _ (Z.of_nat (index e)) H).
  by step IH.
Qed.

Lemma sorted_run es :
  let svs := sort_value g <$> l in
  upper_case_ready ic svs = true →
  Array_sort (Iterable.sortFunction (o_localeCompare o)) (mapped_from ic 0 svs) = inr es →
  returns (Iterable.sorted (Some o) (VRef this)) h c
    (let result := items_at_entries l es ++ missing_of svs in
     if truthy (o_reverse o) then rev result else result).
Proof.
  intros svs Hr Es. unfold returns, Iterable.sorted. simpl.
  step (size_holds _ _ _ _ _ H).
  erewrite bind_ok; last first.
  { apply (for_acc_items _ fill). intros i x [m mi] E. simpl.
    step (items_at_lookup _ _ _ _ _ i x H E).
    assert (Hx : x ∈ l) by (apply list_elem_of_lookup; eauto).
    step (by_step x Hx). unfold fill. simpl.
    destruct (Iterable.is_missing (sort_value g x)) eqn:Em; [done |].
    rewrite truthy_option_or. unfold sort_key. fold ic.
    destruct (truthy ic) eqn:Et; [| done].
    assert (Hs : is_string (sort_value g x) = true).
    { apply (upper_case_ready_lookup i); try done.
      by rewrite list_lookup_fmap, E. }
    destruct (sort_value g x); try done. }
  rewrite fill_fold. simpl.
  rewrite (Array_sort_ext _ (Iterable.sortFunction (o_localeCompare o))); last first.
  { intros e1 e2. unfold Iterable.sortFunction. by rewrite truthy_option_or. }
  fold svs. rewrite Es. simpl.
  rewrite bind_run. simpl.
  step (mapM_items_at es).
  rewrite truthy_option_or.
  replace (if decide (missing_of svs ≠ []) then items_at_entries l es ++ missing_of svs
           else items_at_entries l es)
    with (items_at_entries l es ++ missing_of svs).
  - by eapply createNew_from_returns.
  - case_decide as Hm; [done |].
    by rewrite Hm, app_nil_r.
Qed.

End SortedRun.

Lemma consistent_intro {E A} `{EqDecision A} (comparefn : A → A → E + Z) (u : list A) :
  (∀ a b, a ∈ u → b ∈ u → a ≠ b →
     cmp_defined comparefn a b = true
     ∧ (cmp_le comparefn a b = true ∨ cmp_le comparefn b a = true)
     ∧ ∀ c, c ∈ u → b ≠ c → a ≠ c →
         cmp_le comparefn a b = true → cmp_le comparefn b c = true →
         cmp_le comparefn a c = true) →
  consistent comparefn u = true.
Proof.
  intros Hu. unfold consistent.
  apply forallb_forall. intros a Ha%list_elem_of_In.
  apply forallb_forall. intros b Hb%list_elem_of_In.
  destruct (decide (a = b)) as [-> | Hab].
  { by rewrite bool_decide_eq_true_2. }
  destruct (Hu a b Ha Hb Hab) as (Hd & Ht & Htr).
  apply orb_true_iff. right. rewrite !andb_true_iff. split_and!; [done | |].
  - apply orb_true_iff. tauto.
  - apply forallb_forall. intros c Hc%list_elem_of_In.
    destruct (decide (b = c)) as [-> | Hbc].
    { by rewrite bool_decide_eq_true_2. }
    destruct (decide (a = c)) as [-> | Hac].
    { rewrite (bool_decide_eq_true_2 (c = c)) by done. by rewrite orb_true_r. }
    rewrite !bool_decide_eq_false_2 by done. simpl.
    destruct (cmp_le comparefn a b) eqn:E1, (cmp_le comparefn b c) eqn:E2; simpl; try done.
    by rewrite (Htr c Hc Hbc Hac).
Qed.


Section SortedFacts.
Context {host : Host}.

Lemma strict_eq_true x y : strict_eq x y = true → x = y ∧ x ≠ VNaN.
Proof.
  destruct x, y; simpl; intros Hxy; try discriminate;
    try apply bool_decide_eq_true in Hxy; by split.
Qed.



Lemma mapped_from_index ic svs : ∀ k e,
  e ∈ mapped_from ic k svs → (k ≤ index e)%nat.
Proof.
  induction svs as [| v svs IH]; intros k e He; simpl in He.
  - by apply elem_of_nil in He.
  - destruct (Iterable.is_missing v).
    + apply IH in He. lia.
    + apply elem_of_cons in He as [-> | He]; [done |]. apply IH in He. lia.
Qed.

Lemma mapped_from_NoDup ic svs : ∀ k, NoDup (mapped_from ic k svs).
Proof.
  induction svs as [| v svs IH]; intros k; simpl.
  - constructor.
  - destruct (Iterable.is_missing v); [apply IH |].
    constructor; [| apply IH].
    intros He. apply mapped_from_index in He. simpl in He. lia.
Qed.


Lemma items_at_mapped_from ic (sv : value → value) xs : ∀ pre,
  items_at_entries (pre ++ xs) (mapped_from ic (length pre) (sv <$> xs))
  = filter (λ x, Iterable.is_missing (sv x) = false) xs.
Proof.
  induction xs as [| x xs IH]; intros pre; [done |].
  specialize (IH (pre ++ [x])).
  rewrite <- app_assoc, length_app, Nat.add_1_r in IH.
  change ([x] ++ xs) with (x :: xs) in IH.
  rewrite fmap_cons, filter_cons. cbn [mapped_from].
  destruct (Iterable.is_missing (sv x)) eqn:Em.
  - rewrite decide_False by (by intros ?). exact IH.
  - rewrite decide_True by done. unfold items_at_entries in *. rewrite fmap_cons.
    f_equal; [| exact IH].
    apply Array_get_lookup. by rewrite lookup_app_r, Nat.sub_diag.
Qed.






End SortedFacts.

Lemma bind_ext_run {A B} (m : M A) (f f' : A → M B) h :
  (∀ a h', f a h' = f' a h') → (m ≫= f) h = (m ≫= f') h.
Proof. intros Hf. rewrite !bind_run. destruct (m h) as [[x | e |] h']; by rewrite ?Hf. Qed.


Section SortedBy.
Context {host : Host}.





End SortedBy.

(** *** The comparison function on numbers

    Without [localeCompare], on entries whose values are numbers, the
    comparison function is the lexicographic order of value and index:
    it is consistent on any such entries that are distinct. *)

Section SortedNumbers.
Context {host : Host}.

Lemma cmp_le_numbers lc a b m n :
  truthy lc = false → value_ a = VNum m → value_ b = VNum n →
  cmp_defined (Iterable.sortFunction lc) a b = true
  ∧ (cmp_le (Iterable.sortFunction lc) a b = true
     ↔ m < n ∨ (m = n ∧ (index a < index b)%nat)).
Proof.
  intros Hlc Ea Eb. unfold cmp_defined, cmp_le, Iterable.sortFunction.
  rewrite Hlc, Ea, Eb. simpl. rewrite host_lt_num.
  destruct (decide (m = n)) as [-> | Hne].
  - rewrite bool_decide_eq_true_2 by done. simpl. split; [done |].
    case_decide; rewrite bool_decide_eq_true; lia.
  - rewrite bool_decide_eq_false_2 by congruence. simpl. split; [done |].
    destruct (m <? n) eqn:Elt; rewrite bool_decide_eq_true.
    + apply Z.ltb_lt in Elt. lia.
    + apply Z.ltb_ge in Elt. lia.
Qed.

Lemma consistent_numbers lc (u : list entry) :
  truthy lc = false →
  Forall (λ e, ∃ n, value_ e = VNum n) u →
  (∀ a b, a ∈ u → b ∈ u → index a = index b → a = b) →
  consistent (Iterable.sortFunction lc) u = true.
Proof.
  intros Hlc Hnum Hidx. rewrite Forall_forall in Hnum.
  apply consistent_intro. intros a b Ha Hb Hab.
  destruct (Hnum a Ha) as [m Em], (Hnum b Hb) as [n En].
  destruct (cmp_le_numbers lc a b m n Hlc Em En) as [Hd Hab'].
  destruct (cmp_le_numbers lc b a n m Hlc En Em) as [_ Hba'].
  assert (Hi : index a ≠ index b) by (intros Hi; by apply Hab, Hidx).
  split_and!; [done | |].
  - rewrite Hab', Hba'. lia.
  - intros c Hc Hbc Hac. destruct (Hnum c Hc) as [k Ek].
    destruct (cmp_le_numbers lc b c n k Hlc En Ek) as [_ Hbc'].
    destruct (cmp_le_numbers lc a c m k Hlc Em Ek) as [_ Hac'].
    rewrite Hab', Hbc', Hac'. lia.
Qed.

End SortedNumbers.

(** *** sorted on examples, with the host of the examples *)

Section SortedExamples.
#[local] Existing Instance ExampleHost.host.





End SortedExamples.

(** ** List.insert *)

Lemma StronglySorted_lookup {A} (R : A → A → Prop) l i j x y :
  StronglySorted R l → (i < j)%nat → l !! i = Some x → l !! j = Some y → R x y.
Proof.
  intros Hs. revert i j. induction Hs as [| z l Hs IH Hall]; intros i j Hij Ei Ej; [done |].
  destruct j as [| j]; [lia |]. destruct i as [| i]; simpl in *.
  - injection Ei as ->. rewrite Forall_forall in Hall. apply Hall.
    apply list_elem_of_lookup. eauto.
  - apply (IH i j); [lia | done | done].
Qed.

Lemma StronglySorted_insert_at {A} (R : A → A → Prop) l p x :
  StronglySorted R l →
  (∀ y, y ∈ take p l → R y x) → (∀ y, y ∈ drop p l → R x y) →
  StronglySorted R (take p l ++ x :: drop p l).
Proof.
  intros Hs Hbefore Hafter. rewrite <- (take_drop p l) in Hs.
  revert Hs Hbefore. generalize (take p l) as l1. generalize dependent (drop p l).
  intros l2 Hafter l1. induction l1 as [| z l1 IH]; intros Hs Hbefore; simpl in *.
  - constructor; [done |]. rewrite Forall_forall. done.
  - apply StronglySorted_inv in Hs as [Hs Hall]. constructor.
    + apply IH; [done |]. intros y Hy. apply Hbefore. by right.
    + rewrite Forall_forall in Hall |- *. intros y Hy.
      apply elem_of_app in Hy as [Hy | Hy].
      * apply Hall. apply elem_of_app. by left.
      * apply elem_of_cons in Hy as [-> | Hy].
        -- apply Hbefore. left.
        -- apply Hall. apply elem_of_app. by right.
Qed.

Lemma to_int32_small z : 0 ≤ z < 2 ^ 31 → to_int32 z = z.
Proof.
  intros Hz. unfold to_int32. rewrite Z.mod_small by lia. case_decide; lia.
Qed.

Section Insert.
Context {host : Host}.
Context (C : value → value → Z) (sortFunction : func).
Context (item : value) (h : heap) (this : loc) (c : constructor) (a : loc) (l : list value).
Context (HC : computes_order_on sortFunction C h (item :: l)).
Context (H : holds h this c a l).
Context (Hsize : Z.of_nat (length l) < 2 ^ 30).
Context (Htotal : ∀ x y, x ∈ item :: l → y ∈ item :: l → C x y ≤ 0 ∨ C y x ≤ 0).
Context (Htrans : ∀ x y z, x ∈ item :: l → y ∈ item :: l → z ∈ item :: l →
                            C x y ≤ 0 → C y z ≤ 0 → C x z ≤ 0).
Context (Hsorted : non_decreasing C l).

(** Past an element that [item] does not exceed, [item] exceeds none. *)
Lemma insert_monotone i j x y :
  (i < j)%nat → l !! i = Some x → l !! j = Some y → C item x ≤ 0 → C item y ≤ 0.
Proof.
  intros Hij Ei Ej Hx.
  apply (Htrans item x y); try done.
  - left.
  - right. apply list_elem_of_lookup. eauto.
  - right. apply list_elem_of_lookup. eauto.
  - by apply (StronglySorted_lookup (λ x y, C x y ≤ 0) l i j).
Qed.

Lemma leftmost_search n :
  search_inv C item l (Z.of_nat n) (Z.of_nat n) → leftmost C item l = n.
Proof.
  intros (_ & Hn & Hlow & Hhigh). unfold leftmost.
  destruct (list_find (λ e, C item e ≤ 0) l) as [[i e] |] eqn:Ef.
  - apply list_find_Some in Ef as (Ei & Pe & Hmin).
    destruct (decide (i < n)%nat) as [Hlt | Hge].
    + specialize (Hlow i e Ei). lia.
    + destruct (decide (n < i)%nat) as [Hlt | ?]; [| lia].
      destruct (lookup_lt_is_Some_2 l n) as [e' En].
      { apply lookup_lt_Some in Ei. lia. }
      specialize (Hmin n e' En Hlt). specialize (Hhigh n e' En). lia.
  - apply list_find_None in Ef. rewrite Forall_forall in Ef.
    destruct (decide (n < length l)%nat) as [Hlt | ?]; [| lia].
    destruct (lookup_lt_is_Some_2 l n Hlt) as [e' En].
    assert (Hle : C item e' ≤ 0) by (apply (Hhigh n e' En); lia).
    assert (Hin : e' ∈ l) by (apply list_elem_of_lookup; eauto).
    by destruct (Ef e' Hin).
Qed.

Lemma search_done low :
  search_inv C item l low low → Z.of_nat (leftmost C item l) = low.
Proof.
  intros Hinv. assert (H0 : 0 ≤ low) by (destruct Hinv; lia).
  rewrite <- (Z2Nat.id low H0) in Hinv. rewrite (leftmost_search _ Hinv). lia.
Qed.

Lemma insert_loop_spec fuel : ∀ low high,
  search_inv C item l low high → (Z.to_nat (high - low) ≤ fuel)%nat →
  List.insert_loop fuel sortFunction item (VRef this) low high h
  = (Ok (Z.of_nat (leftmost C item l)), h).
Proof.
  induction fuel as [| fuel IH]; intros low high Hinv Hfuel.
  - assert (low = high) as -> by (destruct Hinv; lia).
    simpl. rewrite decide_False by lia. by rewrite (search_done _ Hinv).
  - simpl. case_decide as Hlt; last first.
    { assert (low = high) as -> by (destruct Hinv; lia).
      by rewrite (search_done _ Hinv). }
    destruct Hinv as (Hlow & Hhigh & Hbelow & Habove).
    rewrite to_int32_small by lia. rewrite Z.shiftr_div_pow2 by lia.
    change (2 ^ 1) with 2.
    set (mid := (low + high) / 2).
    assert (Hmid : low ≤ mid < high) by (unfold mid; split;
      [apply Z.div_le_lower_bound; lia | apply Z.div_lt_upper_bound; lia]).
    destruct (lookup_lt_is_Some_2 l (Z.to_nat mid)) as [e Ee]; [lia |].
    step (items_at_holds _ _ _ _ _ mid H).
    rewrite <- (Z2Nat.id mid) at 1 by lia. rewrite (Array_get_lookup _ _ _ Ee).
    assert (He : e ∈ item :: l) by (right; apply list_elem_of_lookup; eauto).
    step (HC item e (list_elem_of_here item l) He). rewrite host_lt_num.
    destruct (0 <? C item e) eqn:Ecmp.
    + apply Z.ltb_lt in Ecmp. apply IH; [| lia].
      split_and!; try lia; [| done].
      intros i e' Ei Hi.
      destruct (decide (i = Z.to_nat mid)) as [-> | Hne].
      * rewrite Ee in Ei. injection Ei as <-. lia.
      * destruct (decide (C item e' ≤ 0)) as [Hle | ?]; [| lia].
        assert (C item e ≤ 0); [| lia].
        apply (insert_monotone i (Z.to_nat mid) e' e); [lia | done | done | done].
    + apply Z.ltb_ge in Ecmp. apply IH; [| lia].
      split_and!; try lia; [done |].
      intros i e' Ei Hi.
      destruct (decide (i = Z.to_nat mid)) as [-> | Hne].
      * rewrite Ee in Ei. by injection Ei as <-.
      * apply (insert_monotone (Z.to_nat mid) i e e'); [lia | done | done | done].
Qed.

Lemma leftmost_le : (leftmost C item l ≤ length l)%nat.
Proof.
  unfold leftmost. destruct (list_find _ l) as [[i e] |] eqn:Ef; [| done].
  apply list_find_Some in Ef as (Ei & _). apply lookup_lt_Some in Ei. lia.
Qed.

Lemma leftmost_before y :
  y ∈ take (leftmost C item l) l → C y item ≤ 0.
Proof.
  intros Hy. apply list_elem_of_lookup in Hy as [i Ei].
  apply lookup_take_Some in Ei as [Ei Hi].
  assert (Hgt : C item y > 0).
  { unfold leftmost in Hi. destruct (list_find _ l) as [[k e] |] eqn:Ef.
    - apply list_find_Some in Ef as (_ & _ & Hmin). specialize (Hmin i y Ei Hi). lia.
    - apply list_find_None in Ef. rewrite Forall_forall in Ef.
      assert (Hin : y ∈ l) by (apply list_elem_of_lookup; eauto).
      specialize (Ef y Hin). lia. }
  destruct (Htotal item y) as [? | ?]; [left | | lia | done].
  right. apply list_elem_of_lookup. eauto.
Qed.

Lemma leftmost_after y :
  y ∈ drop (leftmost C item l) l → C item y ≤ 0.
Proof.
  intros Hy. apply list_elem_of_lookup in Hy as [i Ei].
  rewrite lookup_drop in Ei.
  unfold leftmost in Ei. destruct (list_find _ l) as [[k e] |] eqn:Ef.
  - apply list_find_Some in Ef as (Ek & Pe & _).
    destruct i as [| i]; [rewrite Nat.add_0_r in Ei; congruence |].
    apply (insert_monotone k (k + S i) e y); [lia | done | done | done].
  - apply lookup_lt_Some in Ei. lia.
Qed.

(** [insert] with a comparison function that computes [C]. *)
Lemma insert_spec fuel sf :
  default List._defaultSortFunction sf = sortFunction →
  (length l ≤ fuel)%nat →
  let p := leftmost C item l in
  let l' := take p l ++ item :: drop p l in
  List.insert fuel item sf (VRef this) h = (Ok (VRef this), <[a:=OArray l']> h)
  ∧ non_decreasing C l'.
Proof.
  intros Esf Hfuel p l'. split.
  - unfold List.insert. rewrite Esf.
    step (size_holds _ _ _ _ _ H).
    assert (Hinv : search_inv C item l 0 (Z.of_nat (length l))).
    { split_and!; try lia.
      intros i e Ei Hi. apply lookup_lt_Some in Ei. lia. }
    assert (Hf : (Z.to_nat (Z.of_nat (length l) - 0) ≤ fuel)%nat) by lia.
    step (insert_loop_spec fuel 0 (Z.of_nat (length l)) Hinv Hf).
    pose proof leftmost_le as Hp.
    erewrite bind_ok; last first.
    { apply (addAt_in h this c a l item); [done | lia]. }
    by rewrite Nat2Z.id.
  - apply StronglySorted_insert_at; [done | |].
    + apply leftmost_before.
    + apply leftmost_after.
Qed.

End Insert.

Section InsertDefault.
Context {host : Host}.

Lemma default_computes_ordinal : computes_order List._defaultSortFunction ordinal.
Proof.
  intros x y h. unfold List._defaultSortFunction, ordinal.
  by destruct (host_lt x y), (host_lt y x).
Qed.

Lemma ordinal_num m n :
  ordinal (VNum m) (VNum n) = if m <? n then -1 else if n <? m then 1 else 0.
Proof. unfold ordinal. by rewrite !host_lt_num. Qed.

(** On numbers the default order is total and transitive. *)
Lemma ordinal_numbers (u : list value) :
  Forall (λ v, ∃ n, v = VNum n) u →
  (∀ x y, x ∈ u → y ∈ u → ordinal x y ≤ 0 ∨ ordinal y x ≤ 0)
  ∧ (∀ x y z, x ∈ u → y ∈ u → z ∈ u →
       ordinal x y ≤ 0 → ordinal y z ≤ 0 → ordinal x z ≤ 0).
Proof.
  intros Hu. rewrite Forall_forall in Hu. split.
  - intros x y Hx Hy. destruct (Hu x Hx) as [m ->], (Hu y Hy) as [n ->].
    rewrite !ordinal_num.
    destruct (m <? n) eqn:E1, (n <? m) eqn:E2; lia.
  - intros x y z Hx Hy Hz.
    destruct (Hu x Hx) as [m ->], (Hu y Hy) as [n ->], (Hu z Hz) as [k ->].
    rewrite !ordinal_num.
    destruct (m <? n) eqn:E1, (n <? m) eqn:E2, (n <? k) eqn:E3, (k <? n) eqn:E4,
      (m <? k) eqn:E5, (k <? m) eqn:E6; lia.
Qed.

(** The default comparison function computes the ordinal order of any
    values in any store. *)
Lemma default_computes_ordinal_on h u :
  computes_order_on List._defaultSortFunction ordinal h u.
Proof. intros x y _ _. apply default_computes_ordinal. Qed.

(** C7. [C] is what the comparison function returns, in the store of the
    call, for the item and the items of the list: nothing is asked of it
    on other values or in other stores, so that a function that subtracts
    or reads a property of its arguments is a comparison function here.
    On a list of fewer than 2^30 items that is non-decreasing under [C],
    when [C] orders any two of these values one way or the other and
    transitively, [insert(item, C)] puts [item] at the leftmost position
    whose element [e] has [C(item, e) <= 0], at the end when there is
    none, and the list is non-decreasing under [C] afterwards; the search
    ends within as many turns as the list has items.  Without a
    comparison function the one used is the default, and [C] is then the
    ordinal order. *)
Theorem insert_keeps_sorted C (sortFunction : option func) item h this c a l fuel :
  computes_order_on (default List._defaultSortFunction sortFunction) C h (item :: l) →
  holds h this c a l →
  Z.of_nat (length l) < 2 ^ 30 →
  (length l ≤ fuel)%nat →
  (∀ x y, x ∈ item :: l → y ∈ item :: l → C x y ≤ 0 ∨ C y x ≤ 0) →
  (∀ x y z, x ∈ item :: l → y ∈ item :: l → z ∈ item :: l →
     C x y ≤ 0 → C y z ≤ 0 → C x z ≤ 0) →
  non_decreasing C l →
  let p := leftmost C item l in
  let l' := take p l ++ item :: drop p l in
  List.insert fuel item sortFunction (VRef this) h = (Ok (VRef this), <[a:=OArray l']> h)
  ∧ l' !! p = Some item
  ∧ non_decreasing C l'
  ∧ (sortFunction = None →
     List.insert fuel item None (VRef this) h
     = List.insert fuel item (Some List._defaultSortFunction) (VRef this) h
     ∧ ∀ x y, x ∈ item :: l → y ∈ item :: l → C x y = ordinal x y).
Proof.
  intros HC H Hsize Hfuel Htotal Htrans Hsorted p l'.
  destruct (insert_spec C (default List._defaultSortFunction sortFunction) item h this
              c a l HC H Hsize Htotal Htrans Hsorted fuel sortFunction eq_refl Hfuel)
    as [Hrun Hs].
  split_and!; [done | | done |].
  - subst l'. rewrite lookup_app_r; rewrite length_take.
    + replace (p - p `min` length l)%nat with 0%nat; [done |].
      pose proof (leftmost_le C item l). unfold p. lia.
    + lia.
  - intros ->. split; [done |]. intros x y Hx Hy. simpl in HC.
    pose proof (HC x y Hx Hy) as E1. rewrite (default_computes_ordinal x y h) in E1.
    by injection E1.
Qed.

End InsertDefault.

Lemma by_rank_order_total x y : by_rank_order x y ≤ 0 ∨ by_rank_order y x ≤ 0.
Proof.
  unfold by_rank_order.
  destruct (rank_of x <? rank_of y) eqn:E1, (rank_of y <? rank_of x) eqn:E2; lia.
Qed.

Lemma by_rank_order_trans x y z :
  by_rank_order x y ≤ 0 → by_rank_order y z ≤ 0 → by_rank_order x z ≤ 0.
Proof.
  unfold by_rank_order.
  destruct (rank_of x <? rank_of y) eqn:E1, (rank_of y <? rank_of x) eqn:E2,
    (rank_of y <? rank_of z) eqn:E3, (rank_of z <? rank_of y) eqn:E4,
    (rank_of x <? rank_of z) eqn:E5, (rank_of z <? rank_of x) eqn:E6; lia.
Qed.

Section InsertExample.
#[local] Existing Instance ExampleHost.host.

Lemma insert_keeps_sorted_witness :
  let h := ranked_store in
  let l := [VRef rank1; VRef rank3] in
  let p := leftmost by_rank_order (VRef rank2) l in
  let l' := take p l ++ VRef rank2 :: drop p l in
  let n := VNum <$> [1; 2; 4; 4; 5] in
  let hn := single List_ctor n in
  let q := leftmost ordinal (VNum 4) n in
  let n' := take q n ++ VNum 4 :: drop q n in
  (List.insert 2 (VRef rank2) (Some by_rank) (VRef this0) h
     = (Ok (VRef this0), <[items0:=OArray l']> h)
   ∧ l' !! p = Some (VRef rank2)
   ∧ non_decreasing by_rank_order l'
   ∧ (Some by_rank = None →
      List.insert 2 (VRef rank2) None (VRef this0) h
      = List.insert 2 (VRef rank2) (Some List._defaultSortFunction) (VRef this0) h
      ∧ ∀ x y, x ∈ VRef rank2 :: l → y ∈ VRef rank2 :: l →
          by_rank_order x y = ordinal x y))
  ∧ p = 1%nat
  ∧ l' = [VRef rank1; VRef rank2; VRef rank3]
  ∧ (List.insert 5 (VNum 4) None (VRef this0) hn = (Ok (VRef this0), <[items0:=OArray n']> hn)
     ∧ n' !! q = Some (VNum 4)
     ∧ non_decreasing ordinal n'
     ∧ (@None func = None →
        List.insert 5 (VNum 4) None (VRef this0) hn
        = List.insert 5 (VNum 4) (Some List._defaultSortFunction) (VRef this0) hn
        ∧ ∀ x y, x ∈ VNum 4 :: n → y ∈ VNum 4 :: n → ordinal x y = ordinal x y))
  ∧ q = 2%nat
  ∧ n' = VNum <$> [1; 2; 4; 4; 4; 5].
Proof.
  intros h l p l' n hn q n'.
  split; [| split; [reflexivity | split; [reflexivity | split; [| split; reflexivity]]]].
  - apply (insert_keeps_sorted by_rank_order (Some by_rank) (VRef rank2) h this0 List_ctor
             items0 l 2).
    + intros x y Hx Hy. unfold l in Hx, Hy.
      repeat (apply elem_of_cons in Hx as [-> | Hx]); [.. | by apply elem_of_nil in Hx];
        repeat (apply elem_of_cons in Hy as [-> | Hy]);
        try (by apply elem_of_nil in Hy); reflexivity.
    + split; reflexivity.
    + simpl. lia.
    + simpl. lia.
    + intros x y _ _. apply by_rank_order_total.
    + intros x y z _ _ _. apply by_rank_order_trans.
    + repeat constructor; vm_compute; congruence.
  - assert (Hnum : Forall (λ v, ∃ n, v = VNum n) (VNum 4 :: n)).
    { repeat constructor; eauto. }
    destruct (ordinal_numbers _ Hnum) as [Htotal Htrans].
    apply (insert_keeps_sorted ordinal None (VNum 4) hn this0 List_ctor items0 n 5).
    + apply default_computes_ordinal_on.
    + apply single_holds.
    + simpl. lia.
    + simpl. lia.
    + exact Htotal.
    + exact Htrans.
    + repeat constructor; vm_compute; congruence.
Defined.

End InsertExample.

(** ** List.removeIf *)

Lemma removeIf_loop_turn fuel predicate this i length removed :
  (i < length) →
  List.removeIf_loop (S fuel) predicate this i length removed =
    (x ← Iterable.items_at i this;
     b ← predicate x VUndefined;
     if truthy b then
       y ← Iterable.items_at i this;
       a ← this_items this;
       xs ← array_of a;
       set_array a (Array_splice xs i 1 []).2;;
       List.removeIf_loop fuel predicate this (i - 1 + 1) length (removed ++ [y])
     else List.removeIf_loop fuel predicate this (i + 1) length removed).
Proof. intros Hi. simpl. by rewrite decide_True. Qed.

Lemma is_not_two_run x h :
  is_not_two x VUndefined h = (Ok (VBool (negb (strict_eq x (VNum 2)))), h).
Proof. reflexivity. Qed.

(** Once every item left fails the predicate and [i] has passed the last
    of them, the loop reads [undefined] at [i], which [is_not_two]
    accepts, removes nothing, and comes back to the same [i]: no budget is
    enough. *)
Lemma removeIf_loop_stuck fuel : ∀ h this c a removed,
  holds h this c a [VNum 2] →
  (List.removeIf_loop fuel is_not_two (VRef this) 1 2 removed h).1 = OutOfFuel.
Proof.
  induction fuel as [| fuel IH]; intros h this c a removed H; [done |].
  rewrite removeIf_loop_turn by lia.
  step (items_at_holds _ _ _ _ _ 1 H).
  step (is_not_two_run (Array_get [VNum 2] 1) h).
  change (truthy _) with true. cbv iota.
  step (items_at_holds _ _ _ _ _ 1 H).
  step (this_items_holds _ _ _ _ _ H).
  step (array_of_lookup _ _ _ (proj2 H)).
  step (set_array_lookup _ _ _ (Array_splice [VNum 2] 1 1 []).2 (proj2 H)).
  apply (IH _ this c a). by eapply holds_set_items.
Qed.

(** C3. On the list [1, 2], [removeIf] with the predicate [x !== 2] does
    not return, whatever the budget of turns: after removing 1 the loop
    still runs to the length it read at the start, calls the predicate on
    the [undefined] it reads past the end, and never moves on. *)
Theorem removeIf_diverges : ∀ fuel,
  (List.removeIf fuel is_not_two (VRef this0) (single List_ctor [VNum 1; VNum 2])).1
  = OutOfFuel.
Proof.
  intros fuel. unfold List.removeIf.
  pose proof (single_holds List_ctor [VNum 1; VNum 2]) as H.
  step (size_holds _ _ _ _ _ H).
  rewrite bind_run.
  destruct fuel as [| fuel]; [done |].
  rewrite removeIf_loop_turn by (simpl; lia).
  step (items_at_holds _ _ _ _ _ 0 H).
  step (is_not_two_run (Array_get [VNum 1; VNum 2] 0) (single List_ctor [VNum 1; VNum 2])).
  change (truthy _) with true. cbv iota.
  step (items_at_holds _ _ _ _ _ 0 H).
  step (this_items_holds _ _ _ _ _ H).
  step (array_of_lookup _ _ _ (proj2 H)).
  step (set_array_lookup _ _ _ (Array_splice [VNum 1; VNum 2] 0 1 []).2 (proj2 H)).
  pose proof (holds_set_items _ _ _ _ _ (Array_splice [VNum 1; VNum 2] 0 1 []).2 H) as H1.
  change (Array_splice [VNum 1; VNum 2] 0 1 []).2 with [VNum 2] in *.
  destruct fuel as [| fuel]; [done |].
  rewrite removeIf_loop_turn by (simpl; lia).
  step (items_at_holds _ _ _ _ _ (0 - 1 + 1) H1).
  step (is_not_two_run (Array_get [VNum 2] (0 - 1 + 1))
          (<[items0:=OArray [VNum 2]]> (single List_ctor [VNum 1; VNum 2]))).
  change (truthy _) with false. cbv iota.
  change (0 - 1 + 1 + 1) with 1.
  change (Z.of_nat (length [VNum 1; VNum 2])) with 2.
  pose proof (removeIf_loop_stuck fuel _ this0 List_ctor items0
                ([] ++ [Array_get [VNum 1; VNum 2] 0]) H1) as Hst.
  destruct (List.removeIf_loop fuel is_not_two (VRef this0) 1 2 _ _) as [r h'].
  simpl in Hst. by subst r.
Qed.

(** The loop is right when the predicate rejects [undefined]: the turns
    past the end of the shortened list then remove nothing and go on to
    the length read at the start. *)
Section RemoveIfRejecting.
Context (f : value → value) (Hu : truthy (f VUndefined) = false).
Context (this : loc) (c : constructor) (a : loc) (n : nat).

Lemma splice_remove (kept rest : list value) x :
  (Array_splice (kept ++ x :: rest) (Z.of_nat (length kept)) 1 []).2 = kept ++ rest.
Proof.
  unfold Array_splice, relative_index. rewrite length_app. simpl.
  case_decide; [lia |].
  replace (Z.to_nat (Z.min (Z.of_nat (length kept)) _)) with (length kept) by lia.
  replace (Z.to_nat (Z.min _ _)) with 1%nat by lia.
  rewrite take_app_length. f_equal.
  rewrite drop_app_ge by lia. replace (_ - _)%nat with 1%nat by lia. done.
Qed.

Lemma removeIf_loop_tail fuel : ∀ (i : Z) removed h items,
  holds h this c a items → Z.of_nat (length items) ≤ i →
  (Z.to_nat (Z.of_nat n - i) ≤ fuel)%nat →
  List.removeIf_loop fuel (pure1 f) (VRef this) i (Z.of_nat n) removed h = (Ok removed, h).
Proof.
  induction fuel as [| fuel IH]; intros i removed h items H Hi Hfuel.
  - simpl. by rewrite decide_False by lia.
  - destruct (decide (i < Z.of_nat n)) as [Hlt | Hge].
    + rewrite removeIf_loop_turn by done.
      step (items_at_holds _ _ _ _ _ i H). rewrite Array_get_ge by done.
      rewrite bind_run. unfold pure1 at 1. rewrite ret_run, Hu.
      apply (IH _ _ _ items); [done | lia | lia].
    + simpl. by rewrite decide_False.
Qed.

Lemma removeIf_loop_scan rest : ∀ kept removed fuel h,
  holds h this c a (kept ++ rest) →
  (length kept + length rest ≤ n)%nat →
  (2 * length rest + (n - length kept - length rest) ≤ fuel)%nat →
  ∃ h',
    List.removeIf_loop fuel (pure1 f) (VRef this) (Z.of_nat (length kept)) (Z.of_nat n)
      removed h
    = (Ok (removed ++ filter (λ x, truthy (f x) = true) rest), h')
    ∧ holds h' this c a (kept ++ filter (λ x, truthy (f x) = false) rest)
    ∧ ∀ l', l' ≠ a → h' !! l' = h !! l'.
Proof.
  induction rest as [| x rest IH]; intros kept removed fuel h H Hn Hfuel.
  - exists h. rewrite !app_nil_r in *. split_and!; [| done | done].
    apply (removeIf_loop_tail _ _ _ _ kept); [done | lia | simpl in *; lia].
  - simpl in Hn, Hfuel. destruct fuel as [| fuel]; [lia |].
    rewrite removeIf_loop_turn by lia.
    assert (Ex : (kept ++ x :: rest) !! length kept = Some x).
    { by rewrite lookup_app_r, Nat.sub_diag. }
    step (items_at_lookup _ _ _ _ _ _ _ H Ex).
    rewrite bind_run. unfold pure1 at 1. rewrite ret_run.
    rewrite !filter_cons.
    destruct (truthy (f x)) eqn:Et.
    + step (items_at_lookup _ _ _ _ _ _ _ H Ex).
      step (this_items_holds _ _ _ _ _ H).
      step (array_of_lookup _ _ _ (proj2 H)).
      step (set_array_lookup _ _ _
              (Array_splice (kept ++ x :: rest) (Z.of_nat (length kept)) 1 []).2 (proj2 H)).
      rewrite splice_remove.
      replace (Z.of_nat (length kept) - 1 + 1) with (Z.of_nat (length kept)) by lia.
      destruct (IH kept (removed ++ [x]) fuel (<[a:=OArray (kept ++ rest)]> h))
        as (h' & E & Hh & Hframe).
      * by eapply holds_set_items.
      * lia.
      * lia.
      * exists h'. rewrite decide_True by done. rewrite decide_False by (by intros ?).
        rewrite E, <- app_assoc. split_and!; [done | done |].
        intros l' Hl'. rewrite Hframe by done. by rewrite lookup_insert_ne.
    + replace (Z.of_nat (length kept) + 1) with (Z.of_nat (length (kept ++ [x])))
        by (rewrite length_app; simpl; lia).
      destruct (IH (kept ++ [x]) removed fuel h) as (h' & E & Hh & Hframe).
      * by rewrite <- app_assoc.
      * rewrite length_app. simpl. lia.
      * rewrite length_app. simpl. lia.
      * exists h'. rewrite decide_False by (by intros ?). rewrite decide_True by done.
        rewrite E. rewrite <- app_assoc in Hh. by split_and!.
Qed.

End RemoveIfRejecting.

Lemma removeIf_rejecting_undefined (f : value → value) fuel h this c a l :
  truthy (f VUndefined) = false →
  holds h this c a l →
  (2 * length l ≤ fuel)%nat →
  ∃ r a' h',
    List.removeIf fuel (pure1 f) (VRef this) h = (Ok (VRef r), h')
    ∧ holds h' this c a (filter (λ x, truthy (f x) = false) l)
    ∧ holds h' r List_ctor a' (filter (λ x, truthy (f x) = true) l).
Proof.
  intros Hu H Hfuel. unfold List.removeIf.
  step (size_holds _ _ _ _ _ H).
  destruct (removeIf_loop_scan f Hu this c a (length l) l [] [] fuel h)
    as (h1 & E & Hh & Hframe); [done | simpl; lia | simpl; lia |].
  simpl in E, Hh. step E.
  destruct (alloc_spec (OArray (filter (λ x, truthy (f x) = true) l)) h1) as (r1 & E1 & F1).
  step E1. unfold List.fromArray.
  destruct (List_fromArray_spec
              (<[r1:=OArray (filter (λ x, truthy (f x) = true) l)]> h1) r1 _
              (lookup_insert_eq _ _ _)) as (r' & a' & h' & E' & Hsub & Hr & _).
  exists r', a', h'. split_and!; [done | | done].
  eapply holds_mono; [done |]. etrans; [| done]. by apply insert_subseteq.
Qed.

(** A predicate that reads a property of its argument throws on the
    [undefined] past the end: on the list of the one object [{a: 1}],
    [removeIf] with [function (o) { return o.a === 1; }] removes the object
    and then throws. *)
Lemma removeIf_throws_past_the_end :
  let o : loc := 4%positive in
  let h := <[o := OPlain [("a", VNum 1)]]> (single List_ctor [VRef o]) in
  let has_a_1 : func := λ x _, v ← get_prop x "a"; mret (VBool (strict_eq v (VNum 1))) in
  ∃ e h', List.removeIf 2 has_a_1 (VRef this0) h = (Throw e, h')
          ∧ holds h' this0 List_ctor items0 [].
Proof. intros o h has_a_1. eexists _, _. split; [vm_compute; reflexivity |]. by split. Qed.

(** * Further properties of List *)

Lemma add_run h this c a l item :
  holds h this c a l →
  List.add item (VRef this) h = (Ok (VRef this), <[a:=OArray (l ++ [item])]> h).
Proof.
  intros H. unfold List.add.
  step (this_items_holds _ _ _ _ _ H).
  step (array_of_lookup _ _ _ (proj2 H)).
  by step (set_array_lookup _ _ _ (l ++ [item]) (proj2 H)).
Qed.

(** X1. [add(item)] and [addAt(item, size())] are the same call: both
    return the list, which now ends with [item], and neither throws. *)
Theorem add_is_addAt_size h this c a l item :
  holds h this c a l →
  List.add item (VRef this) h = List.addAt item (Z.of_nat (length l)) (VRef this) h
  ∧ List.add item (VRef this) h = (Ok (VRef this), <[a:=OArray (l ++ [item])]> h).
Proof.
  intros H. rewrite (add_run _ _ _ _ _ _ H). split; [| done].
  rewrite (addAt_in _ _ _ _ _ _ _ H) by lia.
  by rewrite Nat2Z.id, take_ge, drop_all by lia.
Qed.

Lemma add_is_addAt_size_witness :
  let h := single List_ctor one_to_six in
  List.add (VNum 7) (VRef this0) h = List.addAt (VNum 7) 6 (VRef this0) h
  ∧ List.add (VNum 7) (VRef this0) h
    = (Ok (VRef this0), <[items0:=OArray (one_to_six ++ [VNum 7])]> h).
Proof.
  intros h.
  exact (add_is_addAt_size h this0 List_ctor items0 one_to_six (VNum 7) (single_holds _ _)).
Defined.

(** X2. [update(index, item)] with [0 <= index < size()] replaces the
    item at [index] and no other, the size staying the same; with
    [index < 0] or [index > size()] it throws and the list is as it
    was. *)
Theorem update_replaces h this c a l index item :
  holds h this c a l →
  (0 ≤ index < Z.of_nat (length l) →
     let l' := <[Z.to_nat index:=item]> l in
     List.update index item (VRef this) h = (Ok (VRef this), <[a:=OArray l']> h)
     ∧ l' !! Z.to_nat index = Some item
     ∧ (∀ j, j ≠ Z.to_nat index → l' !! j = l !! j)
     ∧ length l' = length l)
  ∧ (index < 0 ∨ index > Z.of_nat (length l) →
     ∃ e, List.update index item (VRef this) h = (Throw e, h)).
Proof.
  intros H. split.
  - intros Hi l'. split_and!.
    + rewrite (update_in_range _ _ _ _ _ _ _ H Hi).
      destruct (strict_eq (Array_get l index) item) eqn:E; [| done].
      apply strict_eq_true in E as [E _]. f_equal.
      symmetry. apply insert_id. rewrite (proj2 H). do 2 f_equal.
      subst l'. symmetry. apply list_insert_id.
      unfold Array_get in E. rewrite decide_True in E by lia.
      destruct (lookup_lt_is_Some_2 l (Z.to_nat index)) as [y Ey]; [lia |].
      rewrite Ey in E |- *. simpl in E. by subst.
    + apply list_lookup_insert_eq. lia.
    + intros j Hj. by apply list_lookup_insert_ne.
    + apply length_insert.
  - intros Hi. eexists. unfold List.update.
    by rewrite (bind_throw _ _ _ _ _ (assertRange_out _ _ _ _ _ _ H Hi)).
Qed.

Lemma update_replaces_witness :
  let l := VNum <$> [1; 2; 3] in
  let h := single List_ctor l in
  List.update 1 (VNum 9) (VRef this0) h
    = (Ok (VRef this0), <[items0:=OArray (<[1%nat:=VNum 9]> l)]> h)
  ∧ ∃ e, List.update 4 (VNum 9) (VRef this0) h = (Throw e, h).
Proof.
  intros l h.
  destruct (update_replaces h this0 List_ctor items0 l 1 (VNum 9) (single_holds _ _))
    as [Hin _].
  destruct (update_replaces h this0 List_ctor items0 l 4 (VNum 9) (single_holds _ _))
    as [_ Hout].
  split.
  - apply Hin. simpl. lia.
  - apply Hout. simpl. lia.
Defined.

Lemma splice_one (l : list value) (k : nat) :
  (k < length l)%nat →
  Array_splice l (Z.of_nat k) 1 [] = (take 1 (drop k l), without k l).
Proof.
  intros Hk. unfold Array_splice, relative_index, without. simpl.
  case_decide; [lia |].
  replace (Z.to_nat (Z.min (Z.of_nat k) (Z.of_nat (length l)))) with k by lia.
  replace (Z.to_nat (Z.min _ _)) with 1%nat by lia.
  by rewrite Nat.add_1_r.
Qed.

Lemma removeAt_inside h this c a l (k : nat) :
  holds h this c a l → (k < length l)%nat →
  List.removeAt (Z.of_nat k) (VRef this) h
  = (Ok (Array_get l (Z.of_nat k)), <[a:=OArray (without k l)]> h).
Proof.
  intros H Hk. unfold List.removeAt.
  step (this_items_holds _ _ _ _ _ H).
  step (array_of_lookup _ _ _ (proj2 H)).
  rewrite splice_one by done.
  step (set_array_lookup _ _ _ (without k l) (proj2 H)).
  rewrite ret_run. do 2 f_equal.
  destruct (lookup_lt_is_Some_2 l k Hk) as [x Ex].
  rewrite (Array_get_lookup _ _ _ Ex).
  rewrite (drop_S _ _ _ Ex). simpl. by rewrite take_0.
Qed.

Lemma removeAt_negative_index h this c a l index :
  holds h this c a l → index < 0 → l ≠ [] →
  List.removeAt index (VRef this) h
  = List.removeAt (Z.max (Z.of_nat (length l) + index) 0) (VRef this) h.
Proof.
  intros H Hi Hl. unfold List.removeAt.
  step (this_items_holds _ _ _ _ _ H).
  step (array_of_lookup _ _ _ (proj2 H)).
  step (this_items_holds _ _ _ _ _ H).
  step (array_of_lookup _ _ _ (proj2 H)).
  replace (Array_splice l index 1 [])
    with (Array_splice l (Z.max (Z.of_nat (length l) + index) 0) 1 []); [done |].
  unfold Array_splice, relative_index.
  rewrite (decide_True (P := index < 0)) by done.
  rewrite (decide_False (P := Z.max _ _ < 0)) by lia.
  replace (Z.to_nat (Z.min (Z.max (Z.of_nat (length l) + index) 0) (Z.of_nat (length l))))
    with (Z.to_nat (Z.max (Z.of_nat (length l) + index) 0)) by lia.
  done.
Qed.

(** X3. [removeAt(index)] checks no range.  With [0 <= index < size()] it
    removes the item at [index] and returns it.  With [index >= size()]
    it removes nothing, returns [undefined] and leaves the store as it
    is.  A negative [index] counts from the end of a non-empty list, and
    from its start when it reaches before it: [removeAt(-1)] removes and
    returns the last item. *)
Theorem removeAt_cases h this c a l index :
  holds h this c a l →
  let len := Z.of_nat (length l) in
  (0 ≤ index < len →
     List.removeAt index (VRef this) h
     = (Ok (Array_get l index), <[a:=OArray (without (Z.to_nat index) l)]> h))
  ∧ (len ≤ index → List.removeAt index (VRef this) h = (Ok VUndefined, h))
  ∧ (index < 0 → l ≠ [] →
     let k := Z.max (len + index) 0 in
     List.removeAt index (VRef this) h
     = (Ok (Array_get l k), <[a:=OArray (without (Z.to_nat k) l)]> h)).
Proof.
  intros H len. split_and!.
  - intros Hi. rewrite <- (Z2Nat.id index) at 1 2 by lia.
    apply (removeAt_inside _ _ c); [done | lia].
  - intros Hi. unfold List.removeAt.
    step (this_items_holds _ _ _ _ _ H).
    step (array_of_lookup _ _ _ (proj2 H)).
    assert (E : Array_splice l index 1 [] = ([], l)).
    { unfold Array_splice, relative_index. rewrite decide_False by lia.
      replace (Z.to_nat (Z.min index (Z.of_nat (length l)))) with (length l) by lia.
      replace (Z.to_nat (Z.min _ _)) with 0%nat by lia.
      by rewrite Nat.add_0_r, take_0, take_ge, drop_all, app_nil_r by lia. }
    rewrite E.
    step (set_array_lookup _ _ _ l (proj2 H)).
    rewrite ret_run. f_equal. apply insert_id, H.
  - intros Hi Hl k. rewrite (removeAt_negative_index _ _ _ _ _ _ H Hi Hl). fold len k.
    assert (Hk : 0 ≤ k < len).
    { unfold k, len. destruct l; [done |]. simpl length. lia. }
    rewrite <- (Z2Nat.id k) at 1 2 by lia.
    apply (removeAt_inside _ _ c); [done | lia].
Qed.

Lemma removeAt_cases_witness :
  let l := VNum <$> [1; 2; 3] in
  let h := single List_ctor l in
  List.removeAt 1 (VRef this0) h = (Ok (VNum 2), <[items0:=OArray (VNum <$> [1; 3])]> h)
  ∧ List.removeAt 3 (VRef this0) h = (Ok VUndefined, h)
  ∧ List.removeAt (-1) (VRef this0) h
    = (Ok (VNum 3), <[items0:=OArray (VNum <$> [1; 2])]> h).
Proof.
  intros l h.
  destruct (removeAt_cases h this0 List_ctor items0 l 1 (single_holds _ _)) as (H1 & _ & _).
  destruct (removeAt_cases h this0 List_ctor items0 l 3 (single_holds _ _)) as (_ & H2 & _).
  destruct (removeAt_cases h this0 List_ctor items0 l (-1) (single_holds _ _))
    as (_ & _ & H3).
  split_and!.
  - apply H1. simpl. lia.
  - apply H2. simpl. lia.
  - apply H3; [lia | done].
Defined.

(** X4. Inserting an item at a valid index and removing at that index
    again gives the item back and restores the store, hence the list,
    exactly. *)
Theorem addAt_removeAt_round_trip h this c a l item index :
  holds h this c a l →
  0 ≤ index ≤ Z.of_nat (length l) →
  (List.addAt item index (VRef this) ;; List.removeAt index (VRef this)) h = (Ok item, h).
Proof.
  intros H Hi.
  step (addAt_in _ _ _ _ _ item index H Hi).
  set (l' := take (Z.to_nat index) l ++ item :: drop (Z.to_nat index) l).
  assert (H' : holds (<[a:=OArray l']> h) this c a l') by by eapply holds_set_items.
  assert (Hlen : length (take (Z.to_nat index) l) = Z.to_nat index).
  { rewrite length_take. lia. }
  rewrite <- (Z2Nat.id index) at 1 by lia.
  rewrite (removeAt_inside _ _ _ _ _ _ H'); last first.
  { unfold l'. rewrite length_app, Hlen. simpl. lia. }
  f_equal.
  - f_equal. apply Array_get_lookup. unfold l'.
    by rewrite lookup_app_r, Hlen, Nat.sub_diag by lia.
  - rewrite insert_insert_eq. apply insert_id. rewrite (proj2 H). do 2 f_equal.
    unfold without, l'.
    rewrite take_app_length' by done.
    rewrite drop_app_ge by lia. rewrite Hlen.
    replace (S (Z.to_nat index) - Z.to_nat index)%nat with 1%nat by lia.
    simpl. by rewrite drop_0, take_drop.
Qed.

Lemma addAt_removeAt_round_trip_witness :
  let h := single List_ctor one_to_six in
  (List.addAt (VStr "x") 3 (VRef this0) ;; List.removeAt 3 (VRef this0)) h
  = (Ok (VStr "x"), h).
Proof.
  intros h.
  apply (addAt_removeAt_round_trip h this0 List_ctor items0 one_to_six).
  - apply single_holds.
  - simpl. lia.
Defined.

(** X5. Removing the item at a valid index and inserting any item at that
    index gives back a list of the original size that differs from the
    original at that index at most. *)
Theorem removeAt_addAt_size h this c a l item index :
  holds h this c a l →
  0 ≤ index < Z.of_nat (length l) →
  (List.removeAt index (VRef this) ;; List.addAt item index (VRef this)) h
  = (Ok (VRef this), <[a:=OArray (<[Z.to_nat index:=item]> l)]> h)
  ∧ length (<[Z.to_nat index:=item]> l) = length l.
Proof.
  intros H Hi. split; [| apply length_insert].
  rewrite <- (Z2Nat.id index) at 1 by lia.
  step (removeAt_inside _ _ _ _ _ (Z.to_nat index) H ltac:(lia)).
  assert (H' : holds (<[a:=OArray (without (Z.to_nat index) l)]> h) this c a
                 (without (Z.to_nat index) l)) by by eapply holds_set_items.
  assert (Hlen : length (take (Z.to_nat index) l) = Z.to_nat index).
  { rewrite length_take. lia. }
  rewrite (addAt_in _ _ _ _ _ item index H'); last first.
  { unfold without. rewrite length_app, Hlen. lia. }
  rewrite insert_insert_eq. do 3 f_equal.
  unfold without. rewrite take_app_length' by done. rewrite drop_app_length' by done.
  destruct (lookup_lt_is_Some_2 l (Z.to_nat index)) as [x Ex]; [lia |].
  rewrite <- (take_drop_middle _ _ _ Ex) at 3.
  by rewrite insert_app_r_alt, Hlen, Nat.sub_diag by lia.
Qed.

Lemma removeAt_addAt_size_witness :
  let l := VNum <$> [1; 2; 3] in
  let h := single List_ctor l in
  (List.removeAt 1 (VRef this0) ;; List.addAt (VNum 9) 1 (VRef this0)) h
  = (Ok (VRef this0), <[items0:=OArray (<[1%nat:=VNum 9]> l)]> h)
  ∧ length (<[1%nat:=VNum 9]> l) = length l.
Proof.
  intros l h.
  apply (removeAt_addAt_size h this0 List_ctor items0 l (VNum 9) 1).
  - apply single_holds.
  - simpl. lia.
Defined.

(** X6. [removeAll()] empties the list in place, on the backing array it
    had, and returns the list; on an empty list it changes nothing. *)
Theorem removeAll_empties h this c a l :
  holds h this c a l →
  List.removeAll (VRef this) h = (Ok (VRef this), <[a:=OArray []]> h)
  ∧ holds (<[a:=OArray []]> h) this c a []
  ∧ (l = [] → <[a:=OArray []]> h = h).
Proof.
  intros H. split_and!.
  - unfold List.removeAll. step (size_holds _ _ _ _ _ H).
    case_decide as Hl.
    + step (this_items_holds _ _ _ _ _ H).
      step (array_of_lookup _ _ _ (proj2 H)).
      assert (E : (Array_splice l 0 (Z.of_nat (length l)) []).2 = []).
      { unfold Array_splice, relative_index. rewrite decide_False by lia. simpl.
        replace (Z.to_nat (Z.min 0 _)) with 0%nat by lia.
        replace (Z.to_nat (Z.min _ _)) with (length l) by lia.
        rewrite take_0. simpl. apply drop_all. }
      rewrite E. by step (set_array_lookup _ _ _ [] (proj2 H)).
    + rewrite bind_run, !ret_run. f_equal. symmetry. apply insert_id.
      rewrite (proj2 H). destruct l; [done | simpl in Hl; lia].
  - by eapply holds_set_items.
  - intros ->. apply insert_id, H.
Qed.

Lemma removeAll_empties_witness :
  let h := single List_ctor one_to_six in
  List.removeAll (VRef this0) h = (Ok (VRef this0), <[items0:=OArray []]> h)
  ∧ holds (<[items0:=OArray []]> h) this0 List_ctor items0 []
  ∧ (one_to_six = [] → <[items0:=OArray []]> h = h).
Proof.
  intros h.
  exact (removeAll_empties h this0 List_ctor items0 one_to_six (single_holds _ _)).
Defined.

(** ** insert: ties, and insertion one after another *)

Section InsertMore.
Context {host : Host}.

(** X7. [C] is what the comparison function returns, in the store of
    the call, for the item and the items of the list.  On a list of fewer
    than 2^30 items that is non-decreasing under [C], when [C] orders any
    two of these values one way or the other and transitively: where
    [insert] puts the item, every item before it is one the new item
    exceeds, and every item the new item does not exceed, an equal one
    included, comes after it, one place further than it was; the new item
    lands before the existing items equal to it. *)
Theorem insert_lands_before_equals C (sortFunction : option func) item h this c a l fuel :
  computes_order_on (default List._defaultSortFunction sortFunction) C h (item :: l) →
  holds h this c a l →
  Z.of_nat (length l) < 2 ^ 30 →
  (length l ≤ fuel)%nat →
  (∀ x y, x ∈ item :: l → y ∈ item :: l → C x y ≤ 0 ∨ C y x ≤ 0) →
  (∀ x y z, x ∈ item :: l → y ∈ item :: l → z ∈ item :: l →
     C x y ≤ 0 → C y z ≤ 0 → C x z ≤ 0) →
  non_decreasing C l →
  ∃ (p : nat) l',
    List.insert fuel item sortFunction (VRef this) h = (Ok (VRef this), <[a:=OArray l']> h)
    ∧ l' !! p = Some item
    ∧ (∀ j e, l !! j = Some e → (j < p)%nat → C item e > 0 ∧ l' !! j = Some e)
    ∧ (∀ j e, l !! j = Some e → C item e ≤ 0 → (p ≤ j)%nat ∧ l' !! S j = Some e).
Proof.
  intros HC H Hsize Hfuel Htotal Htrans Hsorted.
  destruct (insert_spec C (default List._defaultSortFunction sortFunction) item h this
              c a l HC H Hsize Htotal Htrans Hsorted fuel sortFunction eq_refl Hfuel)
    as [Hrun _].
  set (p := leftmost C item l) in *.
  pose proof (leftmost_le C item l) as Hp. fold p in Hp.
  assert (Hlen : length (take p l) = p) by (rewrite length_take; lia).
  assert (Hbefore : ∀ j e, l !! j = Some e → (j < p)%nat → C item e > 0).
  { intros j e Ej Hj. unfold p, leftmost in Hj.
    destruct (list_find _ l) as [[k e'] |] eqn:Ef.
    - apply list_find_Some in Ef as (_ & _ & Hmin). specialize (Hmin j e Ej Hj). lia.
    - apply list_find_None in Ef. rewrite Forall_forall in Ef.
      assert (Hin : e ∈ l) by (apply list_elem_of_lookup; eauto).
      specialize (Ef e Hin). lia. }
  exists p, (take p l ++ item :: drop p l). split_and!; [done | | |].
  - by rewrite lookup_app_r, Hlen, Nat.sub_diag by lia.
  - intros j e Ej Hj. split; [by eapply Hbefore |].
    rewrite lookup_app_l by lia. by rewrite lookup_take_lt.
  - intros j e Ej Hle.
    assert (Hpj : (p ≤ j)%nat).
    { destruct (decide (p ≤ j)%nat); [done |].
      pose proof (Hbefore j e Ej ltac:(lia)). lia. }
    split; [done |].
    rewrite lookup_app_r by lia. rewrite Hlen.
    replace (S j - p)%nat with (S (j - p)) by lia. simpl.
    rewrite lookup_drop. by replace (p + (j - p))%nat with j by lia.
Qed.

Lemma non_decreasing_numbers_insert (l : list value) x :
  Forall is_number (x :: l) →
  (∀ a b, a ∈ x :: l → b ∈ x :: l → ordinal a b ≤ 0 ∨ ordinal b a ≤ 0)
  ∧ (∀ a b d, a ∈ x :: l → b ∈ x :: l → d ∈ x :: l →
       ordinal a b ≤ 0 → ordinal b d ≤ 0 → ordinal a d ≤ 0).
Proof. intros Hn. by apply ordinal_numbers. Qed.

(** X8. Numbers inserted one after another into a non-decreasing list of
    numbers, without a comparison function, leave a list that is
    non-decreasing and holds the old items and the new ones, each as many
    times as it was given; in particular inserting into an empty list
    sorts. *)
Theorem insert_each_sorts fuel xs : ∀ h this c a l,
  holds h this c a l →
  Forall is_number l → Forall is_number xs →
  Z.of_nat (length l + length xs) < 2 ^ 30 →
  (length l + length xs ≤ fuel)%nat →
  non_decreasing ordinal l →
  ∃ l', insert_each fuel xs (VRef this) h = (Ok (VRef this), <[a:=OArray l']> h)
        ∧ l' ≡ₚ l ++ xs
        ∧ non_decreasing ordinal l'.
Proof.
  induction xs as [| x xs IH]; intros h this c a l H Hl Hxs Hsize Hfuel Hsorted.
  - exists l. split_and!; [| by rewrite app_nil_r | done].
    simpl. rewrite ret_run. f_equal. symmetry. apply insert_id, H.
  - apply Forall_cons in Hxs as [Hx Hxs]. simpl in Hsize, Hfuel.
    destruct (non_decreasing_numbers_insert l x) as [Htotal Htrans].
    { by constructor. }
    destruct (insert_spec ordinal List._defaultSortFunction x h this c a l
                (default_computes_ordinal_on h (x :: l)) H ltac:(lia) Htotal Htrans Hsorted
                fuel None eq_refl ltac:(lia)) as [Hrun Hs].
    set (l1 := take (leftmost ordinal x l) l ++ x :: drop (leftmost ordinal x l) l) in *.
    assert (Hp1 : l1 ≡ₚ x :: l).
    { unfold l1. rewrite <- Permutation_middle. by rewrite take_drop. }
    destruct (IH (<[a:=OArray l1]> h) this c a l1) as (l' & Erun & Hp & Hs').
    + by eapply holds_set_items.
    + rewrite Hp1. by constructor.
    + done.
    + rewrite Hp1. simpl. lia.
    + rewrite Hp1. simpl. lia.
    + done.
    + exists l'. split_and!; [| | done].
      * cbn [insert_each]. step Hrun. rewrite Erun. by rewrite insert_insert_eq.
      * rewrite Hp, Hp1. simpl. by rewrite <- Permutation_middle.
Qed.

End InsertMore.

Section InsertMoreExamples.
#[local] Existing Instance ExampleHost.host.

Lemma insert_lands_before_equals_witness :
  let l := VNum <$> [5; 4; 4; 2; 1] in
  let h := single List_ctor l in
  ∃ (p : nat) l',
    List.insert 5 (VNum 4) (Some descending) (VRef this0) h
    = (Ok (VRef this0), <[items0:=OArray l']> h)
    ∧ l' !! p = Some (VNum 4)
    ∧ (∀ j e, l !! j = Some e → (j < p)%nat →
         descending_order (VNum 4) e > 0 ∧ l' !! j = Some e)
    ∧ (∀ j e, l !! j = Some e → descending_order (VNum 4) e ≤ 0 →
         (p ≤ j)%nat ∧ l' !! S j = Some e).
Proof.
  intros l h.
  assert (Hnum : Forall (λ v, ∃ n, v = VNum n) (VNum 4 :: l)).
  { repeat constructor; eauto. }
  destruct (ordinal_numbers _ Hnum) as [Htotal Htrans].
  apply (insert_lands_before_equals descending_order (Some descending) (VNum 4) h this0
           List_ctor items0 l 5).
  - intros x y _ _. reflexivity.
  - apply single_holds.
  - simpl. lia.
  - simpl. lia.
  - intros x y Hx Hy. unfold descending_order. destruct (Htotal y x Hy Hx); tauto.
  - intros x y z Hx Hy Hz. unfold descending_order. intros H1 H2.
    by apply (Htrans z y x).
  - repeat constructor; vm_compute; congruence.
Defined.

Lemma insert_each_sorts_witness :
  let xs := VNum <$> [3; 1; 2; 1] in
  let h := single List_ctor [] in
  ∃ l', insert_each 4 xs (VRef this0) h = (Ok (VRef this0), <[items0:=OArray l']> h)
        ∧ l' ≡ₚ [] ++ xs
        ∧ non_decreasing ordinal l'.
Proof.
  intros xs h.
  apply (insert_each_sorts 4 xs h this0 List_ctor items0 []).
  - apply single_holds.
  - constructor.
  - repeat constructor; unfold is_number; eauto.
  - simpl. lia.
  - simpl. lia.
  - constructor.
Defined.

End InsertMoreExamples.

(** ** removeIf with a predicate that has no effect *)

Lemma splice_past_end (items : list value) (i : Z) :
  Z.of_nat (length items) ≤ i → Array_splice items i 1 [] = ([], items).
Proof.
  intros Hi. unfold Array_splice, relative_index. rewrite decide_False by lia.
  replace (Z.to_nat (Z.min i (Z.of_nat (length items)))) with (length items) by lia.
  replace (Z.to_nat (Z.min _ _)) with 0%nat by lia.
  by rewrite Nat.add_0_r, take_0, take_ge, drop_all, app_nil_r by lia.
Qed.

Section RemoveIfGeneral.
Context (f : value → value).
Context (this : loc) (c : constructor) (a : loc) (n : nat).

(** Past the end of the shortened list, with a predicate that accepts
    [undefined], the loop stays where it is. *)
Lemma removeIf_loop_past_end fuel : ∀ h items removed (i : Z),
  truthy (f VUndefined) = true →
  holds h this c a items → Z.of_nat (length items) ≤ i < Z.of_nat n →
  (List.removeIf_loop fuel (pure1 f) (VRef this) i (Z.of_nat n) removed h).1 = OutOfFuel.
Proof.
  intros h items removed i Hu. revert h removed.
  induction fuel as [| fuel IH]; intros h removed H Hi.
  - simpl. by rewrite decide_True by lia.
  - rewrite removeIf_loop_turn by lia.
    step (items_at_holds _ _ _ _ _ i H). rewrite Array_get_ge by lia.
    rewrite bind_run. unfold pure1 at 1. rewrite ret_run, Hu.
    step (items_at_holds _ _ _ _ _ i H).
    step (this_items_holds _ _ _ _ _ H).
    step (array_of_lookup _ _ _ (proj2 H)).
    rewrite splice_past_end by lia.
    step (set_array_lookup _ _ _ items (proj2 H)).
    replace (i - 1 + 1) with i by lia.
    apply IH; [| done]. by eapply holds_set_items.
Qed.

Lemma removeIf_loop_diverges rest : ∀ kept removed fuel h,
  truthy (f VUndefined) = true →
  holds h this c a (kept ++ rest) →
  (length kept + length rest ≤ n)%nat →
  (length kept + length rest < n)%nat ∨ Exists (λ x, truthy (f x) = true) rest →
  (List.removeIf_loop fuel (pure1 f) (VRef this) (Z.of_nat (length kept)) (Z.of_nat n)
     removed h).1 = OutOfFuel.
Proof.
  induction rest as [| x rest IH]; intros kept removed fuel h Hu H Hn Hcase.
  - destruct Hcase as [Hlt | Hex]; [| by apply Exists_nil in Hex].
    rewrite app_nil_r in H. simpl in Hlt.
    apply (removeIf_loop_past_end fuel h kept); [done | done | lia].
  - simpl in Hn. destruct fuel as [| fuel].
    { simpl. by rewrite decide_True by lia. }
    rewrite removeIf_loop_turn by lia.
    assert (Ex : (kept ++ x :: rest) !! length kept = Some x).
    { by rewrite lookup_app_r, Nat.sub_diag. }
    step (items_at_lookup _ _ _ _ _ _ _ H Ex).
    rewrite bind_run. unfold pure1 at 1. rewrite ret_run.
    destruct (truthy (f x)) eqn:Et.
    + step (items_at_lookup _ _ _ _ _ _ _ H Ex).
      step (this_items_holds _ _ _ _ _ H).
      step (array_of_lookup _ _ _ (proj2 H)).
      step (set_array_lookup _ _ _
              (Array_splice (kept ++ x :: rest) (Z.of_nat (length kept)) 1 []).2 (proj2 H)).
      rewrite splice_remove.
      replace (Z.of_nat (length kept) - 1 + 1) with (Z.of_nat (length kept)) by lia.
      apply IH; [done | by eapply holds_set_items | lia | left; lia].
    + replace (Z.of_nat (length kept) + 1) with (Z.of_nat (length (kept ++ [x])))
        by (rewrite length_app; simpl; lia).
      apply IH; [done | by rewrite <- app_assoc | rewrite length_app; simpl; lia |].
      rewrite length_app. simpl.
      destruct Hcase as [Hlt | Hex]; [left; simpl in Hlt; lia |].
      apply Exists_cons in Hex as [Hx | Hex]; [congruence | by right].
Qed.

(** When no item satisfies the predicate the loop reads the items only. *)
Lemma removeIf_loop_none rest : ∀ kept removed fuel h,
  Forall (λ x, truthy (f x) = false) rest →
  holds h this c a (kept ++ rest) →
  (length kept + length rest = n)%nat → (length rest ≤ fuel)%nat →
  List.removeIf_loop fuel (pure1 f) (VRef this) (Z.of_nat (length kept)) (Z.of_nat n)
    removed h = (Ok removed, h).
Proof.
  induction rest as [| x rest IH]; intros kept removed fuel h Hall H Hn Hfuel.
  - simpl in Hn. destruct fuel; simpl; by rewrite decide_False by lia.
  - simpl in Hn, Hfuel. destruct fuel as [| fuel]; [lia |].
    apply Forall_cons in Hall as [Hx Hall].
    rewrite removeIf_loop_turn by lia.
    assert (Ex : (kept ++ x :: rest) !! length kept = Some x).
    { by rewrite lookup_app_r, Nat.sub_diag. }
    step (items_at_lookup _ _ _ _ _ _ _ H Ex).
    rewrite bind_run. unfold pure1 at 1. rewrite ret_run, Hx.
    replace (Z.of_nat (length kept) + 1) with (Z.of_nat (length (kept ++ [x])))
      by (rewrite length_app; simpl; lia).
    apply IH; [done | by rewrite <- app_assoc | rewrite length_app; simpl; lia | lia].
Qed.

End RemoveIfGeneral.

Lemma filter_none (P : value → Prop) `{∀ x, Decision (P x)} (l : list value) :
  Forall (λ x, ¬ P x) l → filter P l = [].
Proof.
  induction 1 as [| x l Hx _ IH]; [done |].
  rewrite filter_cons, decide_False by done. exact IH.
Qed.

Lemma filter_all (P : value → Prop) `{∀ x, Decision (P x)} (l : list value) :
  Forall P l → filter P l = l.
Proof.
  induction 1 as [| x l Hx _ IH]; [done |].
  rewrite filter_cons, decide_True by done. by rewrite IH.
Qed.

Lemma removeIf_finish (p : func) fuel h h1 this c a l kept removed :
  holds h this c a l →
  List.removeIf_loop fuel p (VRef this) 0 (Z.of_nat (length l)) [] h = (Ok removed, h1) →
  holds h1 this c a kept →
  ∃ r a' h',
    List.removeIf fuel p (VRef this) h = (Ok (VRef r), h')
    ∧ holds h' this c a kept
    ∧ holds h' r List_ctor a' removed
    ∧ r ≠ this ∧ a' ≠ a.
Proof.
  intros H E H1. unfold List.removeIf.
  step (size_holds _ _ _ _ _ H). step E.
  destruct (alloc_spec (OArray removed) h1) as (r1 & E1 & F1).
  step E1. unfold List.fromArray.
  destruct (List_fromArray_spec (<[r1:=OArray removed]> h1) r1 removed
              (lookup_insert_eq _ _ _)) as (r' & a' & h' & E' & Hsub & Hr & Fr & Fa).
  assert (Hsub1 : h1 ⊆ <[r1:=OArray removed]> h1) by by apply insert_subseteq.
  exists r', a', h'. split_and!; [done | | done | |].
  - eapply holds_mono; [done |]. by etrans.
  - intros ->. destruct H1 as [E2 _].
    apply (lookup_weaken _ _ _ _ E2) in Hsub1. congruence.
  - intros ->. destruct H1 as [_ E2].
    apply (lookup_weaken _ _ _ _ E2) in Hsub1. congruence.
Qed.

(** X9. With a predicate that has no effect and rejects [undefined], or
    that no item satisfies, [removeIf] ends within twice as many turns as
    the list has items, leaves in the list the items that do not satisfy
    the predicate, in order, and returns a new List, on another backing
    array, of the items that do, in order. *)
Theorem removeIf_removes_matching (f : value → value) fuel h this c a l :
  holds h this c a l →
  truthy (f VUndefined) = false ∨ Forall (λ x, truthy (f x) = false) l →
  (2 * length l ≤ fuel)%nat →
  ∃ r a' h',
    List.removeIf fuel (pure1 f) (VRef this) h = (Ok (VRef r), h')
    ∧ holds h' this c a (filter (λ x, truthy (f x) = false) l)
    ∧ holds h' r List_ctor a' (filter (λ x, truthy (f x) = true) l)
    ∧ r ≠ this ∧ a' ≠ a.
Proof.
  intros H [Hu | Hnone] Hfuel.
  - destruct (removeIf_loop_scan f Hu this c a (length l) l [] [] fuel h)
      as (h1 & E & Hh & _); [done | simpl; lia | simpl; lia |].
    simpl in E, Hh. by eapply removeIf_finish.
  - pose proof (removeIf_loop_none f this c a (length l) l [] [] fuel h Hnone H
                  eq_refl ltac:(lia)) as E.
    simpl in E.
    rewrite (filter_all (λ x, truthy (f x) = false) l Hnone).
    rewrite (filter_none (λ x, truthy (f x) = true) l).
    + by eapply removeIf_finish.
    + eapply Forall_impl; [done |]. simpl. intros x Hx. congruence.
Qed.

Lemma removeIf_removes_matching_witness :
  let even := λ v, match v with VNum n => VBool (Z.even n) | _ => VBool false end in
  let h := single List_ctor one_to_six in
  ∃ r a' h',
    List.removeIf 12 (pure1 even) (VRef this0) h = (Ok (VRef r), h')
    ∧ holds h' this0 List_ctor items0 (filter (λ x, truthy (even x) = false) one_to_six)
    ∧ holds h' r List_ctor a' (filter (λ x, truthy (even x) = true) one_to_six)
    ∧ r ≠ this0 ∧ a' ≠ items0.
Proof.
  intros even h.
  apply (removeIf_removes_matching even 12 h this0 List_ctor items0 one_to_six).
  - apply single_holds.
  - left. reflexivity.
  - simpl. lia.
Defined.

(** X10. With a predicate that has no effect, accepts [undefined] and is
    satisfied by some item, [removeIf] does not return, whatever the
    budget of turns. *)
Theorem removeIf_diverges_when (f : value → value) h this c a l :
  holds h this c a l →
  truthy (f VUndefined) = true →
  Exists (λ x, truthy (f x) = true) l →
  ∀ fuel, (List.removeIf fuel (pure1 f) (VRef this) h).1 = OutOfFuel.
Proof.
  intros H Hu Hex fuel. unfold List.removeIf.
  step (size_holds _ _ _ _ _ H). rewrite bind_run.
  assert (Hd : (List.removeIf_loop fuel (pure1 f) (VRef this) 0 (Z.of_nat (length l))
                  [] h).1 = OutOfFuel).
  { apply (removeIf_loop_diverges f this c a (length l) l [] [] fuel h Hu H);
      [simpl; lia | by right]. }
  destruct (List.removeIf_loop fuel (pure1 f) (VRef this) 0 (Z.of_nat (length l)) [] h)
    as [r h'].
  simpl in Hd. by subst r.
Qed.

Lemma removeIf_diverges_when_witness :
  let falsy := λ v, VBool (negb (truthy v)) in
  (List.removeIf 1000 (pure1 falsy) (VRef this0)
     (single List_ctor [VNum 1; VNum 0; VNum 2])).1 = OutOfFuel.
Proof.
  intros falsy.
  apply (removeIf_diverges_when falsy _ this0 List_ctor items0 [VNum 1; VNum 0; VNum 2]).
  - apply single_holds.
  - reflexivity.
  - right. left. reflexivity.
Defined.

(** * Further properties of Iterable *)

Lemma for_loop_items {A R} (body : nat → A → M (step A R)) (g : nat → value → A → step A R)
    h l :
  ∀ k acc,
    (∀ i x acc, l !! i = Some x → body (k + i)%nat acc h = (Ok (g (k + i)%nat x acc), h)) →
    for_loop body k (length l) acc h = (Ok (scan_items g k l acc), h).
Proof.
  induction l as [| x l IH]; intros k acc Hb; [done |].
  simpl. rewrite <- (Nat.add_0_r k) at 1.
  step (Hb 0%nat x acc eq_refl). rewrite Nat.add_0_r.
  destruct (g k x acc) as [acc' | r]; [| done].
  apply IH. intros i y acc'' E.
  replace (S k + i)%nat with (k + S i)%nat by lia. by apply Hb.
Qed.

(** A call that returns a collection, followed by a call on that
    collection. *)
Lemma returns_bind (m : M value) (k : value → M value) h c xs ys :
  returns m h c xs →
  (∀ h' r a', holds h' r c a' xs → returns (k (VRef r)) h' c ys) →
  returns (m ≫= k) h c ys.
Proof.
  intros (r & a' & h' & E & Hh & Hsub & Fr & Fa) Hk.
  destruct (Hk h' r a' Hh) as (r2 & a2 & h2 & E2 & Hh2 & Hsub2 & Fr2 & Fa2).
  exists r2, a2, h2. step E. split_and!; [done | done | by etrans | |].
  - by eapply lookup_weaken_None.
  - by eapply lookup_weaken_None.
Qed.

Section PureTraversals.
Context (f : value → value).
Context (h : heap) (this : loc) (c : constructor) (a : loc) (l : list value).
Context (H : holds h this c a l).

Let sat (x : value) : Prop := truthy (f x) = true.

Lemma fold_items_filter xs : ∀ k acc,
  fold_items (λ _ x result, if truthy (f x) then result ++ [x] else result) k xs acc
  = acc ++ filter sat xs.
Proof.
  induction xs as [| x xs IH]; intros k acc; simpl.
  - by rewrite app_nil_r.
  - rewrite IH, filter_cons. destruct (decide (sat x)) as [Hs | Hs]; unfold sat in Hs.
    + rewrite Hs. by rewrite <- app_assoc.
    + apply not_true_is_false in Hs. by rewrite Hs.
Qed.

Lemma filter_returns :
  returns (Iterable.filter (pure1 f) (VRef this)) h c (filter sat l).
Proof.
  unfold returns, Iterable.filter.
  step (size_holds _ _ _ _ _ H).
  erewrite bind_ok; last first.
  { apply (for_acc_items _ (λ _ x result, if truthy (f x) then result ++ [x] else result)).
    intros i x acc E. simpl.
    step (invoke_pure1 _ _ _ _ _ f i x VUndefined H E).
    destruct (truthy (f x)); [| done].
    by step (items_at_lookup _ _ _ _ _ i x H E). }
  rewrite fold_items_filter. simpl. by eapply createNew_from_returns.
Qed.

Lemma fold_items_count xs : ∀ k (acc : Z),
  fold_items (λ _ x count, if truthy (f x) then count + 1 else count) k xs acc
  = acc + Z.of_nat (length (filter sat xs)).
Proof.
  induction xs as [| x xs IH]; intros k acc; simpl; [lia |].
  rewrite IH, filter_cons. destruct (decide (sat x)) as [Hs | Hs]; unfold sat in Hs.
  - rewrite Hs. simpl. lia.
  - apply not_true_is_false in Hs. by rewrite Hs.
Qed.

Lemma count_reads :
  reads (Iterable.count (pure1 f) (VRef this)) h (VNum (Z.of_nat (length (filter sat l)))).
Proof.
  unfold reads, Iterable.count.
  step (size_holds _ _ _ _ _ H).
  erewrite bind_ok; last first.
  { apply (for_acc_items _ (λ _ x count, if truthy (f x) then count + 1 else count)).
    intros i x acc E. simpl.
    by step (invoke_pure1 _ _ _ _ _ f i x VUndefined H E). }
  by rewrite fold_items_count.
Qed.

(** X11. With a predicate that has no effect, [filter] returns a new
    collection of the receiver's kind with the items that satisfy the
    predicate, in their order, and [count] returns how many they are,
    leaving the store as it is. *)
Theorem filter_and_count :
  returns (Iterable.filter (pure1 f) (VRef this)) h c (filter sat l)
  ∧ reads (Iterable.count (pure1 f) (VRef this)) h (VNum (Z.of_nat (length (filter sat l)))).
Proof. split; [apply filter_returns | apply count_reads]. Qed.

Lemma scan_items_some xs : ∀ k,
  scan_items (λ _ x (_ : ()), if truthy (f x) then Return (VBool true) else Next ()) k xs ()
  = if existsb (λ x, truthy (f x)) xs then Return (VBool true) else Next ().
Proof.
  induction xs as [| x xs IH]; intros k; simpl; [done |].
  destruct (truthy (f x)); [done | apply IH].
Qed.

Lemma scan_items_every xs : ∀ k,
  scan_items (λ _ x (_ : ()), if negb (truthy (f x)) then Return (VBool false) else Next ())
    k xs ()
  = if forallb (λ x, truthy (f x)) xs then Next () else Return (VBool false).
Proof.
  induction xs as [| x xs IH]; intros k; simpl; [done |].
  destruct (truthy (f x)); [apply IH | done].
Qed.

(** X12. With a predicate that has no effect, [some] answers whether an
    item satisfies it and [every] whether all do, as booleans and without
    changing the store; on an empty collection [some] is [false] and
    [every] is [true]. *)
Theorem some_and_every :
  reads (Iterable.some (pure1 f) (VRef this)) h (VBool (existsb (λ x, truthy (f x)) l))
  ∧ reads (Iterable.every (pure1 f) (VRef this)) h (VBool (forallb (λ x, truthy (f x)) l)).
Proof.
  unfold reads, Iterable.some, Iterable.every. split.
  - step (size_holds _ _ _ _ _ H).
    erewrite bind_ok; last first.
    { apply (for_loop_items _
               (λ _ x (_ : ()), if truthy (f x) then Return (VBool true) else Next ())).
      intros i x acc E. simpl.
      step (invoke_pure1 _ _ _ _ _ f i x VUndefined H E). by destruct (truthy (f x)). }
    rewrite scan_items_some. by destruct (existsb _ l).
  - step (size_holds _ _ _ _ _ H).
    erewrite bind_ok; last first.
    { apply (for_loop_items _
               (λ _ x (_ : ()), if negb (truthy (f x)) then Return (VBool false)
                                else Next ())).
      intros i x acc E. simpl.
      step (invoke_pure1 _ _ _ _ _ f i x VUndefined H E). by destruct (truthy (f x)). }
    rewrite scan_items_every. by destruct (forallb _ l).
Qed.

End PureTraversals.

Lemma filter_and_count_witness :
  let small := λ v, match v with VNum n => VBool (n <? 3) | _ => VBool false end in
  let h := single SimpleIterable_ctor one_to_six in
  returns (Iterable.filter (pure1 small) (VRef this0)) h SimpleIterable_ctor
    (filter (λ x, truthy (small x) = true) one_to_six)
  ∧ reads (Iterable.count (pure1 small) (VRef this0)) h
      (VNum (Z.of_nat (length (filter (λ x, truthy (small x) = true) one_to_six)))).
Proof.
  intros small h.
  exact (filter_and_count small h this0 SimpleIterable_ctor items0 one_to_six
           (single_holds _ _)).
Defined.

Lemma some_and_every_witness :
  let is_two := λ v, VBool (strict_eq v (VNum 2)) in
  let h := single SimpleIterable_ctor one_to_six in
  reads (Iterable.some (pure1 is_two) (VRef this0)) h
    (VBool (existsb (λ x, truthy (is_two x)) one_to_six))
  ∧ reads (Iterable.every (pure1 is_two) (VRef this0)) h
      (VBool (forallb (λ x, truthy (is_two x)) one_to_six)).
Proof.
  intros is_two h.
  exact (some_and_every is_two h this0 SimpleIterable_ctor items0 one_to_six
           (single_holds _ _)).
Defined.

Section Partition.
Context (f : value → value).
Context (h : heap) (this : loc) (c : constructor) (a : loc) (l : list value).
Context (H : holds h this c a l).

Let yes_of (xs : list value) : list value := filter (λ x, truthy (f x) = true) xs.
Let no_of (xs : list value) : list value := filter (λ x, truthy (f x) = false) xs.

Lemma fold_items_partition xs : ∀ k (acc : list value * list value),
  fold_items (λ _ x '(yes, no), if truthy (f x) then (yes ++ [x], no) else (yes, no ++ [x]))
    k xs acc
  = (acc.1 ++ yes_of xs, acc.2 ++ no_of xs).
Proof.
  induction xs as [| x xs IH]; intros k [yes no]; simpl.
  - by rewrite !app_nil_r.
  - unfold yes_of, no_of. rewrite !filter_cons. fold yes_of no_of.
    destruct (truthy (f x)) eqn:E; rewrite IH; simpl; by rewrite <- app_assoc.
Qed.

Lemma yes_no_permutation xs : yes_of xs ++ no_of xs ≡ₚ xs.
Proof.
  induction xs as [| x xs IH]; [done |].
  unfold yes_of, no_of. rewrite !filter_cons. fold yes_of no_of.
  destruct (truthy (f x)) eqn:E; simpl; fold (yes_of xs) (no_of xs).
  - by rewrite IH.
  - rewrite <- Permutation_middle. by rewrite IH.
Qed.

(** X13. With a predicate that has no effect, [partition] returns an
    array of two new collections of the receiver's kind, on two new
    backing arrays: first the items that satisfy the predicate, then the
    items that do not, each in the original order; between them they hold
    every item as many times as the receiver does, and the receiver is as
    it was. *)
Theorem partition_splits :
  ∃ pair y ay n an h',
    Iterable.partition (pure1 f) (VRef this) h = (Ok (VRef pair), h')
    ∧ h' !! pair = Some (OArray [VRef y; VRef n])
    ∧ holds h' y c ay (yes_of l)
    ∧ holds h' n c an (no_of l)
    ∧ holds h' this c a l
    ∧ ay ≠ an ∧ ay ≠ a ∧ an ≠ a
    ∧ yes_of l ++ no_of l ≡ₚ l.
Proof.
  unfold Iterable.partition.
  step (size_holds _ _ _ _ _ H).
  erewrite bind_ok; last first.
  { apply (for_acc_items _
             (λ _ x '(yes, no), if truthy (f x) then (yes ++ [x], no) else (yes, no ++ [x]))).
    intros i x [yes no] E. simpl.
    step (invoke_pure1 _ _ _ _ _ f i x VUndefined H E).
    by step (items_at_lookup _ _ _ _ _ i x H E). }
  rewrite fold_items_partition. simpl.
  destruct (createNew_from_returns h this c a l (yes_of l) H)
    as (y & ay & h1 & E1 & Hy & Hsub1 & Fy & Fay).
  step E1.
  assert (H1 : holds h1 this c a l) by by eapply holds_mono.
  destruct (createNew_from_returns h1 this c a l (no_of l) H1)
    as (n & an & h2 & E2 & Hn & Hsub2 & Fn & Fan).
  step E2.
  destruct (alloc_spec (OArray [VRef y; VRef n]) h2) as (pair & E3 & Fp).
  rewrite E3.
  assert (Hsub3 : h2 ⊆ <[pair:=OArray [VRef y; VRef n]]> h2) by by apply insert_subseteq.
  exists pair, y, ay, n, an, (<[pair:=OArray [VRef y; VRef n]]> h2).
  split_and!; [done | | | | | | | |].
  - by rewrite lookup_insert_eq.
  - eapply holds_mono; [| done]. by eapply holds_mono.
  - by eapply holds_mono.
  - eapply holds_mono; [| done]. by eapply holds_mono.
  - intros ->. destruct Hy as [_ Ey]. congruence.
  - intros ->. destruct H as [_ Ea]. congruence.
  - intros ->. destruct H1 as [_ Ea]. congruence.
  - apply yes_no_permutation.
Qed.

End Partition.

Lemma partition_splits_witness :
  let even := λ v, match v with VNum n => VBool (Z.even n) | _ => VBool false end in
  let h := single List_ctor one_to_six in
  ∃ pair y ay n an h',
    Iterable.partition (pure1 even) (VRef this0) h = (Ok (VRef pair), h')
    ∧ h' !! pair = Some (OArray [VRef y; VRef n])
    ∧ holds h' y List_ctor ay (filter (λ x, truthy (even x) = true) one_to_six)
    ∧ holds h' n List_ctor an (filter (λ x, truthy (even x) = false) one_to_six)
    ∧ holds h' this0 List_ctor items0 one_to_six
    ∧ ay ≠ an ∧ ay ≠ items0 ∧ an ≠ items0
    ∧ filter (λ x, truthy (even x) = true) one_to_six
      ++ filter (λ x, truthy (even x) = false) one_to_six ≡ₚ one_to_six.
Proof.
  intros even h.
  exact (partition_splits even h this0 List_ctor items0 one_to_six (single_holds _ _)).
Defined.

Lemma for_loop_turn {A R} (body : nat → A → M (step A R)) i n acc :
  for_loop body i (S n) acc =
    (s ← body i acc;
     match s with
     | Next acc' => for_loop body (S i) n acc'
     | Return r => mret (Return r)
     end).
Proof. reflexivity. Qed.

Section Find.
Context (p : func) (h : heap) (this : loc) (c : constructor) (a : loc).

Let body : nat → () → M (step () value) :=
  λ i _,
    b ← Iterable._invoke p i VUndefined (VRef this);
    if truthy b then x ← Iterable.items_at (Z.of_nat i) (VRef this); mret (Return x)
    else mret (Next ()).

Lemma find_body l i x b :
  holds h this c a l → l !! i = Some x → answers p h b x →
  body i () h = (Ok (if b then Return x else Next ()), h).
Proof.
  intros H E (v & Ev & Hv). unfold body, Iterable._invoke.
  step (items_at_lookup _ _ _ _ _ _ _ H E). step Ev. rewrite Hv.
  destruct b; [| done]. by step (items_at_lookup _ _ _ _ _ _ _ H E).
Qed.

Lemma find_loop_match pre : ∀ seen x post,
  holds h this c a (seen ++ pre ++ x :: post) →
  Forall (answers p h false) pre → answers p h true x →
  for_loop body (length seen) (length (pre ++ x :: post)) () h = (Ok (Return x), h).
Proof.
  induction pre as [| y pre IH]; intros seen x post H Hpre Hx.
  - change (length ([] ++ x :: post)) with (S (length post)).
    change ([] ++ x :: post) with (x :: post) in H.
    assert (E : (seen ++ x :: post) !! length seen = Some x).
    { by rewrite lookup_app_r, Nat.sub_diag. }
    rewrite for_loop_turn. by step (find_body _ _ _ true H E Hx).
  - apply Forall_cons in Hpre as [Hy Hpre].
    change (length ((y :: pre) ++ x :: post)) with (S (length (pre ++ x :: post))).
    assert (E : (seen ++ (y :: pre) ++ x :: post) !! length seen = Some y).
    { by rewrite lookup_app_r, Nat.sub_diag. }
    rewrite for_loop_turn. step (find_body _ _ _ false H E Hy).
    replace (S (length seen)) with (length (seen ++ [y]))
      by (rewrite length_app; simpl; lia).
    apply IH; [| done | done]. by rewrite <- app_assoc.
Qed.

Lemma find_loop_none rest : ∀ seen,
  holds h this c a (seen ++ rest) →
  Forall (answers p h false) rest →
  for_loop body (length seen) (length rest) () h = (Ok (Next ()), h).
Proof.
  induction rest as [| y rest IH]; intros seen H Hrest; [done |].
  apply Forall_cons in Hrest as [Hy Hrest].
  change (length (y :: rest)) with (S (length rest)).
  assert (E : (seen ++ y :: rest) !! length seen = Some y).
  { by rewrite lookup_app_r, Nat.sub_diag. }
  rewrite for_loop_turn. step (find_body _ _ _ false H E Hy).
  replace (S (length seen)) with (length (seen ++ [y]))
    by (rewrite length_app; simpl; lia).
  apply IH; [| done]. by rewrite <- app_assoc.
Qed.

(** X14. [find] returns the first item that the predicate accepts and
    calls the predicate on no item after it: what the predicate would do
    there, throw or change the store, does not matter.  When the
    predicate rejects every item, [find] returns [undefined].  The store
    is left as it is. *)
Theorem find_first_match l :
  holds h this c a l →
  (∀ pre x post, l = pre ++ x :: post →
     Forall (answers p h false) pre → answers p h true x →
     reads (Iterable.find p (VRef this)) h x)
  ∧ (Forall (answers p h false) l → reads (Iterable.find p (VRef this)) h VUndefined).
Proof.
  intros H. unfold reads, Iterable.find. split.
  - intros pre x post -> Hpre Hx.
    step (size_holds _ _ _ _ _ H).
    pose proof (find_loop_match pre [] x post H Hpre Hx) as E. by step E.
  - intros Hall.
    step (size_holds _ _ _ _ _ H).
    pose proof (find_loop_none l [] H Hall) as E. by step E.
Qed.

End Find.

Lemma find_first_match_witness :
  let throws_past_two : func :=
    λ x _, match x with
           | VNum 1 => mret (VBool false)
           | VNum 2 => mret (VBool true)
           | _ => throw (Error "not reached")
           end in
  let h := single SimpleIterable_ctor one_to_six in
  reads (Iterable.find throws_past_two (VRef this0)) h (VNum 2).
Proof.
  intros p h.
  destruct (find_first_match p h this0 SimpleIterable_ctor items0 one_to_six
              (single_holds _ _)) as [Hm _].
  apply (Hm [VNum 1] (VNum 2) (VNum <$> [3; 4; 5; 6])).
  - reflexivity.
  - constructor; [| constructor]. by exists (VBool false).
  - by exists (VBool true).
Defined.

Lemma invoke_pure2 h this c a l g i x e :
  holds h this c a l → l !! i = Some x →
  Iterable._invoke (pure2 g) i e (VRef this) h = (Ok (g x e), h).
Proof.
  intros H E. unfold Iterable._invoke.
  by step (items_at_lookup _ _ _ _ _ _ _ H E).
Qed.

Lemma fold_items_fold_left (g : value → value → value) xs : ∀ k acc,
  fold_items (λ _ x result, g x result) k xs acc = fold_left (λ result x, g x result) xs acc.
Proof. induction xs as [| x xs IH]; intros k acc; simpl; [done | apply IH]. Qed.

(** X15. With an operator that has no effect, [fold] is the fold from the
    left over the items, starting from the initial value; the operator is
    called with the item first and the value folded so far second.  On an
    empty collection the initial value comes back.  The store is left as
    it is. *)
Theorem fold_from_the_left (g : value → value → value) h this c a l initialValue :
  holds h this c a l →
  reads (Iterable.fold initialValue (pure2 g) (VRef this)) h
    (fold_left (λ result x, g x result) l initialValue).
Proof.
  intros H. unfold reads, Iterable.fold.
  step (size_holds _ _ _ _ _ H).
  rewrite <- (fold_items_fold_left g l 0%nat).
  apply (for_acc_items _ (λ _ x result, g x result)).
  intros i x acc E. simpl. by apply (invoke_pure2 _ _ c a l).
Qed.

Lemma fold_from_the_left_witness :
  let minus := λ x result, match x, result with
                           | VNum n, VNum m => VNum (n - m)
                           | _, _ => VUndefined
                           end in
  let h := single List_ctor (VNum <$> [1; 2; 3]) in
  reads (Iterable.fold (VNum 0) (pure2 minus) (VRef this0)) h
    (fold_left (λ result x, minus x result) (VNum <$> [1; 2; 3]) (VNum 0))
  ∧ fold_left (λ result x, minus x result) (VNum <$> [1; 2; 3]) (VNum 0) = VNum 2.
Proof.
  intros minus h. split; [| reflexivity].
  exact (fold_from_the_left minus h this0 List_ctor items0 _ (VNum 0) (single_holds _ _)).
Defined.

Lemma for_acc_turn {A} (body : nat → A → M A) i n acc :
  for_acc body i (S n) acc = (acc' ← body i acc; for_acc body (S i) n acc').
Proof. reflexivity. Qed.

Section Each.
Context (h : heap) (this : loc) (c : constructor) (a : loc) (log : loc).
Context (Hthis : log ≠ this) (Ha : log ≠ a).

Lemma logger_run seen x y :
  logger log x y (<[log:=OArray seen]> h)
  = (Ok VUndefined, <[log:=OArray (seen ++ [x; y])]> h).
Proof.
  unfold logger.
  step (array_of_lookup _ _ _ (lookup_insert_eq h log (OArray seen))).
  rewrite bind_run. unfold set_array at 1. rewrite lookup_insert_eq.
  by rewrite insert_insert_eq.
Qed.

Lemma each_loop rest : ∀ pre seen,
  holds h this c a (pre ++ rest) →
  for_acc (λ i _,
      Iterable._invoke (logger log) i (VNum (Z.of_nat i)) (VRef this);; mret ())
    (length pre) (length rest) () (<[log:=OArray seen]> h)
  = (Ok (), <[log:=OArray (seen ++ each_arguments (length pre) rest)]> h).
Proof.
  induction rest as [| x rest IH]; intros pre seen H.
  - simpl. by rewrite app_nil_r.
  - assert (E : (pre ++ x :: rest) !! length pre = Some x).
    { by rewrite lookup_app_r, Nat.sub_diag. }
    assert (H' : holds (<[log:=OArray seen]> h) this c a (pre ++ x :: rest)).
    { destruct H as [E1 E2]. split; by rewrite lookup_insert_ne. }
    assert (Eb : (Iterable._invoke (logger log) (length pre) (VNum (Z.of_nat (length pre)))
                    (VRef this);; mret ()) (<[log:=OArray seen]> h)
                 = (Ok (), <[log:=OArray (seen ++ [x; VNum (Z.of_nat (length pre))])]> h)).
    { unfold Iterable._invoke.
      step (items_at_lookup _ _ _ _ _ _ _ H' E).
      by step (logger_run seen x (VNum (Z.of_nat (length pre)))). }
    change (length (x :: rest)) with (S (length rest)).
    rewrite for_acc_turn. cbv beta. rewrite (bind_ok _ _ _ _ _ Eb).
    replace (S (length pre)) with (length (pre ++ [x]))
      by (rewrite length_app; simpl; lia).
    rewrite IH by by rewrite <- app_assoc.
    rewrite length_app, <- app_assoc. simpl.
    by replace (length pre + 1)%nat with (S (length pre)) by lia.
Qed.

(** X16. [each] calls the callback once for every item, from the first
    to the last, with the item and its index, and returns [undefined]:
    a callback that records its arguments in an array of its own appends,
    in this order, each item followed by its index.  The receiver is left
    as it is. *)
Theorem each_visits_in_order l seen :
  holds h this c a l → h !! log = Some (OArray seen) →
  Iterable.each (logger log) (VRef this) h
  = (Ok VUndefined, <[log:=OArray (seen ++ each_arguments 0 l)]> h).
Proof.
  intros H Hlog. unfold Iterable.each.
  step (size_holds _ _ _ _ _ H).
  rewrite <- (insert_id h log (OArray seen) Hlog) at 1.
  pose proof (each_loop l [] seen H) as E. simpl in E.
  by step E.
Qed.

End Each.

Lemma each_visits_in_order_witness :
  let log := 50%positive in
  let l := [VStr "a"; VStr "b"] in
  let h := <[log:=OArray []]> (single List_ctor l) in
  Iterable.each (logger log) (VRef this0) h
  = (Ok VUndefined, <[log:=OArray ([] ++ each_arguments 0 l)]> h)
  ∧ each_arguments 0 l = [VStr "a"; VNum 0; VStr "b"; VNum 1].
Proof.
  intros log l h. split; [| reflexivity].
  apply (each_visits_in_order h this0 List_ctor items0 log); [done | done | | done].
  split; reflexivity.
Defined.

Lemma take_drop_while (P : value → bool) (l : list value) :
  take_while P l ++ drop_while P l = l.
Proof.
  induction l as [| x l IH]; simpl; [done |].
  destruct (P x); simpl; [by rewrite IH | done].
Qed.

Section While.
Context (f : value → value).
Context (h : heap) (this : loc) (c : constructor) (a : loc).

Let P (x : value) : bool := truthy (f x).

Let taking : nat → value → list value → step (list value) (list value) :=
  λ _ x result, if truthy (f x) then Next (result ++ [x]) else Return result.

Lemma scan_items_takeWhile xs : ∀ k acc,
  scan_items taking k xs acc = Next (acc ++ take_while P xs)
  ∨ scan_items taking k xs acc = Return (acc ++ take_while P xs).
Proof.
  induction xs as [| x xs IH]; intros k acc; simpl.
  - left. by rewrite app_nil_r.
  - unfold taking at 1 3, P. destruct (truthy (f x)).
    + specialize (IH (S k) (acc ++ [x])). by rewrite <- app_assoc in IH.
    + right. by rewrite app_nil_r.
Qed.

Lemma takeWhile_returns l :
  holds h this c a l →
  returns (Iterable.takeWhile (pure1 f) (VRef this)) h c (take_while P l).
Proof.
  intros H. unfold returns, Iterable.takeWhile.
  step (size_holds _ _ _ _ _ H).
  erewrite bind_ok; last first.
  { apply (for_loop_items _ taking).
    intros i x acc E. unfold taking. simpl.
    step (invoke_pure1 _ _ _ _ _ f i x VUndefined H E).
    destruct (truthy (f x)); [| done].
    by step (items_at_lookup _ _ _ _ _ i x H E). }
  destruct (scan_items_takeWhile l 0%nat []) as [-> | ->]; simpl;
    by eapply createNew_from_returns.
Qed.

Lemma dropWhile_loop_run rest : ∀ pre,
  holds h this c a (pre ++ rest) →
  Iterable.dropWhile_loop (pure1 f) (VRef this) rest (length pre) h
  = (Ok (drop_while P rest), h).
Proof.
  induction rest as [| x rest IH]; intros pre H; [done |].
  assert (E : (pre ++ x :: rest) !! length pre = Some x).
  { by rewrite lookup_app_r, Nat.sub_diag. }
  simpl. step (invoke_pure1 _ _ _ _ _ f _ x VUndefined H E).
  unfold P. destruct (truthy (f x)); [| done].
  replace (S (length pre)) with (length (pre ++ [x]))
    by (rewrite length_app; simpl; lia).
  apply IH. by rewrite <- app_assoc.
Qed.

Lemma dropWhile_returns l :
  holds h this c a l →
  returns (Iterable.dropWhile (pure1 f) (VRef this)) h c (drop_while P l).
Proof.
  intros H. unfold returns, Iterable.dropWhile.
  step (this_items_holds _ _ _ _ _ H). step (array_of_lookup _ _ _ (proj2 H)).
  rewrite slice_all.
  step (dropWhile_loop_run l [] H).
  by eapply createNew_from_returns.
Qed.

(** X17. With a predicate that has no effect, [takeWhile] returns the
    longest run of items from the start that satisfy the predicate and
    [dropWhile] the items from the first that does not satisfy it on:
    one after the other they are the items of the receiver.  Both results
    are new collections of the receiver's kind. *)
Theorem takeWhile_dropWhile_split l :
  holds h this c a l →
  returns (Iterable.takeWhile (pure1 f) (VRef this)) h c (take_while P l)
  ∧ returns (Iterable.dropWhile (pure1 f) (VRef this)) h c (drop_while P l)
  ∧ take_while P l ++ drop_while P l = l.
Proof.
  intros H. split_and!;
    [by apply takeWhile_returns | by apply dropWhile_returns | apply take_drop_while].
Qed.

End While.

Lemma takeWhile_dropWhile_split_witness :
  let small := λ v, match v with VNum n => VBool (n <? 3) | _ => VBool false end in
  let l := VNum <$> [1; 2; 5; 1] in
  let h := single List_ctor l in
  (returns (Iterable.takeWhile (pure1 small) (VRef this0)) h List_ctor
     (take_while (λ x, truthy (small x)) l)
   ∧ returns (Iterable.dropWhile (pure1 small) (VRef this0)) h List_ctor
       (drop_while (λ x, truthy (small x)) l)
   ∧ take_while (λ x, truthy (small x)) l ++ drop_while (λ x, truthy (small x)) l = l)
  ∧ take_while (λ x, truthy (small x)) l = VNum <$> [1; 2]
  ∧ drop_while (λ x, truthy (small x)) l = VNum <$> [5; 1].
Proof.
  intros small l h. split; [| split; reflexivity].
  exact (takeWhile_dropWhile_split small h this0 List_ctor items0 l (single_holds _ _)).
Defined.

(** X18. Reversing twice gives back the items in their order, in a new
    collection of the receiver's kind. *)
Theorem reverse_twice h this c a l :
  holds h this c a l →
  returns (r ← Iterable.reverse (VRef this); Iterable.reverse r) h c l.
Proof.
  intros H. rewrite <- (rev_involutive l).
  eapply returns_bind; [by eapply reverse_returns |].
  intros h' r a' H'. by eapply reverse_returns.
Qed.

Lemma reverse_twice_witness :
  returns (r ← Iterable.reverse (VRef this0); Iterable.reverse r)
    (single SimpleIterable_ctor one_to_six) SimpleIterable_ctor one_to_six.
Proof. exact (reverse_twice _ this0 _ items0 _ (single_holds _ _)). Defined.

Lemma toList_returns h this c a l :
  holds h this c a l → returns (Iterable.toList (VRef this)) h List_ctor l.
Proof.
  intros H. unfold returns, Iterable.toList.
  step (this_items_holds _ _ _ _ _ H).
  destruct (List_fromArray_spec h a l (proj2 H)) as (r' & a' & h' & E & Hsub & Hh & F1 & F2).
  by exists r', a', h'.
Qed.

Lemma add_to_returned (m : M value) item h this c a l xs :
  holds h this c a l → returns m h List_ctor xs →
  ∃ r a' h', (r ← m; List.add item r) h = (Ok (VRef r), h')
             ∧ holds h' r List_ctor a' (xs ++ [item]) ∧ holds h' this c a l.
Proof.
  intros H (r & a' & h1 & E & Hr & Hsub & Fr & Fa).
  exists r, a', (<[a':=OArray (xs ++ [item])]> h1). split_and!.
  - step E. by eapply add_run.
  - by eapply holds_set_items.
  - destruct (holds_mono _ _ _ _ _ _ H Hsub) as [E1 E2].
    destruct H as [E3 E4].
    split; rewrite lookup_insert_ne; try done; congruence.
Qed.

(** X19. The copies do not share their items with the receiver.  After
    [toList], and after [clone] of a List, an item added to the result is
    in the result and not in the receiver; [toArray] returns a new array
    with the items and changes nothing else. *)
Theorem copies_are_independent h this c a l item :
  holds h this c a l →
  (∃ r a' h', (r ← Iterable.toList (VRef this); List.add item r) h = (Ok (VRef r), h')
              ∧ holds h' r List_ctor a' (l ++ [item]) ∧ holds h' this c a l)
  ∧ (c = List_ctor →
     ∃ r a' h', (r ← Iterable.clone (VRef this); List.add item r) h = (Ok (VRef r), h')
                ∧ holds h' r List_ctor a' (l ++ [item]) ∧ holds h' this c a l)
  ∧ (∃ r, Iterable.toArray (VRef this) h = (Ok (VRef r), <[r:=OArray l]> h)
          ∧ h !! r = None).
Proof.
  intros H. split_and!.
  - eapply add_to_returned; [done | by eapply toList_returns].
  - intros ->. eapply add_to_returned; [done | by eapply clone_returns].
  - unfold Iterable.toArray, cloneArray.
    destruct (alloc_spec (OArray l) h) as (r & E & F). exists r. split; [| done].
    step (this_items_holds _ _ _ _ _ H). by step (array_of_lookup _ _ _ (proj2 H)).
Qed.

Lemma copies_are_independent_witness :
  let h := single List_ctor one_to_six in
  (∃ r a' h', (r ← Iterable.toList (VRef this0); List.add (VNum 7) r) h = (Ok (VRef r), h')
              ∧ holds h' r List_ctor a' (one_to_six ++ [VNum 7])
              ∧ holds h' this0 List_ctor items0 one_to_six)
  ∧ (List_ctor = List_ctor →
     ∃ r a' h', (r ← Iterable.clone (VRef this0); List.add (VNum 7) r) h = (Ok (VRef r), h')
                ∧ holds h' r List_ctor a' (one_to_six ++ [VNum 7])
                ∧ holds h' this0 List_ctor items0 one_to_six)
  ∧ (∃ r, Iterable.toArray (VRef this0) h = (Ok (VRef r), <[r:=OArray one_to_six]> h)
          ∧ h !! r = None).
Proof.
  intros h.
  exact (copies_are_independent h this0 List_ctor items0 one_to_six (VNum 7)
           (single_holds _ _)).
Defined.

(** X20. Reading an item never throws: [first] and [last] return the
    first and the last item, and [undefined] on an empty collection;
    [itemAt] returns the item at an index inside the collection and
    [undefined] at any other integer.  The store is left as it is. *)
Theorem item_access h this c a l index :
  holds h this c a l →
  reads (Iterable.first (VRef this)) h (default VUndefined (head l))
  ∧ reads (Iterable.last (VRef this)) h (default VUndefined (last l))
  ∧ (∀ i x, l !! i = Some x → reads (Iterable.itemAt (Z.of_nat i) (VRef this)) h x)
  ∧ (index < 0 ∨ Z.of_nat (length l) ≤ index →
     reads (Iterable.itemAt index (VRef this)) h VUndefined).
Proof.
  intros H. unfold reads, Iterable.first, Iterable.last, Iterable.itemAt. split_and!.
  - rewrite (items_at_holds _ _ _ _ _ _ H). by destruct l.
  - step (this_items_holds _ _ _ _ _ H). step (array_of_lookup _ _ _ (proj2 H)).
    rewrite ret_run. do 2 f_equal. unfold Array_get.
    destruct l as [| x l'] using rev_ind; [done |].
    rewrite last_snoc, length_app. simpl. rewrite decide_True by lia.
    replace (Z.to_nat _) with (length l') by lia.
    by rewrite lookup_app_r, Nat.sub_diag.
  - intros i x E. by apply (items_at_lookup _ _ c a l).
  - intros Hi. rewrite (items_at_holds _ _ _ _ _ _ H). do 2 f_equal.
    destruct Hi as [Hi | Hi]; [| by apply Array_get_ge].
    unfold Array_get. by rewrite decide_False by lia.
Qed.

Lemma item_access_witness :
  let h := single List_ctor one_to_six in
  reads (Iterable.first (VRef this0)) h (default VUndefined (head one_to_six))
  ∧ reads (Iterable.last (VRef this0)) h (default VUndefined (last one_to_six))
  ∧ (∀ i x, one_to_six !! i = Some x → reads (Iterable.itemAt (Z.of_nat i) (VRef this0)) h x)
  ∧ (6 < 0 ∨ Z.of_nat (length one_to_six) ≤ 6 →
     reads (Iterable.itemAt 6 (VRef this0)) h VUndefined).
Proof.
  intros h. exact (item_access h this0 List_ctor items0 one_to_six 6 (single_holds _ _)).
Defined.

Lemma slice_to_min (l : list value) (n : Z) :
  Array_slice l 0 (Some (Z.min n (Z.of_nat (length l)))) = Array_slice l 0 (Some n).
Proof.
  rewrite !slice_to. f_equal. unfold relative_index. repeat case_decide; lia.
Qed.

Lemma slice_from_min (l : list value) (n : Z) :
  Array_slice l (Z.min n (Z.of_nat (length l))) None = Array_slice l n None.
Proof.
  rewrite !slice_from. f_equal. unfold relative_index. repeat case_decide; lia.
Qed.

(** X21. For every integer [n], [take(n)] is [slice(0, n)] and [drop(n)]
    is [slice(n)], and the two cut the items at the same place: the items
    of [take(n)] followed by those of [drop(n)] are the items of the
    receiver. *)
Theorem take_and_drop_are_slices h this c a l n :
  holds h this c a l →
  Iterable.take n (VRef this) h = Iterable.slice 0 (Some n) (VRef this) h
  ∧ Iterable.drop n (VRef this) h = Iterable.slice n None (VRef this) h
  ∧ ∃ k, returns (Iterable.take n (VRef this)) h c (take k l)
         ∧ returns (Iterable.drop n (VRef this)) h c (drop k l).
Proof.
  intros H. split_and!.
  - unfold Iterable.take, Iterable.slice.
    step (this_items_holds _ _ _ _ _ H). step (array_of_lookup _ _ _ (proj2 H)).
    step (this_items_holds _ _ _ _ _ H). step (array_of_lookup _ _ _ (proj2 H)).
    by rewrite slice_to_min.
  - unfold Iterable.drop, Iterable.slice.
    step (this_items_holds _ _ _ _ _ H). step (array_of_lookup _ _ _ (proj2 H)).
    step (this_items_holds _ _ _ _ _ H). step (array_of_lookup _ _ _ (proj2 H)).
    by rewrite slice_from_min.
  - exists (relative_index (Z.min n (Z.of_nat (length l))) (length l)).
    rewrite <- slice_to, <- slice_from.
    split; [by eapply take_returns | by eapply drop_returns].
Qed.

Lemma take_and_drop_are_slices_witness :
  let h := single List_ctor one_to_six in
  Iterable.take (-2) (VRef this0) h = Iterable.slice 0 (Some (-2)) (VRef this0) h
  ∧ Iterable.drop (-2) (VRef this0) h = Iterable.slice (-2) None (VRef this0) h
  ∧ ∃ k, returns (Iterable.take (-2) (VRef this0)) h List_ctor (take k one_to_six)
         ∧ returns (Iterable.drop (-2) (VRef this0)) h List_ctor (drop k one_to_six).
Proof.
  intros h.
  exact (take_and_drop_are_slices h this0 List_ctor items0 one_to_six (-2) (single_holds _ _)).
Defined.

(** * getPluckFunction, pluck and findBy *)

Lemma split_dot_not_nil s : split_dot s ≠ [].
Proof.
  induction s as [| ch s IH]; simpl; [done |].
  destruct (Ascii.eqb ch "."); [done |]. by destruct (split_dot s).
Qed.

Lemma get_prop_not_null item name h :
  loose_eq_null item = false → ∃ v, get_prop item name h = (Ok v, h).
Proof.
  intros Hn. unfold get_prop. destruct item; try done; try by eexists.
  destruct (h !! _) as [[] |]; by eexists.
Qed.

Lemma get_prop_null item name h :
  loose_eq_null item = true → ∃ e, get_prop item name h = (Throw e, h).
Proof. intros Hn. unfold get_prop. destruct item; try done; by eexists. Qed.

Lemma pluck_chain_total chain : ∀ item h, ∃ v, pluck_chain chain item h = (Ok v, h).
Proof.
  induction chain as [| name chain IH]; intros item h; simpl; [by eexists |].
  destruct (loose_eq_null item) eqn:En; [by eexists |].
  destruct (get_prop_not_null item name h En) as (v & Ev).
  step Ev. apply IH.
Qed.

Lemma pluck_chain_null name chain item h :
  loose_eq_null item = true → pluck_chain (name :: chain) item h = (Ok VUndefined, h).
Proof. intros Hn. simpl. by rewrite Hn. Qed.

Lemma first_null (l : list value) :
  Exists (λ x, loose_eq_null x = true) l →
  ∃ pre x post, l = pre ++ x :: post ∧ Forall (λ x, loose_eq_null x = false) pre
                ∧ loose_eq_null x = true.
Proof.
  induction l as [| y l IH]; intros Hex; [by apply Exists_nil in Hex |].
  destruct (loose_eq_null y) eqn:Ey.
  - by exists [], y, l.
  - apply Exists_cons in Hex as [Hy | Hex]; [congruence |].
    destruct (IH Hex) as (pre & x & post & -> & Hpre & Hx).
    exists (y :: pre), x, post. split_and!; [done | by constructor | done].
Qed.

Section Pluck.
Context (property : string).
Context (h : heap) (this : loc) (c : constructor) (a : loc).

Let body : nat → list value → M (list value) :=
  λ i result,
    x ← Iterable.items_at (Z.of_nat i) (VRef this);
    y ← getPluckFunction property x VUndefined;
    mret (result ++ [y]).

Lemma plucked_ok x v :
  getPluckFunction property x VUndefined h = (Ok v, h) → plucked property h x = v.
Proof. intros E. unfold plucked. by rewrite E. Qed.

Lemma pluck_loop rest : ∀ seen result,
  holds h this c a (seen ++ rest) →
  Forall (λ x, ∃ v, getPluckFunction property x VUndefined h = (Ok v, h)) rest →
  for_acc body (length seen) (length rest) result h
  = (Ok (result ++ (plucked property h <$> rest)), h).
Proof.
  induction rest as [| x rest IH]; intros seen result H Hall.
  - simpl. by rewrite app_nil_r.
  - apply Forall_cons in Hall as [(v & Ev) Hall].
    assert (E : (seen ++ x :: rest) !! length seen = Some x).
    { by rewrite lookup_app_r, Nat.sub_diag. }
    assert (Eb : body (length seen) result h = (Ok (result ++ [v]), h)).
    { unfold body. step (items_at_lookup _ _ _ _ _ _ _ H E). by step Ev. }
    change (length (x :: rest)) with (S (length rest)).
    rewrite for_acc_turn, (bind_ok _ _ _ _ _ Eb).
    replace (S (length seen)) with (length (seen ++ [x]))
      by (rewrite length_app; simpl; lia).
    rewrite IH; [| by rewrite <- app_assoc | done].
    rewrite fmap_cons, (plucked_ok x v Ev). by rewrite <- app_assoc.
Qed.

Lemma pluck_loop_throws pre : ∀ seen result x post e,
  holds h this c a (seen ++ pre ++ x :: post) →
  Forall (λ x, ∃ v, getPluckFunction property x VUndefined h = (Ok v, h)) pre →
  getPluckFunction property x VUndefined h = (Throw e, h) →
  for_acc body (length seen) (length (pre ++ x :: post)) result h = (Throw e, h).
Proof.
  induction pre as [| y pre IH]; intros seen result x post e H Hpre Hx.
  - assert (E : (seen ++ x :: post) !! length seen = Some x).
    { by rewrite lookup_app_r, Nat.sub_diag. }
    assert (Eb : body (length seen) result h = (Throw e, h)).
    { unfold body. step (items_at_lookup _ _ _ _ _ _ _ H E).
      by rewrite (bind_throw _ _ _ _ _ Hx). }
    change (length ([] ++ x :: post)) with (S (length post)).
    by rewrite for_acc_turn, (bind_throw _ _ _ _ _ Eb).
  - apply Forall_cons in Hpre as [(v & Ev) Hpre].
    assert (E : (seen ++ (y :: pre) ++ x :: post) !! length seen = Some y).
    { by rewrite lookup_app_r, Nat.sub_diag. }
    assert (Eb : body (length seen) result h = (Ok (result ++ [v]), h)).
    { unfold body. step (items_at_lookup _ _ _ _ _ _ _ H E). by step Ev. }
    change (length ((y :: pre) ++ x :: post)) with (S (length (pre ++ x :: post))).
    rewrite for_acc_turn, (bind_ok _ _ _ _ _ Eb).
    replace (S (length seen)) with (length (seen ++ [y]))
      by (rewrite length_app; simpl; lia).
    apply IH; [| done | done]. by rewrite <- app_assoc.
Qed.

Lemma pluck_returns l :
  holds h this c a l →
  Forall (λ x, ∃ v, getPluckFunction property x VUndefined h = (Ok v, h)) l →
  returns (Iterable.pluck property (VRef this)) h List_ctor (plucked property h <$> l).
Proof.
  intros H Hall. unfold returns, Iterable.pluck.
  step (size_holds _ _ _ _ _ H).
  pose proof (pluck_loop l [] [] H Hall) as E. simpl in E. fold body. step E.
  destruct (alloc_spec (OArray (plucked property h <$> l)) h) as (r1 & E1 & F1).
  step E1.
  destruct (List_fromArray_spec (<[r1:=OArray (plucked property h <$> l)]> h) r1 _
              (lookup_insert_eq h r1 _)) as (r' & a' & h' & E' & Hsub' & Hh & F2 & F3).
  assert (Hsub : h ⊆ <[r1:=OArray (plucked property h <$> l)]> h) by by apply insert_subseteq.
  exists r', a', h'. split_and!; [done | done | by etrans | |].
  - by eapply lookup_weaken_None.
  - by eapply lookup_weaken_None.
Qed.

(** X22. [pluck] returns a List, whatever the kind of the receiver, with
    one value per item.  With a path of two names or more it never
    throws, and an item that is [null] or [undefined] gives [undefined].
    With a single name it throws as soon as an item is [null] or
    [undefined], the store being as it was, and returns when there is no
    such item. *)
Theorem pluck_and_null_items l :
  holds h this c a l →
  let chain := split_dot property in
  (length chain ≠ 1%nat →
     ∃ ys, returns (Iterable.pluck property (VRef this)) h List_ctor ys
           ∧ length ys = length l
           ∧ ∀ i x, l !! i = Some x → loose_eq_null x = true → ys !! i = Some VUndefined)
  ∧ (length chain = 1%nat → Forall (λ x, loose_eq_null x = false) l →
     ∃ ys, returns (Iterable.pluck property (VRef this)) h List_ctor ys
           ∧ length ys = length l)
  ∧ (length chain = 1%nat → Exists (λ x, loose_eq_null x = true) l →
     ∃ e, Iterable.pluck property (VRef this) h = (Throw e, h)).
Proof.
  intros H chain. split_and!.
  - intros Hlen. exists (plucked property h <$> l). split_and!.
    + apply pluck_returns; [done |]. apply Forall_forall. intros x _.
      unfold getPluckFunction. fold chain. rewrite decide_False by done.
      apply pluck_chain_total.
    + apply length_fmap.
    + intros i x E Hx. rewrite list_lookup_fmap, E. simpl. f_equal.
      unfold plucked, getPluckFunction. fold chain.
      rewrite decide_False by done.
      pose proof (split_dot_not_nil property) as Hne. fold chain in Hne.
      destruct chain as [| name rest]; [done |].
      by rewrite (pluck_chain_null name rest x h Hx).
  - intros Hlen Hall. exists (plucked property h <$> l). split; [| apply length_fmap].
    apply pluck_returns; [done |].
    eapply Forall_impl; [exact Hall |]. intros x Hx. simpl in Hx.
    unfold getPluckFunction. fold chain. rewrite decide_True by done.
    by apply get_prop_not_null.
  - intros Hlen Hex.
    destruct (first_null l Hex) as (pre & x & post & -> & Hpre & Hx).
    destruct (get_prop_null x (default EmptyString (head chain)) h Hx) as (e & Ee).
    assert (Hok : Forall (λ x, ∃ v, getPluckFunction property x VUndefined h = (Ok v, h)) pre).
    { eapply Forall_impl; [exact Hpre |]. intros y Hy. simpl in Hy.
      unfold getPluckFunction. fold chain. rewrite decide_True by done.
      by apply get_prop_not_null. }
    assert (Hthrow : getPluckFunction property x VUndefined h = (Throw e, h)).
    { unfold getPluckFunction. fold chain. by rewrite decide_True by done. }
    exists e. unfold Iterable.pluck.
    step (size_holds _ _ _ _ _ H). fold body.
    by rewrite (bind_throw _ _ _ _ _ (pluck_loop_throws pre [] [] x post e H Hok Hthrow)).
Qed.

End Pluck.

Lemma pluck_and_null_items_witness :
  let l := [VStr "ab"; VNull] in
  let h := single SimpleIterable_ctor l in
  (∃ e, Iterable.pluck "length" (VRef this0) h = (Throw e, h))
  ∧ ∃ ys, returns (Iterable.pluck "length.x" (VRef this0)) h List_ctor ys
          ∧ length ys = length l
          ∧ ∀ i x, l !! i = Some x → loose_eq_null x = true → ys !! i = Some VUndefined.
Proof.
  intros l h. split.
  - destruct (pluck_and_null_items "length" h this0 SimpleIterable_ctor items0 l
                (single_holds _ _)) as (_ & _ & Hthrow).
    apply Hthrow; [reflexivity |]. apply Exists_cons_tl, Exists_cons_hd. reflexivity.
  - destruct (pluck_and_null_items "length.x" h this0 SimpleIterable_ctor items0 l
                (single_holds _ _)) as (Hnested & _ & _).
    apply Hnested. simpl. lia.
Defined.

Lemma for_loop_ext {A R} (body body' : nat → A → M (step A R)) :
  (∀ i acc h, body i acc h = body' i acc h) →
  ∀ n i acc h, for_loop body i n acc h = for_loop body' i n acc h.
Proof.
  intros Hb. induction n as [| n IH]; intros i acc h; simpl; [done |].
  rewrite !bind_run, Hb. destruct (body' i acc h) as [[[acc' | r] | e |] h']; by rewrite ?IH.
Qed.

(** X23. [findBy(property, value)] is [find] with the predicate that
    plucks the property and compares it with [value] by [===]: the two
    calls run alike on every receiver and in every store, errors
    included. *)
Theorem findBy_is_find property (value this : JS.value) h :
  Iterable.findBy property value this h
  = Iterable.find
      (λ x _, y ← getPluckFunction property x VUndefined; mret (VBool (strict_eq y value)))
      this h.
Proof.
  unfold Iterable.findBy, Iterable.find.
  apply bind_ext_run. intros n h1.
  rewrite !bind_run. erewrite for_loop_ext; [done |].
  intros i [] h2. unfold Iterable._invoke.
  rewrite !bind_run. destruct (Iterable.items_at (Z.of_nat i) this h2) as [[x | e |] h3]; [| done ..].
  rewrite !bind_run. destruct (getPluckFunction property x VUndefined h3) as [[y | e |] h4];
    [| done ..].
  rewrite ret_run. simpl. by destruct (strict_eq y value).
Qed.

(** * map after filter *)

Section FilterMap.
Context (p f : value → value).

Let sat (x : value) : Prop := truthy (p x) = true.
Let merged (x : value) : value := if truthy (p x) then f x else VRef NOT_MAPPED.

Lemma kept_all (xs : list value) :
  Forall (λ x, kept (f x) = true) xs → filter (λ v, kept v = true) (f <$> xs) = f <$> xs.
Proof.
  induction xs as [| x xs IH]; intros Hall; [done |].
  apply Forall_cons in Hall as [Hx Hall].
  rewrite fmap_cons, filter_cons, decide_True by done. by rewrite IH.
Qed.

Lemma kept_merged (xs : list value) :
  Forall (λ x, sat x → kept (f x) = true) xs →
  filter (λ v, kept v = true) (merged <$> xs) = f <$> filter sat xs.
Proof.
  induction xs as [| x xs IH]; intros Hall; [done |].
  apply Forall_cons in Hall as [Hx Hall].
  rewrite fmap_cons, !filter_cons, IH by done.
  destruct (decide (sat x)) as [Hs | Hs].
  - assert (Em : merged x = f x) by (unfold merged; unfold sat in Hs; by rewrite Hs).
    rewrite Em. by rewrite decide_True by by apply Hx.
  - assert (Em : merged x = VRef NOT_MAPPED).
    { unfold merged. unfold sat in Hs. apply not_true_is_false in Hs. by rewrite Hs. }
    rewrite Em. by rewrite decide_False by done.
Qed.

(** X24. [filter] followed by [map] can be merged into one [map] whose
    function returns the sentinel [NOT_MAPPED] for the items to leave
    out: both return a collection of the receiver's kind with the mapped
    values of the items that satisfy the predicate, in their order.  The
    functions have no effect, and the mapped values of those items are
    values that [map] keeps. *)
Theorem filter_then_map_merges h this c a l :
  holds h this c a l →
  Forall (λ x, truthy (p x) = true → kept (f x) = true) l →
  let xs := f <$> filter (λ x, truthy (p x) = true) l in
  returns (r ← Iterable.filter (pure1 p) (VRef this); Iterable.map (pure1 f) r) h c xs
  ∧ returns
      (Iterable.map (pure1 (λ x, if truthy (p x) then f x else VRef NOT_MAPPED)) (VRef this))
      h c xs.
Proof.
  intros H Hall xs. split.
  - eapply returns_bind; [by eapply filter_returns |].
    intros h' r a' H'. unfold xs.
    rewrite <- (kept_all (filter (λ x, truthy (p x) = true) l)).
    + by eapply map_returns.
    + apply Forall_forall. intros x Hx. apply list_elem_of_filter in Hx as [Hs Hx].
      rewrite Forall_forall in Hall. by apply Hall.
  - unfold xs. pose proof (kept_merged l Hall) as E. unfold sat, merged in E.
    rewrite <- E. by eapply map_returns.
Qed.

End FilterMap.

Lemma filter_then_map_merges_witness :
  let small := λ v, match v with VNum n => VBool (n <? 3) | _ => VBool false end in
  let double := λ v, match v with VNum n => VNum (2 * n) | _ => v end in
  let h := single List_ctor one_to_six in
  let xs := double <$> filter (λ x, truthy (small x) = true) one_to_six in
  (returns (r ← Iterable.filter (pure1 small) (VRef this0); Iterable.map (pure1 double) r)
     h List_ctor xs
   ∧ returns
       (Iterable.map (pure1 (λ x, if truthy (small x) then double x else VRef NOT_MAPPED))
          (VRef this0))
       h List_ctor xs)
  ∧ xs = VNum <$> [2; 4].
Proof.
  intros small double h xs. split; [| reflexivity].
  apply (filter_then_map_merges small double h this0 List_ctor items0 one_to_six
           (single_holds _ _)).
  repeat constructor.
Defined.

(** * sorted on numbers *)

Lemma StronglySorted_fmap_on {A B} (P : A → Prop) (R1 : A → A → Prop) (R2 : B → B → Prop)
    (f : A → B) (l : list A) :
  (∀ x y, P x → P y → R1 x y → R2 (f x) (f y)) →
  Forall P l → StronglySorted R1 l → StronglySorted R2 (f <$> l).
Proof.
  intros Hf. induction l as [| x l IH]; intros HP Hs; [constructor |].
  apply Forall_cons in HP as [Hx HP]. apply StronglySorted_inv in Hs as [Hs Hall].
  rewrite fmap_cons. constructor; [by apply IH |].
  rewrite Forall_fmap. rewrite Forall_forall in Hall, HP. apply Forall_forall.
  intros y Hy. apply Hf; [done | by apply HP | by apply Hall].
Qed.

Section SortedOnNumbers.
Context {host : Host}.

Lemma mapped_from_elem ic svs : ∀ k e,
  e ∈ mapped_from ic k svs →
  ∃ i v, svs !! i = Some v ∧ index e = (k + i)%nat ∧ value_ e = sort_key ic v.
Proof.
  induction svs as [| v svs IH]; intros k e He; simpl in He.
  - by apply elem_of_nil in He.
  - assert (Hrest : e ∈ mapped_from ic (S k) svs →
                    ∃ i w, (v :: svs) !! i = Some w ∧ index e = (k + i)%nat
                           ∧ value_ e = sort_key ic w).
    { intros Hin. destruct (IH _ _ Hin) as (i & w & E & Ei & Ev).
      exists (S i), w. split_and!; [done | lia | done]. }
    destruct (Iterable.is_missing v); [by apply Hrest |].
    apply elem_of_cons in He as [-> | He]; [| by apply Hrest].
    exists 0%nat, v. split_and!; [done | simpl; lia | done].
Qed.

Lemma numbers_not_missing (l : list value) :
  Forall is_number l →
  filter (λ x, Iterable.is_missing x = false) l = l ∧ missing_of l = [].
Proof.
  induction l as [| x l IH]; intros Hnum; [done |].
  apply Forall_cons in Hnum as [[n ->] Hnum]. destruct (IH Hnum) as [E1 E2].
  unfold missing_of in *. rewrite !filter_cons. simpl. by rewrite E1, E2.
Qed.

(** X25. Called without options on a collection of numbers, [sorted]
    does not throw and returns a new collection of the receiver's kind
    with the same numbers in non-decreasing order. *)
Theorem sorted_numbers h this c a l :
  holds h this c a l → Forall is_number l →
  ∃ xs, returns (Iterable.sorted None (VRef this)) h c xs
        ∧ xs ≡ₚ l ∧ StronglySorted num_le xs.
Proof.
  intros H Hnum.
  assert (Esv : sort_value None <$> l = l) by apply list_fmap_id.
  destruct (numbers_not_missing l Hnum) as [Enm Em].
  set (mapped := mapped_from VUndefined 0 l).
  assert (Hent : ∀ e, e ∈ mapped → ∃ n, l !! index e = Some (VNum n) ∧ value_ e = VNum n).
  { intros e He. destruct (mapped_from_elem _ _ _ _ He) as (i & v & E & Ei & Ev).
    rewrite Forall_forall in Hnum.
    destruct (Hnum v) as [n ->]; [apply list_elem_of_lookup; eauto |].
    exists n. simpl in Ei. by rewrite Ei, Ev. }
  assert (Hc : consistent (Iterable.sortFunction VUndefined) mapped = true).
  { apply consistent_numbers; [done | |].
    - apply Forall_forall. intros e He. destruct (Hent e He) as (n & _ & Ev). by exists n.
    - intros [i1 v1] [i2 v2] H1 H2 Hi. simpl in Hi. subst i2.
      destruct (Hent _ H1) as (n1 & E1 & Ev1), (Hent _ H2) as (n2 & E2 & Ev2).
      simpl in *. congruence. }
  destruct (Array_sort_spec (Iterable.sortFunction VUndefined) mapped Hc mapped)
    as (es & Es & Hp & Hs); [done | apply mapped_from_NoDup |].
  exists (items_at_entries l es). split_and!.
  - pose proof (sorted_run no_options None h this c a l H I es) as R.
    simpl in R. rewrite Esv, Em, app_nil_r in R. by apply R.
  - unfold items_at_entries. rewrite Hp.
    pose proof (items_at_mapped_from VUndefined (λ x, x) l []) as E.
    simpl in E. unfold items_at_entries in E. rewrite list_fmap_id in E.
    unfold mapped. by rewrite E, Enm.
  - unfold items_at_entries.
    apply (StronglySorted_fmap_on (λ e, e ∈ mapped)
             (λ e1 e2, cmp_le (Iterable.sortFunction VUndefined) e1 e2 = true)); [| | done].
    + intros e1 e2 H1 H2 Hle.
      destruct (Hent _ H1) as (m & E1 & Ev1), (Hent _ H2) as (n & E2 & Ev2).
      rewrite (Array_get_lookup _ _ _ E1), (Array_get_lookup _ _ _ E2).
      exists m, n. split_and!; [done | done |].
      apply (cmp_le_numbers VUndefined e1 e2 m n) in Hle; [lia | done ..].
    + apply Forall_forall. intros e He. by rewrite <- Hp.
Qed.

End SortedOnNumbers.

Section SortedOnNumbersExample.
#[local] Existing Instance ExampleHost.host.

Lemma sorted_numbers_witness :
  let l := VNum <$> [5; 3; 9; 3] in
  ∃ xs, returns (Iterable.sorted None (VRef this0)) (single List_ctor l) List_ctor xs
        ∧ xs ≡ₚ l ∧ StronglySorted num_le xs.
Proof.
  intros l. apply (sorted_numbers _ this0 _ items0); [apply single_holds |].
  repeat constructor; by eexists.
Defined.

End SortedOnNumbersExample.

(** * grouped *)

Lemma chunks_concat size_ l : ∀ current,
  l ≠ [] ∨ current = [] → concat (chunks_from size_ current l) = current ++ l.
Proof.
  induction l as [| x rest IH]; intros current Hne.
  - destruct Hne as [| ->]; done.
  - simpl. destruct (_ || _) eqn:Et.
    + simpl. rewrite IH by by right. simpl. by rewrite <- app_assoc.
    + apply orb_false_iff in Et as [_ Er]. apply bool_decide_eq_false in Er.
      rewrite IH by by left. by rewrite <- app_assoc.
Qed.

Lemma chunks_not_empty size_ l : ∀ current,
  Forall (λ g, g ≠ []) (chunks_from size_ current l).
Proof.
  induction l as [| x rest IH]; intros current; simpl; [constructor |].
  destruct (_ || _); [| apply IH].
  constructor; [| apply IH]. by destruct current.
Qed.

Lemma chunks_lengths n l : ∀ current,
  1 ≤ n → Z.of_nat (length current) < n →
  Forall (λ g, Z.of_nat (length g) ≤ n) (chunks_from (VNum n) current l).
Proof.
  induction l as [| x rest IH]; intros current Hn Hc; simpl; [constructor |].
  destruct (_ || _) eqn:Et.
  - constructor; [rewrite length_app; simpl; lia |]. apply IH; simpl; lia.
  - apply orb_false_iff in Et as [Es _]. apply IH; [done |].
    unfold strict_eq in Es. apply bool_decide_eq_false in Es.
    rewrite length_app in *. simpl in *.
    assert (Z.of_nat (length current + 1) ≠ n) by congruence. lia.
Qed.

Lemma chunks_full n l : ∀ current i g,
  chunks_from (VNum n) current l !! i = Some g →
  (S i < length (chunks_from (VNum n) current l))%nat →
  Z.of_nat (length g) = n.
Proof.
  induction l as [| x rest IH]; intros current i g E Hi; simpl in E, Hi; [done |].
  destruct (_ || _) eqn:Et; [| by eapply IH].
  destruct i as [| i]; simpl in E, Hi; [| eapply IH; [done | lia]].
  injection E as <-.
  apply orb_true_iff in Et as [Es | Er].
  - unfold strict_eq in Es. apply bool_decide_eq_true in Es. by injection Es.
  - apply bool_decide_eq_true in Er. subst rest. simpl in Hi. lia.
Qed.

Lemma chunks_single size_ l : ∀ current,
  (∀ k, (1 ≤ k)%nat → strict_eq (VNum (Z.of_nat k)) size_ = false) → l ≠ [] →
  chunks_from size_ current l = [current ++ l].
Proof.
  induction l as [| x rest IH]; intros current Hs Hne; [done |].
  cbn [chunks_from]. rewrite Hs by (rewrite length_app; simpl; lia).
  destruct rest as [| y rest]; [done |].
  rewrite bool_decide_eq_false_2 by done. cbn [orb].
  rewrite IH by done. by rewrite <- app_assoc.
Qed.

Section Grouped.
Context (size_ : value) (this : loc) (c : constructor) (a : loc) (total : nat).

Let body : nat → list value * list value → M (list value * list value) :=
  λ i '(groups, current),
    x ← Iterable.items_at (Z.of_nat i) (VRef this);
    let current := current ++ [x] in
    if strict_eq (VNum (Z.of_nat (Datatypes.length current))) size_
       || bool_decide (Z.of_nat i = Z.of_nat total - 1)
    then g ← Iterable._createNew_from current (VRef this); mret (groups ++ [g], [])
    else mret (groups, current).

Lemma grouped_loop rest : ∀ pre groups current h1,
  holds h1 this c a (pre ++ rest) → total = length (pre ++ rest) →
  ∃ rs cur h2,
    for_acc body (length pre) (length rest) (groups, current) h1
    = (Ok (groups ++ (VRef <$> rs), cur), h2)
    ∧ h1 ⊆ h2
    ∧ Forall2 (λ r g, ∃ a', holds h2 r c a' g) rs (chunks_from size_ current rest).
Proof.
  induction rest as [| x rest IH]; intros pre groups current h1 H Ht.
  - exists [], current, h1. simpl. rewrite app_nil_r. by split_and!.
  - assert (E : (pre ++ x :: rest) !! length pre = Some x).
    { by rewrite lookup_app_r, Nat.sub_diag. }
    assert (Elast : bool_decide (Z.of_nat (length pre) = Z.of_nat total - 1)
                    = bool_decide (rest = [])).
    { rewrite Ht, length_app. simpl. apply bool_decide_ext. split.
      - intros Hl. destruct rest; [done | simpl in Hl; lia].
      - intros ->. simpl. lia. }
    change (length (x :: rest)) with (S (length rest)).
    rewrite for_acc_turn. cbn [chunks_from].
    destruct (strict_eq (VNum (Z.of_nat (length (current ++ [x])))) size_
              || bool_decide (rest = [])) eqn:Et.
    + destruct (createNew_from_returns h1 this c a (pre ++ x :: rest) (current ++ [x]) H)
        as (r & a' & h' & Er & Hr & Hsub & Fr & Fa).
      assert (Eb : body (length pre) (groups, current) h1
                   = (Ok (groups ++ [VRef r], []), h')).
      { unfold body. step (items_at_lookup _ _ _ _ _ _ _ H E).
        rewrite Elast, Et. by step Er. }
      rewrite (bind_ok _ _ _ _ _ Eb).
      destruct (IH (pre ++ [x]) (groups ++ [VRef r]) [] h') as (rs & cur & h2 & El & Hsub2 & Hf).
      { rewrite <- app_assoc. by eapply holds_mono. }
      { by rewrite <- app_assoc. }
      exists (r :: rs), cur, h2. split_and!.
      * replace (S (length pre)) with (length (pre ++ [x]))
          by (rewrite length_app; simpl; lia).
        rewrite El. by rewrite fmap_cons, <- app_assoc.
      * by etrans.
      * constructor; [| done]. exists a'. by eapply holds_mono.
    + assert (Eb : body (length pre) (groups, current) h1
                   = (Ok (groups, current ++ [x]), h1)).
      { unfold body. step (items_at_lookup _ _ _ _ _ _ _ H E). by rewrite Elast, Et. }
      rewrite (bind_ok _ _ _ _ _ Eb).
      destruct (IH (pre ++ [x]) groups (current ++ [x]) h1) as (rs & cur & h2 & El & Hsub2 & Hf).
      { by rewrite <- app_assoc. }
      { by rewrite <- app_assoc. }
      exists rs, cur, h2. split_and!; [| done | done].
      replace (S (length pre)) with (length (pre ++ [x]))
        by (rewrite length_app; simpl; lia).
      by rewrite El.
Qed.

End Grouped.

(** X26. [grouped(size)] returns a List of new collections of the
    receiver's kind whose items, one group after the other, are the items
    of the receiver; no group is empty, and an empty receiver gives no
    group.  With a number [size >= 1] every group has at most [size]
    items and every group before the last has exactly [size].  With a
    [size] that no length equals, as 0 or a negative number, the items
    are all in one group.  The receiver is left as it is. *)
Theorem grouped_groups h this c a l size_ :
  holds h this c a l →
  ∃ gs rs r a' h',
    Iterable.grouped size_ (VRef this) h = (Ok (VRef r), h')
    ∧ holds h' r List_ctor a' (VRef <$> rs)
    ∧ Forall2 (λ r g, ∃ a'', holds h' r c a'' g) rs gs
    ∧ holds h' this c a l
    ∧ concat gs = l
    ∧ Forall (λ g, g ≠ []) gs
    ∧ (∀ n, size_ = VNum n → 1 ≤ n →
         Forall (λ g, Z.of_nat (length g) ≤ n) gs
         ∧ ∀ i g, gs !! i = Some g → (S i < length gs)%nat → Z.of_nat (length g) = n)
    ∧ ((∀ k, (1 ≤ k)%nat → strict_eq (VNum (Z.of_nat k)) size_ = false) → l ≠ [] →
       gs = [l]).
Proof.
  intros H.
  destruct (grouped_loop size_ this c a (length l) l [] [] [] h H eq_refl)
    as (rs & cur & h1 & El & Hsub1 & Hf).
  destruct (alloc_spec (OArray (VRef <$> rs)) h1) as (r1 & E1 & F1).
  destruct (List_fromArray_spec (<[r1:=OArray (VRef <$> rs)]> h1) r1 _
              (lookup_insert_eq h1 r1 _)) as (r & a' & h' & E' & Hsub' & Hh & F2 & F3).
  assert (Hsub2 : h1 ⊆ h').
  { etrans; [| exact Hsub']. by apply insert_subseteq. }
  exists (chunks_from size_ [] l), rs, r, a', h'. split_and!.
  - unfold Iterable.grouped. step (size_holds _ _ _ _ _ H).
    simpl in El. rewrite (bind_ok _ _ _ _ _ El). cbv beta iota. by step E1.
  - done.
  - eapply Forall2_impl; [exact Hf |]. intros r' g (a'' & Hg). exists a''.
    by eapply holds_mono.
  - eapply holds_mono; [done |]. by etrans.
  - apply (chunks_concat size_ l []). by right.
  - apply chunks_not_empty.
  - intros n -> Hn. split; [apply chunks_lengths; simpl; lia |].
    intros i g. apply chunks_full.
  - intros Hs Hne. by apply (chunks_single size_ l []).
Qed.

Lemma grouped_groups_witness :
  ∃ gs rs r a' h',
    Iterable.grouped (VNum 4) (VRef this0) (single SimpleIterable_ctor one_to_six)
    = (Ok (VRef r), h')
    ∧ holds h' r List_ctor a' (VRef <$> rs)
    ∧ Forall2 (λ r g, ∃ a'', holds h' r SimpleIterable_ctor a'' g) rs gs
    ∧ holds h' this0 SimpleIterable_ctor items0 one_to_six
    ∧ concat gs = one_to_six
    ∧ Forall (λ g, g ≠ []) gs
    ∧ (∀ n, VNum 4 = VNum n → 1 ≤ n →
         Forall (λ g, Z.of_nat (length g) ≤ n) gs
         ∧ ∀ i g, gs !! i = Some g → (S i < length gs)%nat → Z.of_nat (length g) = n)
    ∧ ((∀ k, (1 ≤ k)%nat → strict_eq (VNum (Z.of_nat k)) (VNum 4) = false) →
       one_to_six ≠ [] → gs = [one_to_six]).
Proof.
  exact (grouped_groups _ this0 SimpleIterable_ctor items0 one_to_six (VNum 4)
           (single_holds _ _)).
Defined.

(** * List.sortBy *)

Section SortBy.
Context {host : Host}.
Context (extractor : func) (key : value → Z) (h : heap).

Let comparefn : value → value → M Z :=
  λ a b,
    A ← extractor a VUndefined;
    B ← extractor b VUndefined;
    mret (if host_lt A B then -1 else if host_lt B A then 1 else 0).

(** An item that is not [undefined] and whose key the extractor computes
    without effect. *)
Let keyed (x : value) : Prop :=
  x ≠ VUndefined ∧ extractor x VUndefined h = (Ok (VNum (key x)), h).

Let by_key (x y : value) : Prop := key x ≤ key y.

Lemma SortCompare_keyed x y :
  keyed x → keyed y →
  ∃ z, SortCompare comparefn x y h = (Ok z, h) ∧ (z ≤ 0 ↔ key x ≤ key y).
Proof.
  intros [Hx Ex] [Hy Ey].
  exists (if key x <? key y then -1 else if key y <? key x then 1 else 0). split.
  - assert (Ec : comparefn x y h
                 = (Ok (if key x <? key y then -1 else if key y <? key x then 1 else 0), h)).
    { unfold comparefn. step Ex. step Ey. by rewrite !host_lt_num. }
    by destruct x, y.
  - destruct (key x <? key y) eqn:E1; [apply Z.ltb_lt in E1; lia |].
    apply Z.ltb_ge in E1.
    destruct (key y <? key x) eqn:E2; [apply Z.ltb_lt in E2 | apply Z.ltb_ge in E2]; lia.
Qed.

Lemma sort_insertM_run x s :
  keyed x → Forall keyed s → StronglySorted by_key s →
  ∃ r, sort_insertM comparefn x s h = (Ok r, h) ∧ r ≡ₚ x :: s ∧ StronglySorted by_key r.
Proof.
  intros Hx. induction s as [| y s IH]; intros Hall Hs.
  - exists [x]. split_and!; [done | done | repeat constructor].
  - apply Forall_cons in Hall as [Hy Hall].
    apply StronglySorted_inv in Hs as [Hs Hys].
    destruct (SortCompare_keyed x y Hx Hy) as (z & Ez & Hz).
    cbn [sort_insertM]. step Ez. case_decide as Hle.
    + exists (x :: y :: s). split_and!; [done | done |].
      apply Hz in Hle. constructor; [by constructor |].
      constructor; [done |]. eapply Forall_impl; [exact Hys |].
      intros w Hw. unfold by_key in *. lia.
    + destruct (IH Hall Hs) as (r & Er & Hp & Hr).
      exists (y :: r). split_and!.
      * by step Er.
      * rewrite Hp. apply perm_swap.
      * constructor; [done |]. rewrite Hp. constructor; [| done].
        unfold by_key. lia.
Qed.

Lemma Array_sortM_run l :
  Forall keyed l →
  ∃ r, Array_sortM comparefn l h = (Ok r, h) ∧ r ≡ₚ l ∧ StronglySorted by_key r.
Proof.
  induction l as [| x l IH]; intros Hall.
  - exists []. split_and!; [done | done | constructor].
  - apply Forall_cons in Hall as [Hx Hall].
    destruct (IH Hall) as (s & Es & Hp & Hs).
    destruct (sort_insertM_run x s Hx) as (r & Er & Hpr & Hr); [by rewrite Hp | done |].
    exists r. split_and!; [| by rewrite Hpr, Hp | done].
    cbn [Array_sortM]. by step Es.
Qed.

(** X27. With an extractor that has no effect and gives a number for
    every item, none of them [undefined], [sortBy] sorts the list in
    place: the items are the same, now in non-decreasing order of their
    numbers, on the backing array the list had, and the list is
    returned. *)
Theorem sortBy_orders_by_key this c a l :
  holds h this c a l →
  Forall (λ x, x ≠ VUndefined ∧ extractor x VUndefined h = (Ok (VNum (key x)), h)) l →
  ∃ xs, List_sortBy extractor (VRef this) h = (Ok (VRef this), <[a:=OArray xs]> h)
        ∧ xs ≡ₚ l ∧ StronglySorted (λ x y, key x ≤ key y) xs.
Proof.
  intros H Hall. destruct (Array_sortM_run l Hall) as (xs & Exs & Hp & Hs).
  exists xs. split_and!; [| done | done].
  unfold List_sortBy. step (this_items_holds _ _ _ _ _ H).
  step (array_of_lookup _ _ _ (proj2 H)). fold comparefn. step Exs.
  by step (set_array_lookup _ _ _ xs (proj2 H)).
Qed.

End SortBy.

Section SortByExample.
#[local] Existing Instance ExampleHost.host.

Lemma sortBy_orders_by_key_witness :
  let key := λ v, match v with VNum n => - n | _ => 0 end in
  let l := VNum <$> [1; 3; 2] in
  let h := single List_ctor l in
  ∃ xs, List_sortBy (pure1 (λ v, VNum (key v))) (VRef this0) h
        = (Ok (VRef this0), <[items0:=OArray xs]> h)
        ∧ xs ≡ₚ l ∧ StronglySorted (λ x y, key x ≤ key y) xs.
Proof.
  intros key l h.
  apply (sortBy_orders_by_key (pure1 (λ v, VNum (key v))) key h this0 List_ctor items0 l).
  - apply single_holds.
  - repeat constructor; done.
Defined.

End SortByExample.

(** * The error of a rejected index, size and isEmpty *)



(** X29. [size] is the number of items and [isEmpty] tells whether there
    is none, both without changing the store; after [add] the list is not
    empty. *)
Theorem size_and_isEmpty h this c a l item :
  holds h this c a l →
  Iterable.size (VRef this) h = (Ok (length l), h)
  ∧ reads (Iterable.isEmpty (VRef this)) h (VBool (bool_decide (l = [])))
  ∧ (List.add item (VRef this);; Iterable.isEmpty (VRef this)) h
    = (Ok (VBool false), <[a:=OArray (l ++ [item])]> h).
Proof.
  intros H. split_and!.
  - by apply (size_holds _ _ c a).
  - unfold reads, Iterable.isEmpty. step (size_holds _ _ _ _ _ H).
    rewrite ret_run. do 3 f_equal. apply bool_decide_ext. by destruct l.
  - step (add_run _ _ _ _ _ item H). unfold Iterable.isEmpty.
    step (size_holds _ _ _ _ _ (holds_set_items _ _ _ _ _ (l ++ [item]) H)).
    rewrite ret_run. do 3 f_equal. apply bool_decide_eq_false.
    rewrite length_app. simpl. lia.
Qed.

Lemma size_and_isEmpty_witness :
  let h := single List_ctor [] in
  Iterable.size (VRef this0) h = (Ok (length (@nil value)), h)
  ∧ reads (Iterable.isEmpty (VRef this0)) h (VBool (bool_decide (@nil value = [])))
  ∧ (List.add (VNum 1) (VRef this0);; Iterable.isEmpty (VRef this0)) h
    = (Ok (VBool false), <[items0:=OArray ([] ++ [VNum 1])]> h).
Proof.
  intros h. exact (size_and_isEmpty h this0 List_ctor items0 [] (VNum 1) (single_holds _ _)).
Defined.
